(** * An explicit-free-list allocator (mm.c): shallow embedding and properties

    The allocator of [src/mm.c] manages a byte arena obtained from an
    sbrk-style provider.  Blocks carry a header and a footer, free blocks
    are threaded on a doubly linked list through their payloads, and the
    public operations are [mm_init], [mm_malloc], [mm_free] and
    [mm_realloc].

    The embedding keeps the C program's view of the machine:
    - the arena is byte-addressed memory, little endian;
    - [GET]/[PUT] move an [int] (4 bytes, two's complement);
    - the link fields are pointers of [W = sizeof(void * )] bytes;
    - [size_t] and pointer arithmetic wrap modulo [2^(8W)];
    - every macro is expanded textually, as the preprocessor does. *)

From Stdlib Require Import ZArith List Lia Bool Permutation.
Import ListNotations.
Open Scope Z_scope.

(** ** Machine integers *)

Module Mach.

(** [int]: the value of a 32-bit pattern read as two's complement, which
    is also the conversion of any integer to [int]. *)
Definition to_int (z : Z) : Z := (z + 2 ^ 31) mod 2 ^ 32 - 2 ^ 31.

Definition int_min : Z := - 2 ^ 31.
Definition int_max : Z := 2 ^ 31 - 1.

Definition in_int (z : Z) : bool := (int_min <=? z) && (z <=? int_max).

End Mach.

(** ** Outcomes of a run

    A run of allocator code either completes with a value and a new
    state, or performs an access outside the arena (undefined behaviour
    in C, [Fault] here), or exhausts the fuel given to the one loop of
    the allocator ([OutOfFuel]). *)

Inductive outcome (S A : Type) : Type :=
| Done (a : A) (s : S)
| Fault
| OutOfFuel.
Arguments Done {S A} a s.
Arguments Fault {S A}.
Arguments OutOfFuel {S A}.

(** ** Allocator and provider state *)

Record state : Type := mkState {
  mem : Z -> Z;            (* the bytes of the address space *)
  mem_heap_lo : Z;         (* provider: first byte of the arena *)
  mem_brk : Z;             (* provider: one past the last arena byte *)
  mem_max_addr : Z;        (* provider: limit of the arena *)
  sbrk_log : list Z;       (* provider: byte counts requested, oldest first *)
  heap_listp : Z;          (* static char *heap_listp *)
  free_listp : Z           (* static char *free_listp *)
}.

Definition M (A : Type) : Type := state -> outcome state A.

Definition ret {A} (a : A) : M A := fun s => Done a s.

Definition bind {A B} (m : M A) (k : A -> M B) : M B :=
  fun s => match m s with
           | Done a s' => k a s'
           | Fault => Fault
           | OutOfFuel => OutOfFuel
           end.

Notation "x <- m ;; k" := (bind m (fun x => k))
  (at level 61, m at next level, right associativity).
Notation "m ;; k" := (bind m (fun _ => k))
  (at level 61, right associativity).

Definition fault {A} : M A := fun _ => Fault.
Definition timeout {A} : M A := fun _ => OutOfFuel.

(** ** Byte memory *)

Fixpoint load_bytes (m : Z -> Z) (a : Z) (n : nat) : Z :=
  match n with
  | O => 0
  | S k => (m a) mod 256 + 256 * load_bytes m (a + 1) k
  end.

Definition upd (m : Z -> Z) (a v : Z) : Z -> Z :=
  fun x => if x =? a then v else m x.

Fixpoint store_bytes (m : Z -> Z) (a : Z) (n : nat) (v : Z) : Z -> Z :=
  match n with
  | O => m
  | S k => store_bytes (upd m a (v mod 256)) (a + 1) k (v / 256)
  end.

Definition copy_bytes (m : Z -> Z) (dst src n : Z) : Z -> Z :=
  fun x => if (dst <=? x) && (x <? dst + n) then m (x - dst + src) else m x.

Definition set_mem (m : Z -> Z) (s : state) : state :=
  mkState m (mem_heap_lo s) (mem_brk s) (mem_max_addr s) (sbrk_log s)
          (heap_listp s) (free_listp s).

Definition with_heap_listp (p : Z) (s : state) : state :=
  mkState (mem s) (mem_heap_lo s) (mem_brk s) (mem_max_addr s)
          (sbrk_log s) p (free_listp s).

Definition with_free_listp (p : Z) (s : state) : state :=
  mkState (mem s) (mem_heap_lo s) (mem_brk s) (mem_max_addr s)
          (sbrk_log s) (heap_listp s) p.

Definition set_heap_listp (p : Z) : M unit := fun s =>
  Done tt (with_heap_listp p s).

Definition set_free_listp (p : Z) : M unit := fun s =>
  Done tt (with_free_listp p s).

Definition get_heap_listp : M Z := fun s => Done (heap_listp s) s.
Definition get_free_listp : M Z := fun s => Done (free_listp s) s.

(** The bytes [a .. a+n-1] may be accessed when they lie inside the
    arena the provider has handed out so far. *)
Definition valid (s : state) (a n : Z) : bool :=
  (mem_heap_lo s <=? a) && (a + n <=? mem_brk s).

(** [W] is [sizeof(void * )]: 4 on a 32-bit machine, 8 on a 64-bit one. *)
Class Machine : Type := {
  W : Z;
  W_ok : W = 4 \/ W = 8
}.

Section Allocator.

Context {mach : Machine}.

Definition ptr_mod : Z := 2 ^ (8 * W).

(** Conversion to [size_t] (and to a pointer): wrap modulo [2^(8W)]. *)
Definition wrap (z : Z) : Z := z mod ptr_mod.

Definition NULL : Z := 0.

(** *** Typed accesses

    [rd_int]/[wr_int] read and write the 4 bytes of an [int],
    [rd_ptr]/[wr_ptr] the [W] bytes of a pointer. *)

Definition rd_int (s : state) (a : Z) : Z :=
  Mach.to_int (load_bytes (mem s) a 4).

Definition rd_ptr (s : state) (a : Z) : Z :=
  load_bytes (mem s) a (Z.to_nat W).

Definition wr_int (a v : Z) (s : state) : state :=
  set_mem (store_bytes (mem s) a 4 (v mod 2 ^ 32)) s.

Definition wr_ptr (a v : Z) (s : state) : state :=
  set_mem (store_bytes (mem s) a (Z.to_nat W) (wrap v)) s.

Definition load_int (a : Z) : M Z := fun s =>
  if valid s a 4 then Done (rd_int s a) s else Fault.

Definition store_int (a v : Z) : M unit := fun s =>
  if valid s a 4 then Done tt (wr_int a v s) else Fault.

Definition load_ptr (a : Z) : M Z := fun s =>
  if valid s a W then Done (rd_ptr s a) s else Fault.

Definition store_ptr (a v : Z) : M unit := fun s =>
  if valid s a W then Done tt (wr_ptr a v s) else Fault.

(** [memcpy(dst, src, n)]: both ranges must lie in the arena and must not
    overlap (overlap is undefined behaviour). *)
Definition memcpy (dst src n : Z) : M unit := fun s =>
  if valid s dst n && valid s src n
     && ((dst + n <=? src) || (src + n <=? dst) || (n =? 0))
  then Done tt (set_mem (copy_bytes (mem s) dst src n) s)
  else Fault.

(** Signed [int] addition; overflow is undefined behaviour. *)
Definition int_add (a b : Z) : M Z :=
  if Mach.in_int (a + b) then ret (a + b) else fault.

(** *** The arena provider *)

(** The value [(void * )-1]. *)
Definition SBRK_FAILED : Z := wrap (-1).

(** Modelled from the spec: the arena provider [mem_sbrk] of memlib, which
    is not part of the sources.  The spec says it grows the arena by a
    byte count and returns the address of the newly added region, or an
    error sentinel; [extendHeap] tests the result against [-1], which
    fixes the sentinel.  The arena never grows past [mem_max_addr]. *)
Definition mem_sbrk (incr : Z) : M Z := fun s =>
  let s' b := mkState (mem s) (mem_heap_lo s) b (mem_max_addr s)
                      (sbrk_log s ++ [incr]) (heap_listp s) (free_listp s) in
  if mem_brk s + incr <=? mem_max_addr s
  then Done (mem_brk s) (s' (mem_brk s + incr))
  else Done SBRK_FAILED (s' (mem_brk s)).

(** *** Constants and macros (lines 37-72 of mm.c) *)

(** [#define WSIZE sizeof(void * )] *)
Definition WSIZE : Z := W.
(** [#define DSIZE 2 * WSIZE] *)
Definition DSIZE : Z := 2 * WSIZE.
(** [#define ALIGNMENT 2 * sizeof(void * )] *)
Definition ALIGNMENT : Z := 2 * W.
(** [#define MINIMUM 6 * WSIZE] *)
Definition MINIMUM : Z := 6 * WSIZE.
(** [#define CHUNKSIZE 1<<12], where it stands alone as an operand. *)
Definition CHUNKSIZE : Z := Z.shiftl 1 12.

(** [CHUNKSIZE / WSIZE] expands to [1<<12 / sizeof(void * )]; division
    binds tighter than the shift, so this is [1 << (12 / W)]. *)
Definition CHUNKSIZE_div_WSIZE : Z := Z.shiftl 1 (12 / WSIZE).

(** [#define ALIGN(p) (((size_t)(p) + (ALIGNMENT-1)+ DSIZE) & ~0x7)];
    [~0x7] is the [int] -8, all ones above bit 2 once converted. *)
Definition ALIGN (p : Z) : Z :=
  Z.land (wrap (wrap p + (ALIGNMENT - 1) + DSIZE)) (Z.lnot 7).

(** [#define MAX(x, y) ((x) > (y) ? (x) : (y))] *)
Definition MAX (x y : Z) : Z := if x >? y then x else y.

(** [#define PACK(size, alloc) ((size) | (alloc))] *)
Definition PACK (size alloc : Z) : Z := Z.lor size alloc.

(** [#define GET(p) ( *(int * )(p))] and
    [#define PUT(p, val) ( *(int * )(p) = (val))] *)
Definition GET (p : Z) : M Z := load_int p.
Definition PUT (p val : Z) : M unit := store_int p val.

(** [#define GET_SIZE(p) (GET(p) & ~0x7)] and
    [#define GET_ALLOC(p) (GET(p) & 0x1)]; both are [int]s. *)
Definition GET_SIZE (p : Z) : M Z := v <- GET p ;; ret (Z.land v (Z.lnot 7)).
Definition GET_ALLOC (p : Z) : M Z := v <- GET p ;; ret (Z.land v 1).

(** [#define HDRP(bp) ((void * )(bp) - WSIZE)] *)
Definition HDRP (bp : Z) : Z := wrap (bp - WSIZE).

(** [#define FTRP(bp) ((void * )(bp) + GET_SIZE(HDRP(bp)) - DSIZE)] *)
Definition FTRP (bp : Z) : M Z :=
  sz <- GET_SIZE (HDRP bp) ;; ret (wrap (bp + sz - DSIZE)).

(** [#define NEXT_BLKP(bp) ((void * )(bp) + GET_SIZE(HDRP(bp)))] *)
Definition NEXT_BLKP (bp : Z) : M Z :=
  sz <- GET_SIZE (HDRP bp) ;; ret (wrap (bp + sz)).

(** [#define PREV_BLKP(bp) ((void * )(bp) - GET_SIZE(HDRP(bp) - WSIZE))] *)
Definition PREV_BLKP (bp : Z) : M Z :=
  sz <- GET_SIZE (wrap (HDRP bp - WSIZE)) ;; ret (wrap (bp - sz)).

(** [#define NEXT_FREEP(bp)( *(void ** )(bp + DSIZE))] and
    [#define PREV_FREEP(bp)( *(void ** )(bp))], as r-values and as
    assignment targets. *)
Definition NEXT_FREEP (bp : Z) : M Z := load_ptr (wrap (bp + DSIZE)).
Definition PREV_FREEP (bp : Z) : M Z := load_ptr bp.
Definition set_NEXT_FREEP (bp v : Z) : M unit := store_ptr (wrap (bp + DSIZE)) v.
Definition set_PREV_FREEP (bp v : Z) : M unit := store_ptr bp v.

(** *** The free list (lines 532-556) *)

Definition add (bp : Z) : M unit :=
  fl <- get_free_listp ;;
  set_NEXT_FREEP bp fl ;;
  set_PREV_FREEP fl bp ;;
  set_PREV_FREEP bp NULL ;;
  set_free_listp bp.

Definition delete (bp : Z) : M unit :=
  prev <- PREV_FREEP bp ;;
  (if negb (prev =? 0)
   then next <- NEXT_FREEP bp ;; set_NEXT_FREEP prev next
   else next <- NEXT_FREEP bp ;; set_free_listp next) ;;
  next <- NEXT_FREEP bp ;;
  prev <- PREV_FREEP bp ;;
  set_PREV_FREEP next prev.

(** *** coalesce (lines 271-310)

    [coalesce_cases] is the chain of cases of lines 277-309, taken with
    the three locals [prev_alloc], [next_alloc] and [size] that lines
    273-275 initialise. *)

Definition coalesce_cases (prev_alloc next_alloc : bool) (size bp : Z) : M Z :=
  if prev_alloc && negb next_alloc then
    next <- NEXT_BLKP bp ;;
    nsz <- GET_SIZE (HDRP next) ;;
    let size := wrap (size + nsz) in
    next <- NEXT_BLKP bp ;;
    delete next ;;
    PUT (HDRP bp) (PACK size 0) ;;
    ftr <- FTRP bp ;;
    PUT ftr (PACK size 0) ;;
    add bp ;;
    ret bp
  else if negb prev_alloc && next_alloc then
    prev <- PREV_BLKP bp ;;
    psz <- GET_SIZE (HDRP prev) ;;
    let size := wrap (size + psz) in
    bp <- PREV_BLKP bp ;;
    delete bp ;;
    PUT (HDRP bp) (PACK size 0) ;;
    ftr <- FTRP bp ;;
    PUT ftr (PACK size 0) ;;
    add bp ;;
    ret bp
  else if negb prev_alloc && negb next_alloc then
    prev <- PREV_BLKP bp ;;
    psz <- GET_SIZE (HDRP prev) ;;
    next <- NEXT_BLKP bp ;;
    nsz <- GET_SIZE (HDRP next) ;;
    both <- int_add psz nsz ;;
    let size := wrap (size + both) in
    prev <- PREV_BLKP bp ;;
    delete prev ;;
    next <- NEXT_BLKP bp ;;
    delete next ;;
    bp <- PREV_BLKP bp ;;
    PUT (HDRP bp) (PACK size 0) ;;
    ftr <- FTRP bp ;;
    PUT ftr (PACK size 0) ;;
    add bp ;;
    ret bp
  else
    add bp ;;
    ret bp.

Definition coalesce (bp : Z) : M Z :=
  prev <- PREV_BLKP bp ;;
  pftr <- FTRP prev ;;
  pa <- GET_ALLOC pftr ;;
  next <- NEXT_BLKP bp ;;
  na <- GET_ALLOC (HDRP next) ;;
  sz <- GET_SIZE (HDRP bp) ;;
  coalesce_cases (negb (pa =? 0) || (prev =? bp)) (negb (na =? 0)) (wrap sz) bp.

(** *** extendHeap (lines 241-260) *)

(** Lines 246-249: the byte count asked of the provider, an even number of
    words and at least [MINIMUM]. *)
Definition extend_size (words : Z) : Z :=
  let size := if negb (words mod 2 =? 0)
              then wrap (wrap (words + 1) * WSIZE)
              else wrap (words * WSIZE) in
  if size <? MINIMUM then MINIMUM else size.

Definition extendHeap (words : Z) : M Z :=
  let size := extend_size words in
  bp <- mem_sbrk size ;;
  if bp =? SBRK_FAILED then ret NULL
  else
    PUT (HDRP bp) (PACK size 0) ;;
    ftr <- FTRP bp ;;
    PUT ftr (PACK size 0) ;;
    next <- NEXT_BLKP bp ;;
    PUT (HDRP next) (PACK 0 1) ;;
    coalesce bp.

(** *** findFit (lines 320-330)

    The loop follows [NEXT_FREEP] until it meets a block whose allocated
    bit is set; [fuel] bounds the number of iterations. *)

Fixpoint findFit_loop (fuel : nat) (asize bp : Z) : M Z :=
  match fuel with
  | O => timeout
  | S fuel' =>
      a <- GET_ALLOC (HDRP bp) ;;
      if a =? 0 then
        sz <- GET_SIZE (HDRP bp) ;;
        if asize <=? wrap sz then ret bp
        else next <- NEXT_FREEP bp ;; findFit_loop fuel' asize next
      else ret NULL
  end.

Definition findFit (fuel : nat) (asize : Z) : M Z :=
  bp <- get_free_listp ;; findFit_loop fuel asize bp.

(** *** place (lines 341-374) *)

Definition place (bp asize : Z) : M unit :=
  sz <- GET_SIZE (HDRP bp) ;;
  let csize := wrap sz in
  if MINIMUM <=? wrap (csize - asize) then
    PUT (HDRP bp) (PACK asize 1) ;;
    ftr <- FTRP bp ;;
    PUT ftr (PACK asize 1) ;;
    delete bp ;;
    bp <- NEXT_BLKP bp ;;
    PUT (HDRP bp) (PACK (wrap (csize - asize)) 0) ;;
    ftr <- FTRP bp ;;
    PUT ftr (PACK (wrap (csize - asize)) 0) ;;
    coalesce bp ;;
    ret tt
  else
    PUT (HDRP bp) (PACK csize 1) ;;
    ftr <- FTRP bp ;;
    PUT ftr (PACK csize 1) ;;
    delete bp.

(** *** The public operations (lines 99-232) *)

(** [mm_init] returns the [int] 0 or -1. *)
Definition mm_init : M Z :=
  p <- mem_sbrk (2 * MINIMUM) ;;
  set_heap_listp p ;;
  if p =? NULL then ret (-1)
  else
    PUT p 0 ;;
    PUT (wrap (p + 1 * WSIZE)) (PACK MINIMUM 1) ;;
    PUT (wrap (p + 2 * WSIZE)) 0 ;;
    PUT (wrap (p + 3 * WSIZE)) 0 ;;
    PUT (wrap (p + MINIMUM)) (PACK MINIMUM 1) ;;
    PUT (wrap (p + WSIZE + MINIMUM)) (PACK 0 1) ;;
    set_free_listp (wrap (p + DSIZE)) ;;
    r <- extendHeap CHUNKSIZE_div_WSIZE ;;
    if r =? NULL then ret (-1) else ret 0.

Definition mm_malloc (fuel : nat) (size : Z) : M Z :=
  if size =? 0 then ret NULL
  else
    let asize := MAX (ALIGN size) MINIMUM in
    bp <- findFit fuel asize ;;
    if negb (bp =? NULL) then
      place bp asize ;; ret bp
    else
      let extendsize := MAX asize CHUNKSIZE in
      bp <- extendHeap (extendsize / WSIZE) ;;
      if bp =? NULL then ret NULL
      else place bp asize ;; ret bp.

Definition mm_free (bp : Z) : M unit :=
  if bp =? NULL then ret tt
  else
    sz <- GET_SIZE (HDRP bp) ;;
    let size := wrap sz in
    PUT (HDRP bp) (PACK size 0) ;;
    ftr <- FTRP bp ;;
    PUT ftr (PACK size 0) ;;
    coalesce bp ;;
    ret tt.

Definition mm_realloc (fuel : nat) (bp size : Z) : M Z :=
  if Mach.to_int size <? 0 then ret NULL
  else if Mach.to_int size =? 0 then mm_free bp ;; ret NULL
  else if size >? 0 then
    sz <- GET_SIZE (HDRP bp) ;;
    let oldsize := wrap sz in
    let newsize := wrap (size + 2 * WSIZE) in
    if newsize <=? oldsize then ret bp
    else
      next <- NEXT_BLKP bp ;;
      na <- GET_ALLOC (HDRP next) ;;
      let grow (k : bool -> Z -> M Z) : M Z :=
        if na =? 0 then
          next <- NEXT_BLKP bp ;;
          nsz <- GET_SIZE (HDRP next) ;;
          let csize := wrap (oldsize + nsz) in
          k (newsize <=? csize) csize
        else k false 0 in
      grow (fun fits csize =>
        if fits then
          next <- NEXT_BLKP bp ;;
          delete next ;;
          PUT (HDRP bp) (PACK csize 1) ;;
          ftr <- FTRP bp ;;
          PUT ftr (PACK csize 1) ;;
          ret bp
        else
          new_ptr <- mm_malloc fuel newsize ;;
          place new_ptr newsize ;;
          memcpy new_ptr bp newsize ;;
          mm_free bp ;;
          ret new_ptr)
  else ret NULL.

End Allocator.

(** ** Views of the heap

    The arena as a sequence of blocks and the free list as a list of
    payload addresses; the properties below are stated with them. *)

Section Views.
Context {mach : Machine}.

(** A block of the arena, as the tags describe it: its size in bytes and
    its allocated bit. *)
Definition block : Type := (Z * bool)%type.

(** The [int] stored in the header and in the footer of a block. *)
Definition tag (sz : Z) (al : bool) : Z := sz + (if al then 1 else 0).

(** The payload address of the first block obtained by [extendHeap], and
    the prologue payload, where every free list ends. *)
Definition first_block (s : state) : Z := mem_heap_lo s + 12 * W.
Definition list_end (s : state) : Z := mem_heap_lo s + 2 * W.

(** The bytes the blocks [bl] take, and the bytes of the free ones. *)
Fixpoint total (bl : list block) : Z :=
  match bl with
  | [] => 0
  | (sz, _) :: r => sz + total r
  end.

Fixpoint free_total (bl : list block) : Z :=
  match bl with
  | [] => 0
  | (sz, al) :: r => (if al then 0 else sz) + free_total r
  end.

(** [seg s a bl]: starting at payload address [a], memory holds the
    blocks [bl] one after the other, each with matching header and
    footer. *)
Fixpoint seg (s : state) (a : Z) (bl : list block) : Prop :=
  match bl with
  | [] => True
  | (sz, al) :: r =>
      6 * W <= sz /\ sz mod 8 = 0 /\
      rd_int s (a - W) = tag sz al /\
      rd_int s (a + sz - 2 * W) = tag sz al /\
      seg s (a + sz) r
  end.

(** Addresses of the header and footer words of the blocks. *)
Fixpoint tags (a : Z) (bl : list block) : list Z :=
  match bl with
  | [] => []
  | (sz, _) :: r => (a - W) :: (a + sz - 2 * W) :: tags (a + sz) r
  end.

(** Payload addresses of the free blocks, in address order. *)
Fixpoint free_addrs (a : Z) (bl : list block) : list Z :=
  match bl with
  | [] => []
  | (sz, al) :: r => (if al then [] else [a]) ++ free_addrs (a + sz) r
  end.

(** [arena s bl]: the provider has handed out the bytes up to [mem_brk s],
    the blocks [bl] fill the arena from [first_block s] up to the epilogue
    header, the [int] two words before the first block reads size 0 (this
    is what makes [PREV_BLKP] of the first block the block itself), and the
    prologue header, which ends every walk of the free list, has its
    allocated bit set. *)
Record arena (s : state) (bl : list block) : Prop := {
  ar_lo : 0 < mem_heap_lo s;
  ar_brk : mem_brk s = first_block s + total bl;
  ar_top : mem_brk s < ptr_mod;
  ar_int : mem_brk s - mem_heap_lo s <= Mach.int_max;
  ar_seg : seg s (first_block s) bl;
  ar_epilogue : rd_int s (mem_brk s - W) = tag 0 true;
  ar_pre : Z.land (rd_int s (first_block s - 2 * W)) (Z.lnot 7) = 0;
  ar_prologue : Z.land (rd_int s (list_end s - W)) 1 = 1
}.

(** Every header and footer word the arena relies on: the epilogue, the
    word before the first block, the prologue header and the tags of the
    blocks. *)
Definition arena_tags (s : state) (bl : list block) : list Z :=
  (mem_brk s - W) :: (first_block s - 2 * W) :: (list_end s - W)
    :: tags (first_block s) bl.

(** The block at payload address [b]. *)
Record blk_at (s : state) (b sz : Z) (al : bool) : Prop := {
  ba_min : 6 * W <= sz;
  ba_mod : sz mod 8 = 0;
  ba_lo : first_block s <= b;
  ba_hi : b + sz <= mem_brk s;
  ba_hdr : rd_int s (b - W) = tag sz al;
  ba_ftr : rd_int s (b + sz - 2 * W) = tag sz al
}.

(** Both tags of the block at [b] rewritten. *)
Definition retag (b sz : Z) (al : bool) (s : state) : state :=
  wr_int (b + sz - 2 * W) (tag sz al) (wr_int (b - W) (tag sz al) s).

(** [chain s prev l t]: the nodes [l] are doubly linked in this order,
    the first one has [prev] as its predecessor and the last one has [t] as
    its successor. *)
Fixpoint chain (s : state) (prev : Z) (l : list Z) (t : Z) : Prop :=
  match l with
  | [] => True
  | b :: r =>
      rd_ptr s b = prev /\ rd_ptr s (b + 2 * W) = hd t r /\ chain s b r t
  end.

Definition flist (s : state) (l : list Z) : Prop :=
  free_listp s = hd (list_end s) l /\ chain s NULL l (list_end s).

(** Nodes whose link fields lie in the arena, above the list end, and do
    not overlap. *)
Definition nodes_ok (s : state) (l : list Z) : Prop :=
  0 < mem_heap_lo s /\
  mem_heap_lo s + 3 * W <= mem_brk s /\
  mem_brk s < ptr_mod /\
  (forall x, In x l -> list_end s + W <= x /\ x + 3 * W <= mem_brk s) /\
  (forall x y, In x l -> In y l -> x = y \/ x + 3 * W <= y \/ y + 3 * W <= x).

(** The state after [add(bp)] and after [delete(bp)], where [prev] and
    [next] are the link fields of [bp]. *)
Definition add_st (bp : Z) (s : state) : state :=
  with_free_listp bp
    (wr_ptr bp NULL
       (wr_ptr (free_listp s) bp
          (wr_ptr (bp + 2 * W) (free_listp s) s))).

Definition delete_st (prev next : Z) (s : state) : state :=
  wr_ptr next prev
    (if prev =? 0 then with_free_listp next s
     else wr_ptr (prev + 2 * W) next s).

(** A well-formed heap: the arena is the block sequence [bl], and the
    free list holds exactly its free blocks, in the order [fl]. *)
Record WF (s : state) (bl : list block) (fl : list Z) : Prop := {
  wf_arena : arena s bl;
  wf_flist : flist s fl;
  wf_nodup : NoDup fl;
  wf_free : forall x, In x fl <-> In x (free_addrs (first_block s) bl)
}.

(** The provider's state and [heap_listp] are the same in both states. *)
Definition same_env (s s' : state) : Prop :=
  mem_heap_lo s' = mem_heap_lo s /\ mem_brk s' = mem_brk s /\
  mem_max_addr s' = mem_max_addr s /\ sbrk_log s' = sbrk_log s /\
  heap_listp s' = heap_listp s.

(** The blocks after coalescing the free block of size [szb] that stands
    between the blocks [l1] and [l2]: a free block right before it and a
    free block right after it are merged into it. *)
Definition merge_prev (l1 : list block) : list block * Z :=
  match rev l1 with
  | (szp, false) :: r => (rev r, szp)
  | _ => (l1, 0)
  end.

Definition merge_next (l2 : list block) : Z * list block :=
  match l2 with
  | (szn, false) :: r => (szn, r)
  | _ => (0, l2)
  end.

Definition coalesce_blocks (l1 : list block) (szb : Z) (l2 : list block)
  : list block :=
  fst (merge_prev l1)
    ++ (snd (merge_prev l1) + szb + fst (merge_next l2), false)
    :: snd (merge_next l2).

(** The blocks after [place(bp, asize)] on the free block of size [c]
    that stands between [l1] and [l2]: split when the remainder is at least
    the minimum block size, and the remainder coalesced. *)
Definition place_blocks (l1 : list block) (c : Z) (l2 : list block) (asize : Z)
  : list block :=
  if 6 * W <=? c - asize
  then coalesce_blocks (l1 ++ [(asize, true)]) (c - asize) l2
  else l1 ++ (c, true) :: l2.

End Views.

(** ** The walk of [findFit] and the free bytes *)

Section Walks.
Context {mach : Machine}.

(** [(size_t)GET_SIZE(HDRP(bp))] as a pure read. *)
Definition blk_size (s : state) (bp : Z) : Z :=
  wrap (Z.land (rd_int s (HDRP bp)) (Z.lnot 7)).

(** The blocks met by following [NEXT_FREEP] from [bp] up to the first
    block whose allocated bit is set. *)
Inductive free_walk (s : state) : Z -> list Z -> Prop :=
| walk_stop bp a :
    GET_ALLOC (HDRP bp) s = Done a s -> a <> 0 -> free_walk s bp []
| walk_step bp next l :
    GET_ALLOC (HDRP bp) s = Done 0 s ->
    NEXT_FREEP bp s = Done next s ->
    free_walk s next l ->
    free_walk s bp (bp :: l).

Definition first_fit (s : state) (asize : Z) (l : list Z) : Z :=
  match find (fun bp => asize <=? blk_size s bp) l with
  | Some bp => bp
  | None => NULL
  end.
End Walks.

Section MeasureDefs.
Context {mach : Machine}.

(** The total size of the blocks on the free list, measured by the walk
    [findFit] makes: from [free_listp] along [NEXT_FREEP] up to the first
    block whose allocated bit is set. *)
Fixpoint free_bytes_loop (fuel : nat) (bp acc : Z) : M Z :=
  match fuel with
  | O => timeout
  | S fuel' =>
      a <- GET_ALLOC (HDRP bp) ;;
      if a =? 0 then
        sz <- GET_SIZE (HDRP bp) ;;
        next <- NEXT_FREEP bp ;;
        free_bytes_loop fuel' next (acc + wrap sz)
      else ret acc
  end.

Definition free_bytes (fuel : nat) : M Z :=
  bp <- get_free_listp ;; free_bytes_loop fuel bp 0.

Definition zsum (l : list Z) : Z := fold_right Z.add 0 l.
End MeasureDefs.

(** ** The layout [mm_init] builds *)

Section InitDefs.
Context {mach : Machine}.

(** The byte count of the extension [mm_init] asks for. *)
Definition init_chunk : Z := extend_size CHUNKSIZE_div_WSIZE.

(** The state [mm_init] hands to [extendHeap]: the first [2 * MINIMUM]
    bytes obtained and laid out, [free_listp] set. *)
Definition init_layout (s : state) : state :=
  let p := mem_brk s in
  with_free_listp (p + 2 * W)
    (wr_int (p + 7 * W) (PACK 0 1)
      (wr_int (p + 6 * W) (PACK MINIMUM 1)
        (wr_int (p + 3 * W) 0
          (wr_int (p + 2 * W) 0
            (wr_int (p + W) (PACK MINIMUM 1)
              (wr_int p 0
                (mkState (mem s) (mem_heap_lo s) (p + 12 * W) (mem_max_addr s)
                   (sbrk_log s ++ [12 * W]) p (free_listp s)))))))).
End InitDefs.

(** ** Payloads, adjacency and the block checker *)

Section FrameDefs.
Context {mach : Machine}.

(** [x] is a payload byte of an allocated block of [bl], the blocks being
    laid out from the payload address [a]: it lies between the header and
    the footer of that block. *)
Fixpoint alloc_payload (a : Z) (bl : list block) (x : Z) : Prop :=
  match bl with
  | [] => False
  | (sz, al) :: r =>
      (al = true /\ a <= x < a + sz - 2 * W) \/ alloc_payload (a + sz) r x
  end.

(** The bytes that satisfy [P] hold the same values in both states. *)
Definition keeps (P : Z -> Prop) (s s' : state) : Prop :=
  forall x, P x -> mem s' x = mem s x.

(** The size of the block [place(bp, asize)] marks allocated in a free
    block of size [c]: [asize] when it splits, the whole block otherwise
    (lines 354 and 370). *)
Definition placed_size (c asize : Z) : Z :=
  if 6 * W <=? c - asize then asize else c.

End FrameDefs.

Section AdjacentDefs.

(** Two free blocks stand next to each other somewhere in [bl]. *)
Fixpoint adjacent_free (bl : list block) : bool :=
  match bl with
  | [] => false
  | (_, al) :: r =>
      (negb al && match r with (_, false) :: _ => true | _ => false end)
      || adjacent_free r
  end.

End AdjacentDefs.

Section CheckerDefs.
Context {mach : Machine}.

(** Modelled from the spec: [mem_heap_lo()] and [mem_heap_hi()] of memlib,
    which is not part of the sources.  The spec says they report the lowest
    and the highest valid arena address. *)
Definition get_mem_heap_lo : M Z := fun s => Done (mem_heap_lo s) s.
Definition get_mem_heap_hi : M Z := fun s => Done (mem_brk s - 1) s.

(** The lines [checkblock] prints (lines 510-525), with the values of
    their [%p] arguments. *)
Inductive report : Type :=
| next_out_of_bounds (p : Z)
| prev_out_of_bounds (p : Z)
| not_aligned (bp : Z)
| tags_differ.

(** [p < mem_heap_lo() || p > mem_heap_hi()], where [read] is the macro
    that yields [p]; it is expanded in both operands. *)
Definition out_of_heap (read : M Z) : M bool :=
  p <- read ;;
  lo <- get_mem_heap_lo ;;
  if p <? lo then ret true
  else
    p <- read ;;
    hi <- get_mem_heap_hi ;;
    ret (p >? hi).

(** [checkblock] (lines 507-526); the result lists what it prints. *)
Definition checkblock (bp : Z) : M (list report) :=
  bad <- out_of_heap (NEXT_FREEP bp) ;;
  r1 <- (if bad : bool
         then p <- NEXT_FREEP bp ;; ret [next_out_of_bounds p]
         else ret []) ;;
  bad <- out_of_heap (PREV_FREEP bp) ;;
  r2 <- (if bad : bool
         then p <- PREV_FREEP bp ;; ret [prev_out_of_bounds p]
         else ret []) ;;
  let r3 := if negb (wrap bp mod 8 =? 0) then [not_aligned bp] else [] in
  a <- GET_ALLOC bp ;;
  r4 <- (if a =? 0 then
           h <- GET (HDRP bp) ;;
           ftr <- FTRP bp ;;
           f <- GET ftr ;;
           ret (if negb (h =? f) then [tags_differ] else [])
         else ret []) ;;
  ret (r1 ++ r2 ++ r3 ++ r4).

End CheckerDefs.

(** ** Observations and concrete machines *)

Definition returned {A} (o : outcome state A) : option A :=
  match o with Done a _ => Some a | _ => None end.

Definition final {A} (o : outcome state A) : option state :=
  match o with Done _ s => Some s | _ => None end.

(** The 64-bit machine of the spec's scenarios ([W = 8]). *)
Definition m64 : Machine := {| W := 8; W_ok := or_intror eq_refl |}.

(** A fresh arena of [cap] bytes at address [lo], zero filled, before
    [mm_init]. *)
Definition zero_mem : Z -> Z := fun _ => 0.

Definition fresh (lo cap : Z) : state :=
  mkState zero_mem lo lo (lo + cap) [] 0 0.

(** The arena of memlib: 20 MB, here placed at address 4096. *)
Definition arena20 : state := fresh 4096 (20 * 1024 * 1024).

(** [mm_init(); mm_malloc(26); mm_malloc(1)] *)
Definition script_align : M Z :=
  mm_init (mach := m64) ;;
  mm_malloc (mach := m64) 8 26 ;;
  mm_malloc (mach := m64) 8 1.

(** [mm_init(); a = mm_malloc(1); mm_realloc(a, 100)] on an arena that is
    exhausted by [mm_init]. *)
Definition script_realloc_exhausted : M Z :=
  mm_init (mach := m64) ;;
  a <- mm_malloc (mach := m64) 8 1 ;;
  mm_realloc (mach := m64) 8 a 100.

(** [mm_init(); a = mm_malloc(2^32)], then the header of [a] is read. *)
Definition script_huge : M (Z * Z) :=
  mm_init (mach := m64) ;;
  a <- mm_malloc (mach := m64) 8 (2 ^ 32) ;;
  sz <- GET_SIZE (HDRP (mach := m64) a) ;;
  ret (a, sz).

(** [mm_init(); a = mm_malloc(100)], the client stores all ones in the
    pointer-sized slot at [a + 40] of its payload, [mm_free(a);
    b = mm_malloc(24)]; then the header of the block after [b] is read as
    an [int] and as a word of [W] bytes. *)
Definition script_tag_word : M (Z * Z * Z) :=
  mm_init (mach := m64) ;;
  a <- mm_malloc (mach := m64) 8 100 ;;
  store_ptr (mach := m64) (a + 40) (2 ^ 64 - 1) ;;
  mm_free (mach := m64) a ;;
  b <- mm_malloc (mach := m64) 8 24 ;;
  n <- NEXT_BLKP (mach := m64) b ;;
  i <- load_int (HDRP (mach := m64) n) ;;
  w <- load_ptr (mach := m64) (HDRP (mach := m64) n) ;;
  ret (b, i, w).

(** [mm_init(); a = mm_malloc(150); b = mm_malloc(40);
     a = mm_realloc(a, 200); b = mm_realloc(b, 100)], then the tags of the
    block [b] and of its arena neighbour are read. *)
Definition script_adjacent : M (Z * (Z * Z) * (Z * Z * Z)) :=
  mm_init (mach := m64) ;;
  a <- mm_malloc (mach := m64) 8 150 ;;
  b <- mm_malloc (mach := m64) 8 40 ;;
  a <- mm_realloc (mach := m64) 8 a 200 ;;
  b <- mm_realloc (mach := m64) 8 b 100 ;;
  b_alloc <- GET_ALLOC (HDRP (mach := m64) b) ;;
  b_size <- GET_SIZE (HDRP (mach := m64) b) ;;
  n <- NEXT_BLKP (mach := m64) b ;;
  n_alloc <- GET_ALLOC (HDRP (mach := m64) n) ;;
  n_size <- GET_SIZE (HDRP (mach := m64) n) ;;
  ret (b, (b_alloc, b_size), (n, n_alloc, n_size)).

Definition run_state {A} (m : M A) (s : state) : state :=
  match m s with Done _ s' => s' | _ => s end.

Definition get_sbrk_log : M (list Z) := fun s => Done (sbrk_log s) s.

(** The heap right after [mm_init()] on the 20 MB arena. *)
Definition heap_init : state := run_state (mm_init (mach := m64)) arena20.

(** [mm_init(); mm_malloc(100)]: the block at 4192 is allocated, 128 bytes. *)
Definition heap_one : state :=
  run_state (mm_init (mach := m64) ;; mm_malloc (mach := m64) 8 100) arena20.

(** Four blocks of 128 bytes at 4192, 4320, 4448 and 4576; the first and
    the third freed, and the tags of the second rewritten as free the way
    [mm_free] does before it calls [coalesce]. *)
Definition heap_pbn : state :=
  run_state
    (mm_init (mach := m64) ;;
     a <- mm_malloc (mach := m64) 8 100 ;;
     b <- mm_malloc (mach := m64) 8 100 ;;
     c <- mm_malloc (mach := m64) 8 100 ;;
     d <- mm_malloc (mach := m64) 8 100 ;;
     mm_free (mach := m64) a ;;
     mm_free (mach := m64) c ;;
     sz <- GET_SIZE (HDRP (mach := m64) b) ;;
     PUT (HDRP (mach := m64) b) (PACK sz 0) ;;
     ftr <- FTRP (mach := m64) b ;;
     PUT ftr (PACK sz 0)) arena20.

(** The 20 MB arena with one byte set where nothing writes before the
    first [coalesce] reads: the [int] at [lo + 10W] reads 8. *)
Definition arena_dirty : state := set_mem (upd zero_mem (4096 + 10 * 8) 8) arena20.

(** [mm_init()], then the result and the provider's log. *)
Definition script_init_log : M (Z * list Z) :=
  r <- mm_init (mach := m64) ;;
  l <- get_sbrk_log ;;
  ret (r, l).

(** [p = mm_malloc(100); mm_free(p)], with the free bytes measured before
    and after. *)
Definition script_round_trip : M (Z * Z) :=
  before <- free_bytes (mach := m64) 8 ;;
  p <- mm_malloc (mach := m64) 8 100 ;;
  mm_free (mach := m64) p ;;
  after <- free_bytes (mach := m64) 8 ;;
  ret (before, after).

(** [mm_init(); mm_malloc(100); mm_malloc(100)]: two allocated blocks of
    128 bytes at 4192 and 4320, and the free rest of the arena. *)
Definition heap_two : state :=
  run_state (mm_init (mach := m64) ;; mm_malloc (mach := m64) 8 100 ;;
             mm_malloc (mach := m64) 8 100) arena20.

(** The heap right after [mm_init()] on an arena of 144 bytes, which
    [mm_init] uses up. *)
Definition heap_full : state := run_state (mm_init (mach := m64)) (fresh 4096 144).

(** ** Properties *)

(** ** Bytes *)

Lemma load_bytes_ext (m m' : Z -> Z) (n : nat) : forall a,
  (forall x, a <= x < a + Z.of_nat n -> m' x = m x) ->
  load_bytes m' a n = load_bytes m a n.
Proof.
  induction n as [|n IH]; intros a H; simpl; [reflexivity|].
  rewrite (H a) by lia. rewrite (IH (a + 1)); [reflexivity|].
  intros x Hx. apply H. lia.
Qed.

Lemma store_bytes_out (n : nat) : forall m a v x,
  x < a \/ a + Z.of_nat n <= x -> store_bytes m a n v x = m x.
Proof.
  induction n as [|n IH]; intros m a v x H; simpl; [reflexivity|].
  rewrite IH by lia. unfold upd.
  destruct (x =? a) eqn:E; [apply Z.eqb_eq in E; lia | reflexivity].
Qed.

Lemma load_bytes_range (m : Z -> Z) (n : nat) : forall a,
  0 <= load_bytes m a n < 256 ^ Z.of_nat n.
Proof.
  induction n as [|n IH]; intros a.
  - simpl. lia.
  - cbn [load_bytes]. specialize (IH (a + 1)).
    assert (0 <= m a mod 256 < 256) by (apply Z.mod_pos_bound; lia).
    rewrite Nat2Z.inj_succ, Z.pow_succ_r by lia. lia.
Qed.

Lemma load_store_same (n : nat) : forall m a v,
  0 <= v < 256 ^ Z.of_nat n ->
  load_bytes (store_bytes m a n v) a n = v.
Proof.
  induction n as [|n IH]; intros m a v Hv.
  - simpl in *. lia.
  - cbn [load_bytes store_bytes].
    rewrite Nat2Z.inj_succ, Z.pow_succ_r in Hv by lia.
    rewrite store_bytes_out by lia.
    unfold upd at 1. rewrite Z.eqb_refl.
    rewrite Z.mod_mod by lia.
    rewrite IH.
    + pose proof (Z.div_mod v 256). lia.
    + split; [apply Z.div_pos; lia | apply Z.div_lt_upper_bound; lia].
Qed.

Lemma to_int_mod v : Mach.to_int (v mod 2 ^ 32) = Mach.to_int v.
Proof.
  unfold Mach.to_int. rewrite Z.add_mod_idemp_l by lia. reflexivity.
Qed.

Lemma to_int_small v : - 2 ^ 31 <= v < 2 ^ 31 -> Mach.to_int v = v.
Proof.
  intros H. unfold Mach.to_int. rewrite Z.mod_small; lia.
Qed.

Lemma to_int_range v : - 2 ^ 31 <= Mach.to_int v < 2 ^ 31.
Proof.
  unfold Mach.to_int.
  pose proof (Z.mod_pos_bound (v + 2 ^ 31) (2 ^ 32)). lia.
Qed.

(** ** Bit fields of a tag *)

Lemma land_lnot7 x : Z.land x (Z.lnot 7) = x - x mod 8.
Proof.
  change 7 with (Z.ones 3). rewrite <- Z.ldiff_land, Z.ldiff_ones_r by lia.
  rewrite Z.shiftr_div_pow2, Z.shiftl_mul_pow2 by lia.
  change (2 ^ 3) with 8. pose proof (Z.div_mod x 8). lia.
Qed.

Lemma land_1 x : Z.land x 1 = x mod 2.
Proof. change 1 with (Z.ones 1). rewrite Z.land_ones by lia. reflexivity. Qed.

Lemma lor_1_even x : x mod 2 = 0 -> Z.lor x 1 = x + 1.
Proof.
  intros H. pose proof (Z.add_lor_land x 1) as E.
  rewrite land_1, H in E. lia.
Qed.

Section Cells.
Context {mach : Machine}.

Lemma W_pos : 4 <= W <= 8.
Proof. destruct W_ok; lia. Qed.

Lemma ptr_mod_ge : 2 ^ 32 <= ptr_mod.
Proof. unfold ptr_mod. destruct W_ok as [E|E]; rewrite E; simpl; lia. Qed.

Lemma wrap_small z : 0 <= z < ptr_mod -> wrap z = z.
Proof. intros H. unfold wrap. apply Z.mod_small. exact H. Qed.

Lemma wrap_range z : 0 <= wrap z < ptr_mod.
Proof.
  unfold wrap. apply Z.mod_pos_bound. pose proof ptr_mod_ge. lia.
Qed.

Lemma pow256_W : 256 ^ Z.of_nat (Z.to_nat W) = ptr_mod.
Proof. unfold ptr_mod. destruct W_ok as [E|E]; rewrite E; reflexivity. Qed.

Lemma W_nat : Z.of_nat (Z.to_nat W) = W.
Proof. pose proof W_pos. lia. Qed.

(** *** Reading after writing *)

Lemma rd_int_wr_int_same s a v : rd_int (wr_int a v s) a = Mach.to_int v.
Proof.
  unfold rd_int, wr_int. cbn [mem set_mem]. rewrite load_store_same.
  - apply to_int_mod.
  - change (256 ^ Z.of_nat 4) with (2 ^ 32). apply Z.mod_pos_bound. lia.
Qed.

Lemma rd_ptr_wr_ptr_same s a v : rd_ptr (wr_ptr a v s) a = wrap v.
Proof.
  unfold rd_ptr, wr_ptr. cbn [mem set_mem]. rewrite load_store_same; [reflexivity|].
  rewrite pow256_W. apply wrap_range.
Qed.

Lemma rd_int_wr_int_other s a v a' :
  a' + 4 <= a \/ a + 4 <= a' -> rd_int (wr_int a v s) a' = rd_int s a'.
Proof.
  intros H. unfold rd_int, wr_int. cbn [mem set_mem]. f_equal.
  apply load_bytes_ext. intros x Hx. apply store_bytes_out. lia.
Qed.

Lemma rd_int_wr_ptr_other s a v a' :
  a' + 4 <= a \/ a + W <= a' -> rd_int (wr_ptr a v s) a' = rd_int s a'.
Proof.
  intros H. unfold rd_int, wr_ptr. cbn [mem set_mem]. f_equal.
  apply load_bytes_ext. intros x Hx. apply store_bytes_out.
  rewrite W_nat. lia.
Qed.

Lemma rd_ptr_wr_int_other s a v a' :
  a' + W <= a \/ a + 4 <= a' -> rd_ptr (wr_int a v s) a' = rd_ptr s a'.
Proof.
  intros H. unfold rd_ptr, wr_int. cbn [mem set_mem].
  apply load_bytes_ext. intros x Hx. apply store_bytes_out.
  rewrite W_nat in Hx. lia.
Qed.

Lemma rd_ptr_wr_ptr_other s a v a' :
  a' + W <= a \/ a + W <= a' -> rd_ptr (wr_ptr a v s) a' = rd_ptr s a'.
Proof.
  intros H. unfold rd_ptr, wr_ptr. cbn [mem set_mem].
  apply load_bytes_ext. intros x Hx. apply store_bytes_out.
  rewrite W_nat in *. lia.
Qed.

Lemma rd_ptr_range s a : 0 <= rd_ptr s a < ptr_mod.
Proof. unfold rd_ptr. rewrite <- pow256_W. apply load_bytes_range. Qed.

Lemma rd_int_range s a : - 2 ^ 31 <= rd_int s a < 2 ^ 31.
Proof. apply to_int_range. Qed.

End Cells.

Section Easy.
Context {mach : Machine}.

Lemma bind_Done {A B} (m : M A) (k : A -> M B) s a s' :
  m s = Done a s' -> bind m k s = k a s'.
Proof. intros H. unfold bind. rewrite H. reflexivity. Qed.

Lemma load_int_inv a s v s' :
  load_int a s = Done v s' -> valid s a 4 = true /\ s' = s /\ v = rd_int s a.
Proof.
  unfold load_int. destruct (valid s a 4); [|discriminate].
  intros H. inversion H. auto.
Qed.

Lemma GET_ALLOC_inv p s v s' :
  GET_ALLOC p s = Done v s' ->
  valid s p 4 = true /\ s' = s /\ v = Z.land (rd_int s p) 1.
Proof.
  unfold GET_ALLOC, GET, bind, ret, load_int.
  destruct (valid s p 4); [|discriminate].
  intros H. inversion H. auto.
Qed.

Lemma GET_SIZE_inv p s v s' :
  GET_SIZE p s = Done v s' ->
  valid s p 4 = true /\ s' = s /\ v = Z.land (rd_int s p) (Z.lnot 7).
Proof.
  unfold GET_SIZE, GET, bind, ret, load_int.
  destruct (valid s p 4); [|discriminate].
  intros H. inversion H. auto.
Qed.

Lemma GET_SIZE_ok p s :
  valid s p 4 = true -> GET_SIZE p s = Done (Z.land (rd_int s p) (Z.lnot 7)) s.
Proof.
  intros H. unfold GET_SIZE, GET, bind, ret, load_int. rewrite H. reflexivity.
Qed.

Lemma GET_ALLOC_ok p s :
  valid s p 4 = true -> GET_ALLOC p s = Done (Z.land (rd_int s p) 1) s.
Proof.
  intros H. unfold GET_ALLOC, GET, bind, ret, load_int. rewrite H. reflexivity.
Qed.

Lemma findFit_loop_walk s asize bp l :
  free_walk s bp l ->
  forall fuel, (length l < fuel)%nat ->
  findFit_loop fuel asize bp s = Done (first_fit s asize l) s.
Proof.
  induction 1 as [bp a Ha Hnz | bp next l Ha Hn Hw IH]; intros fuel Hf.
  - destruct fuel as [|fuel]; [simpl in Hf; lia|].
    cbn [findFit_loop]. rewrite (bind_Done _ _ _ _ _ Ha).
    apply Z.eqb_neq in Hnz. rewrite Hnz. reflexivity.
  - destruct fuel as [|fuel]; [simpl in Hf; lia|].
    cbn [findFit_loop]. rewrite (bind_Done _ _ _ _ _ Ha).
    rewrite Z.eqb_refl.
    destruct (GET_ALLOC_inv _ _ _ _ Ha) as (Hv & _ & _).
    rewrite (bind_Done _ _ _ _ _ (GET_SIZE_ok _ _ Hv)).
    unfold first_fit. cbn [find]. fold (blk_size s bp).
    destruct (asize <=? blk_size s bp) eqn:E; [reflexivity|].
    rewrite (bind_Done _ _ _ _ _ Hn).
    apply IH. simpl in Hf. lia.
Qed.


(** C10.  [mm_realloc] rejects a size by the sign of [(int)size]: whenever
    the low 32 bits of [size] read as a negative [int], it returns [NULL]
    and leaves the state as it was, whatever [size] is as a [size_t]. *)
Theorem realloc_negative_int s fuel bp size :
  Mach.to_int size < 0 -> mm_realloc fuel bp size s = Done NULL s.
Proof.
  intros H. unfold mm_realloc. apply Z.ltb_lt in H. rewrite H. reflexivity.
Qed.

(** C8.  When the header of [bp] holds the block size [v], [size > 0] and
    [size + 2W <= v], [mm_realloc(bp, size)] returns [bp] itself and the
    whole state (headers, footers, free list, payload bytes) is unchanged. *)
Theorem realloc_within_block s fuel bp size v :
  GET_SIZE (HDRP bp) s = Done v s ->
  0 < size ->
  size + 2 * W <= v ->
  mm_realloc fuel bp size s = Done bp s.
Proof.
  intros Hv Hpos Hle.
  destruct (GET_SIZE_inv _ _ _ _ Hv) as (_ & _ & Ev).
  assert (Hr : v < 2 ^ 31).
  { rewrite Ev, land_lnot7.
    pose proof (rd_int_range s (HDRP bp)).
    pose proof (Z.mod_pos_bound (rd_int s (HDRP bp)) 8). lia. }
  pose proof W_pos as HWp. pose proof ptr_mod_ge as Hp.
  unfold mm_realloc.
  rewrite to_int_small by lia.
  replace (size <? 0) with false by (symmetry; apply Z.ltb_ge; lia).
  replace (size =? 0) with false by (symmetry; apply Z.eqb_neq; lia).
  replace (size >? 0) with true by (symmetry; apply Z.gtb_lt; lia).
  rewrite (bind_Done _ _ _ _ _ Hv).
  unfold WSIZE. rewrite !wrap_small by lia.
  replace (size + 2 * W <=? v) with true by (symmetry; apply Z.leb_le; lia).
  reflexivity.
Qed.

End Easy.

(** Unfolding one step of the views. *)
Ltac unf := cbn [seg total free_total tags free_addrs chain In app hd] in *.
Ltac unf_goal := cbn [seg total free_total tags free_addrs chain In app].

Section Geometry.
Context {mach : Machine}.

Lemma total_app l1 l2 : total (l1 ++ l2) = total l1 + total l2.
Proof.
  induction l1 as [|[sz al] l1 IH]; unf_goal; [reflexivity|]. rewrite IH. lia.
Qed.

Lemma free_total_app l1 l2 :
  free_total (l1 ++ l2) = free_total l1 + free_total l2.
Proof.
  induction l1 as [|[sz al] l1 IH]; unf_goal; [reflexivity|]. rewrite IH. lia.
Qed.

Lemma seg_app s l1 : forall a l2,
  seg s a (l1 ++ l2) <-> seg s a l1 /\ seg s (a + total l1) l2.
Proof.
  induction l1 as [|[sz al] l1 IH]; intros a l2; unf_goal.
  - rewrite Z.add_0_r. tauto.
  - rewrite IH. replace (a + sz + total l1) with (a + (sz + total l1)) by lia.
    tauto.
Qed.

Lemma tags_app l1 : forall a l2,
  tags a (l1 ++ l2) = tags a l1 ++ tags (a + total l1) l2.
Proof.
  induction l1 as [|[sz al] l1 IH]; intros a l2; unf_goal.
  - rewrite Z.add_0_r. reflexivity.
  - rewrite IH. replace (a + sz + total l1) with (a + (sz + total l1)) by lia.
    reflexivity.
Qed.

Lemma free_addrs_app l1 : forall a l2,
  free_addrs a (l1 ++ l2) = free_addrs a l1 ++ free_addrs (a + total l1) l2.
Proof.
  induction l1 as [|[sz al] l1 IH]; intros a l2; unf_goal.
  - rewrite Z.add_0_r. reflexivity.
  - rewrite IH, app_assoc.
    replace (a + sz + total l1) with (a + (sz + total l1)) by lia.
    reflexivity.
Qed.

Lemma seg_total_nonneg s bl : forall a, seg s a bl -> 0 <= total bl.
Proof.
  pose proof W_pos as HWp.
  induction bl as [|[sz al] bl IH]; intros a H; unf; [lia|].
  destruct H as (? & _ & _ & _ & H). specialize (IH _ H). lia.
Qed.

Lemma free_total_bounds s bl : forall a,
  seg s a bl -> 0 <= free_total bl <= total bl.
Proof.
  pose proof W_pos as HWp.
  induction bl as [|[sz al] bl IH]; intros a H; unf; [lia|].
  destruct H as (? & _ & _ & _ & H). specialize (IH _ H).
  destruct al; lia.
Qed.

Lemma seg_free_bounds s bl : forall a x,
  seg s a bl -> In x (free_addrs a bl) ->
  a <= x /\ x + 6 * W <= a + total bl.
Proof.
  pose proof W_pos as HWp.
  induction bl as [|[sz al] bl IH]; intros a x H Hx; unf; [tauto|].
  destruct H as (? & _ & _ & _ & H).
  pose proof (seg_total_nonneg _ _ _ H).
  apply in_app_or in Hx. destruct Hx as [Hx|Hx].
  - destruct al; cbn [In] in Hx; [tauto|]. destruct Hx as [<-|[]]. lia.
  - specialize (IH _ _ H Hx). lia.
Qed.

Lemma seg_tags_bounds s bl : forall a t,
  seg s a bl -> In t (tags a bl) ->
  a - W <= t /\ t + 2 * W <= a + total bl /\ (t - a) mod 4 = 0.
Proof.
  pose proof W_pos as HWp.
  induction bl as [|[sz al] bl IH]; intros a t H Ht; unf; [tauto|].
  destruct H as (? & Hm & _ & _ & H).
  pose proof (seg_total_nonneg _ _ _ H).
  destruct Ht as [<-|[<-|Ht]].
  - destruct W_ok as [E|E]; rewrite E in *; repeat split; try lia.
    all: Z.div_mod_to_equations; lia.
  - destruct W_ok as [E|E]; rewrite E in *; repeat split; try lia.
    all: Z.div_mod_to_equations; lia.
  - specialize (IH _ _ H Ht). destruct W_ok as [E|E]; rewrite E in *;
      repeat split; try lia; Z.div_mod_to_equations; lia.
Qed.

End Geometry.


Section Geometry2.
Context {mach : Machine}.

Lemma in_hd_free (al : bool) (a x : Z) :
  In x (if al then [] else [a]) -> x = a /\ al = false.
Proof. destruct al; cbn [In]; intuition. Qed.

Lemma seg_frame s s' bl : forall a,
  seg s a bl ->
  (forall t, In t (tags a bl) -> rd_int s' t = rd_int s t) ->
  seg s' a bl.
Proof.
  induction bl as [|[sz al] bl IH]; intros a H Hf; unf; [exact I|].
  destruct H as (H1 & H2 & H3 & H4 & H5).
  rewrite !Hf by auto. repeat split; auto.
Qed.

Lemma seg_tag_free_disjoint s bl : forall a t x,
  seg s a bl -> In t (tags a bl) -> In x (free_addrs a bl) ->
  t + 4 <= x \/ x + 3 * W <= t.
Proof.
  pose proof W_pos as HWp.
  induction bl as [|[sz al] bl IH]; intros a t x H Ht Hx; unf; [tauto|].
  destruct H as (H1 & H2 & H3 & H4 & H5).
  apply in_app_or in Hx.
  destruct Ht as [<-|[<-|Ht]]; destruct Hx as [Hx|Hx].
  - destruct (in_hd_free _ _ _ Hx) as [-> _]. lia.
  - pose proof (seg_free_bounds _ _ _ _ H5 Hx). lia.
  - destruct (in_hd_free _ _ _ Hx) as [-> _]. lia.
  - pose proof (seg_free_bounds _ _ _ _ H5 Hx). lia.
  - destruct (in_hd_free _ _ _ Hx) as [-> _].
    pose proof (seg_tags_bounds _ _ _ _ H5 Ht). lia.
  - eauto.
Qed.

Lemma seg_free_apart s bl : forall a x y,
  seg s a bl -> In x (free_addrs a bl) -> In y (free_addrs a bl) ->
  x = y \/ x + 6 * W <= y \/ y + 6 * W <= x.
Proof.
  pose proof W_pos as HWp.
  induction bl as [|[sz al] bl IH]; intros a x y H Hx Hy; unf; [tauto|].
  destruct H as (H1 & H2 & H3 & H4 & H5).
  apply in_app_or in Hx. apply in_app_or in Hy.
  destruct Hx as [Hx|Hx]; destruct Hy as [Hy|Hy].
  - destruct (in_hd_free _ _ _ Hx) as [-> _].
    destruct (in_hd_free _ _ _ Hy) as [-> _]. auto.
  - destruct (in_hd_free _ _ _ Hx) as [-> _].
    pose proof (seg_free_bounds _ _ _ _ H5 Hy). lia.
  - destruct (in_hd_free _ _ _ Hy) as [-> _].
    pose proof (seg_free_bounds _ _ _ _ H5 Hx). lia.
  - eauto.
Qed.

Lemma free_addrs_NoDup s bl : forall a, seg s a bl -> NoDup (free_addrs a bl).
Proof.
  pose proof W_pos as HWp.
  induction bl as [|[sz al] bl IH]; intros a H; unf; [constructor|].
  destruct H as (H1 & H2 & H3 & H4 & H5).
  destruct al; cbn [app]; [eauto|].
  constructor; [|eauto].
  intros Hin. pose proof (seg_free_bounds _ _ _ _ H5 Hin). lia.
Qed.

Lemma free_addrs_split bl : forall a x,
  In x (free_addrs a bl) ->
  exists l1 sz l2, bl = l1 ++ (sz, false) :: l2 /\ x = a + total l1.
Proof.
  induction bl as [|[sz al] bl IH]; intros a x Hx; unf; [tauto|].
  apply in_app_or in Hx. destruct Hx as [Hx|Hx].
  - destruct al; cbn [In] in Hx; [tauto|]. destruct Hx as [<-|[]].
    exists [], sz, bl. split; [reflexivity|]. cbn [total]. lia.
  - destruct (IH _ _ Hx) as (l1 & sz' & l2 & -> & ->).
    exists ((sz, al) :: l1), sz', l2. split; [reflexivity|]. cbn [total]. lia.
Qed.

Lemma free_addrs_mid l1 sz l2 a :
  In (a + total l1) (free_addrs a (l1 ++ (sz, false) :: l2)).
Proof.
  rewrite free_addrs_app. apply in_or_app. right. unf. left. reflexivity.
Qed.

Lemma free_nodes_ok s bl fl :
  arena s bl ->
  (forall x, In x fl -> In x (free_addrs (first_block s) bl)) ->
  nodes_ok s fl.
Proof.
  pose proof W_pos as HWp.
  intros Ha Hin.
  pose proof (ar_lo _ _ Ha). pose proof (ar_brk _ _ Ha).
  pose proof (ar_top _ _ Ha).
  pose proof (seg_total_nonneg _ _ _ (ar_seg _ _ Ha)).
  unfold nodes_ok, list_end, first_block in *.
  repeat split; try lia.
  - apply Hin in H3.
    pose proof (seg_free_bounds _ _ _ _ (ar_seg _ _ Ha) H3).
    unfold first_block in *. lia.
  - apply Hin in H3.
    pose proof (seg_free_bounds _ _ _ _ (ar_seg _ _ Ha) H3).
    unfold first_block in *. lia.
  - intros x y Hx Hy. apply Hin in Hx. apply Hin in Hy.
    pose proof (seg_free_apart _ _ _ _ _ (ar_seg _ _ Ha) Hx Hy). lia.
Qed.

End Geometry2.

Section Fields.
Context {mach : Machine}.

Lemma lo_wr_int a v s : mem_heap_lo (wr_int a v s) = mem_heap_lo s.
Proof. reflexivity. Qed.
Lemma lo_wr_ptr a v s : mem_heap_lo (wr_ptr a v s) = mem_heap_lo s.
Proof. reflexivity. Qed.
Lemma lo_with_fl p s : mem_heap_lo (with_free_listp p s) = mem_heap_lo s.
Proof. reflexivity. Qed.
Lemma brk_wr_int a v s : mem_brk (wr_int a v s) = mem_brk s.
Proof. reflexivity. Qed.
Lemma brk_wr_ptr a v s : mem_brk (wr_ptr a v s) = mem_brk s.
Proof. reflexivity. Qed.
Lemma brk_with_fl p s : mem_brk (with_free_listp p s) = mem_brk s.
Proof. reflexivity. Qed.
Lemma fl_wr_int a v s : free_listp (wr_int a v s) = free_listp s.
Proof. reflexivity. Qed.
Lemma fl_wr_ptr a v s : free_listp (wr_ptr a v s) = free_listp s.
Proof. reflexivity. Qed.
Lemma fl_with_fl p s : free_listp (with_free_listp p s) = p.
Proof. reflexivity. Qed.
Lemma log_wr_int a v s : sbrk_log (wr_int a v s) = sbrk_log s.
Proof. reflexivity. Qed.
Lemma log_wr_ptr a v s : sbrk_log (wr_ptr a v s) = sbrk_log s.
Proof. reflexivity. Qed.
Lemma log_with_fl p s : sbrk_log (with_free_listp p s) = sbrk_log s.
Proof. reflexivity. Qed.
Lemma rd_int_with_fl p s a : rd_int (with_free_listp p s) a = rd_int s a.
Proof. reflexivity. Qed.
Lemma rd_ptr_with_fl p s a : rd_ptr (with_free_listp p s) a = rd_ptr s a.
Proof. reflexivity. Qed.
Lemma valid_wr_int a v s x n : valid (wr_int a v s) x n = valid s x n.
Proof. reflexivity. Qed.
Lemma valid_wr_ptr a v s x n : valid (wr_ptr a v s) x n = valid s x n.
Proof. reflexivity. Qed.
Lemma valid_with_fl p s x n : valid (with_free_listp p s) x n = valid s x n.
Proof. reflexivity. Qed.
Lemma first_block_wr_int a v s : first_block (wr_int a v s) = first_block s.
Proof. reflexivity. Qed.
Lemma first_block_wr_ptr a v s : first_block (wr_ptr a v s) = first_block s.
Proof. reflexivity. Qed.
Lemma first_block_with_fl p s : first_block (with_free_listp p s) = first_block s.
Proof. reflexivity. Qed.
Lemma list_end_wr_int a v s : list_end (wr_int a v s) = list_end s.
Proof. reflexivity. Qed.
Lemma list_end_wr_ptr a v s : list_end (wr_ptr a v s) = list_end s.
Proof. reflexivity. Qed.
Lemma list_end_with_fl p s : list_end (with_free_listp p s) = list_end s.
Proof. reflexivity. Qed.

Lemma valid_true s a n :
  mem_heap_lo s <= a -> a + n <= mem_brk s -> valid s a n = true.
Proof.
  intros H1 H2. unfold valid. apply andb_true_intro.
  split; apply Z.leb_le; assumption.
Qed.

End Fields.

Create Rewrite HintDb st.
#[export] Hint Rewrite
  @lo_wr_int @lo_wr_ptr @lo_with_fl @brk_wr_int @brk_wr_ptr @brk_with_fl
  @fl_wr_int @fl_wr_ptr @fl_with_fl @log_wr_int @log_wr_ptr @log_with_fl
  @rd_int_with_fl @rd_ptr_with_fl @valid_wr_int @valid_wr_ptr @valid_with_fl
  @first_block_wr_int @first_block_wr_ptr @first_block_with_fl
  @list_end_wr_int @list_end_wr_ptr @list_end_with_fl : st.

Section Chains.
Context {mach : Machine}.

Lemma chain_frame s s' l : forall p t,
  chain s p l t ->
  (forall x, In x l ->
     rd_ptr s' x = rd_ptr s x /\ rd_ptr s' (x + 2 * W) = rd_ptr s (x + 2 * W)) ->
  chain s' p l t.
Proof.
  induction l as [|b l IH]; intros p t H Hf; unf; [exact I|].
  destruct H as (H1 & H2 & H3).
  destruct (Hf b (or_introl eq_refl)) as [E1 E2].
  rewrite E1, E2. repeat split; auto.
Qed.

(** A pointer write away from the link fields of every node. *)
Lemma chain_wr_ptr_away s l p t c v :
  chain s p l t ->
  (forall x, In x l -> x + 3 * W <= c \/ c + W <= x) ->
  chain (wr_ptr c v s) p l t.
Proof.
  pose proof W_pos as HWp.
  intros H Hd. apply (chain_frame s); [exact H|].
  intros x Hx. specialize (Hd x Hx).
  split; apply rd_ptr_wr_ptr_other; auto; lia.
Qed.

(** A tag write away from the link fields of every node. *)
Lemma chain_wr_int_away s l p t c v :
  chain s p l t ->
  (forall x, In x l -> x + 3 * W <= c \/ c + 4 <= x) ->
  chain (wr_int c v s) p l t.
Proof.
  pose proof W_pos as HWp.
  intros H Hd. apply (chain_frame s); [exact H|].
  intros x Hx. specialize (Hd x Hx).
  split; apply rd_ptr_wr_int_other; auto; lia.
Qed.

Lemma chain_with_fl s l p t q : chain s p l t -> chain (with_free_listp q s) p l t.
Proof.
  intros H. apply (chain_frame s); [exact H|]. intros. split; reflexivity.
Qed.

Lemma hd_app_default (t : Z) l1 l2 : hd t (l1 ++ l2) = hd (hd t l2) l1.
Proof. destruct l1; reflexivity. Qed.

Lemma last_cons_default (l : list Z) : forall b p, last (b :: l) p = last l b.
Proof.
  induction l as [|x l IH]; intros b p; [reflexivity|].
  change (last (b :: x :: l) p) with (last (x :: l) p).
  rewrite (IH x p), (IH x b). reflexivity.
Qed.

Lemma chain_app s l1 : forall p l2 t,
  chain s p (l1 ++ l2) t <->
  chain s p l1 (hd t l2) /\ chain s (last l1 p) l2 t.
Proof.
  induction l1 as [|b l1 IH]; intros p l2 t.
  - cbn [app chain last]. tauto.
  - cbn [app chain]. rewrite IH, hd_app_default, last_cons_default. tauto.
Qed.

End Chains.

Section ListOps.
Context {mach : Machine}.

Lemma store_ptr_ok s a v :
  valid s a W = true -> store_ptr a v s = Done tt (wr_ptr a v s).
Proof. intros H. unfold store_ptr. rewrite H. reflexivity. Qed.

Lemma load_ptr_ok s a :
  valid s a W = true -> load_ptr a s = Done (rd_ptr s a) s.
Proof. intros H. unfold load_ptr. rewrite H. reflexivity. Qed.

Lemma store_int_ok s a v :
  valid s a 4 = true -> store_int a v s = Done tt (wr_int a v s).
Proof. intros H. unfold store_int. rewrite H. reflexivity. Qed.

(** *** Running [add] and [delete] *)

Lemma add_run s b :
  0 <= b -> b + 2 * W < ptr_mod ->
  valid s b W = true ->
  valid s (b + 2 * W) W = true ->
  valid s (free_listp s) W = true ->
  add b s = Done tt (add_st b s).
Proof.
  pose proof W_pos as HWp.
  intros Hb0 Hb1 V1 V2 V3.
  unfold add, add_st, set_NEXT_FREEP, set_PREV_FREEP, get_free_listp,
    set_free_listp, DSIZE, WSIZE, bind.
  rewrite wrap_small by lia.
  rewrite store_ptr_ok by assumption.
  rewrite store_ptr_ok by (autorewrite with st; assumption).
  rewrite store_ptr_ok by (autorewrite with st; assumption).
  reflexivity.
Qed.

Lemma delete_run s b :
  let prev := rd_ptr s b in
  let next := rd_ptr s (b + 2 * W) in
  0 <= b -> b + 2 * W < ptr_mod ->
  valid s b W = true ->
  valid s (b + 2 * W) W = true ->
  valid s next W = true ->
  (prev = 0 \/
   (valid s (prev + 2 * W) W = true /\ prev + 2 * W < ptr_mod /\
    (prev + 3 * W <= b \/ b + 3 * W <= prev))) ->
  delete b s = Done tt (delete_st prev next s).
Proof.
  pose proof W_pos as HWp.
  intros prev next Hb0 Hb1 V1 V2 V3 Hp.
  unfold delete, delete_st, NEXT_FREEP, PREV_FREEP, set_NEXT_FREEP,
    set_PREV_FREEP, set_free_listp, DSIZE, WSIZE, bind.
  rewrite (wrap_small (b + 2 * W)) by lia.
  rewrite (load_ptr_ok s b) by assumption. fold prev.
  destruct (prev =? 0) eqn:E; cbn [negb].
  - rewrite (load_ptr_ok s (b + 2 * W)) by assumption. fold next.
    rewrite load_ptr_ok by (autorewrite with st; assumption).
    rewrite load_ptr_ok by (autorewrite with st; assumption).
    rewrite store_ptr_ok by (autorewrite with st; assumption).
    autorewrite with st. reflexivity.
  - apply Z.eqb_neq in E.
    destruct Hp as [Hp|(V4 & Hp1 & Hp2)]; [contradiction|].
    pose proof (rd_ptr_range s b) as Hr. fold prev in Hr.
    rewrite (load_ptr_ok s (b + 2 * W)) by assumption. fold next.
    rewrite (wrap_small (prev + 2 * W)) by lia.
    rewrite store_ptr_ok by assumption.
    rewrite load_ptr_ok by (autorewrite with st; assumption).
    rewrite load_ptr_ok by (autorewrite with st; assumption).
    rewrite !rd_ptr_wr_ptr_other by (auto; lia).
    fold prev next.
    rewrite store_ptr_ok by (autorewrite with st; assumption).
    reflexivity.
Qed.

End ListOps.

Lemma NoDup_app_disjoint {A} (l1 l2 : list A) x :
  NoDup (l1 ++ l2) -> In x l1 -> In x l2 -> False.
Proof.
  induction l1 as [|a l1 IH]; intros Hn H1 H2; [destruct H1|].
  cbn [app] in Hn. inversion Hn as [|? ? Hna Hn']; subst.
  destruct H1 as [->|H1].
  - apply Hna. apply in_or_app. right. exact H2.
  - exact (IH Hn' H1 H2).
Qed.

Lemma hd_nonempty {A} (d1 d2 : A) l : l <> [] -> hd d1 l = hd d2 l.
Proof. destruct l; [congruence|reflexivity]. Qed.

Lemma exists_last_or_nil {A} (l : list A) :
  l = [] \/ exists l' q, l = l' ++ [q].
Proof.
  destruct l as [|a l]; [left; reflexivity|right].
  destruct (@exists_last A (a :: l)) as (l' & q & E); [discriminate|].
  exists l', q. exact E.
Qed.

Section ListSpecs.
Context {mach : Machine}.

Lemma nodes_ok_in s l x :
  nodes_ok s l -> In x l ->
  0 < x /\ x + 3 * W < ptr_mod /\
  valid s x W = true /\ valid s (x + 2 * W) W = true.
Proof.
  pose proof W_pos as HWp.
  intros (H1 & H2 & H3 & H4 & H5) Hx. specialize (H4 x Hx).
  unfold list_end in H4.
  repeat split; try lia; apply valid_true; lia.
Qed.

Lemma nodes_ok_end s l :
  nodes_ok s l ->
  0 < list_end s /\ list_end s + W < ptr_mod /\ valid s (list_end s) W = true.
Proof.
  pose proof W_pos as HWp.
  intros (H1 & H2 & H3 & H4 & H5). unfold list_end.
  repeat split; try lia; apply valid_true; lia.
Qed.

Lemma nodes_ok_sep s l x y :
  nodes_ok s l -> In x l -> In y l -> x <> y ->
  x + 3 * W <= y \/ y + 3 * W <= x.
Proof.
  intros (H1 & H2 & H3 & H4 & H5) Hx Hy Hne.
  destruct (H5 x y Hx Hy) as [E|E]; [contradiction|exact E].
Qed.

Lemma nodes_ok_above s l x :
  nodes_ok s l -> In x l -> list_end s + W <= x.
Proof. intros (H1 & H2 & H3 & H4 & H5) Hx. apply (H4 x Hx). Qed.

Lemma nodes_ok_incl s l l' :
  nodes_ok s l -> (forall x, In x l' -> In x l) -> nodes_ok s l'.
Proof.
  intros (H1 & H2 & H3 & H4 & H5) Hi. repeat split; auto.
  - apply (H4 x); auto.
  - apply (H4 x); auto.
Qed.

(** The head of a list (or the list end) is a valid link target. *)
Lemma nodes_ok_hd s l :
  nodes_ok s l ->
  let h := hd (list_end s) l in
  0 < h /\ h + W < ptr_mod /\ valid s h W = true /\
  (h = list_end s \/ In h l).
Proof.
  pose proof W_pos as HWp.
  intros Hn h. destruct l as [|x l]; cbn [hd] in h; subst h.
  - destruct (nodes_ok_end _ _ Hn) as (? & ? & ?). auto.
  - destruct (nodes_ok_in _ _ x Hn (or_introl eq_refl)) as (? & ? & ? & ?).
    repeat split; auto; try lia. right. left. reflexivity.
Qed.

(** *** [add] puts a node in front *)

Lemma flist_add s fl b :
  flist s fl -> nodes_ok s (b :: fl) -> NoDup (b :: fl) ->
  add b s = Done tt (add_st b s) /\ flist (add_st b s) (b :: fl).
Proof.
  pose proof W_pos as HWp.
  intros [Hh Hc] Hn Hd.
  assert (Hn' : nodes_ok s fl) by (apply (nodes_ok_incl _ _ _ Hn); cbn [In]; auto).
  destruct (nodes_ok_in _ _ b Hn (or_introl eq_refl)) as (Hb0 & Hb1 & Vb1 & Vb2).
  destruct (nodes_ok_hd _ _ Hn') as (Hh0 & Hh1 & Vh & Hhin).
  rewrite <- Hh in Hh0, Hh1, Vh, Hhin.
  assert (Hsep : free_listp s + W <= b \/ b + 3 * W <= free_listp s).
  { destruct Hhin as [E|Hin].
    - rewrite E. left. apply (nodes_ok_above _ _ _ Hn). left. reflexivity.
    - pose proof (proj1 (NoDup_cons_iff b fl) Hd) as [Hnotin _].
      assert (b <> free_listp s) by (intros ->; contradiction).
      destruct (nodes_ok_sep _ _ b (free_listp s) Hn) as [?|?];
        cbn [In]; auto; lia. }
  split; [apply add_run; auto; lia|].
  unfold flist, add_st. autorewrite with st. split; [reflexivity|].
  apply chain_with_fl. cbn [chain hd]. repeat split.
  - rewrite rd_ptr_wr_ptr_same by assumption. apply wrap_small.
    unfold NULL. pose proof ptr_mod_ge. lia.
  - rewrite !rd_ptr_wr_ptr_other by (auto; lia).
    rewrite rd_ptr_wr_ptr_same by assumption.
    rewrite wrap_small by lia. exact Hh.
  - destruct fl as [|h r]; [exact I|]. cbn [hd] in Hh. rewrite Hh in *.
    destruct Hc as (Hc1 & Hc2 & Hc3).
    assert (Hbh : b + 3 * W <= h \/ h + 3 * W <= b).
    { pose proof (proj1 (NoDup_cons_iff b (h :: r)) Hd) as [Hnotin _].
      assert (b <> h) by (intros ->; apply Hnotin; left; reflexivity).
      apply (nodes_ok_sep _ _ b h Hn); cbn [In]; auto. }
    cbn [chain]. repeat split.
    + rewrite rd_ptr_wr_ptr_other by (auto; lia).
      rewrite rd_ptr_wr_ptr_same by assumption. apply wrap_small. lia.
    + rewrite !rd_ptr_wr_ptr_other by (auto; lia). exact Hc2.
    + pose proof (proj1 (NoDup_cons_iff b (h :: r)) Hd) as [Hnb Hd'].
      pose proof (proj1 (NoDup_cons_iff h r) Hd') as [Hnh _].
      repeat apply chain_wr_ptr_away; [exact Hc3| | |]; intros x Hx.
      * assert (x <> b) by (intros ->; apply Hnb; right; exact Hx).
        destruct (nodes_ok_sep _ _ x b Hn); cbn [In]; auto; lia.
      * assert (x <> h) by (intros ->; contradiction).
        destruct (nodes_ok_sep _ _ x h Hn); cbn [In]; auto; lia.
      * assert (x <> b) by (intros ->; apply Hnb; right; exact Hx).
        destruct (nodes_ok_sep _ _ x b Hn); cbn [In]; auto; lia.
Qed.

End ListSpecs.

Section DeleteSpec.
Context {mach : Machine}.

(** Relinking the successor: the nodes after the deleted one. *)
Lemma chain_relink_tail s l2 b q n t :
  chain s b l2 t ->
  n = hd t l2 ->
  0 <= q < ptr_mod ->
  (forall x, In x l2 -> x = n \/ x + 3 * W <= n \/ n + W <= x) ->
  NoDup l2 ->
  chain (wr_ptr n q s) q l2 t.
Proof.
  pose proof W_pos as HWp.
  intros Hc -> Hq Hsep Hnd.
  destruct l2 as [|n r]; [exact I|]. cbn [hd] in *.
  destruct Hc as (_ & Hc2 & Hc3).
  pose proof (proj1 (NoDup_cons_iff n r) Hnd) as [Hnn _].
  cbn [chain]. repeat split.
  - rewrite rd_ptr_wr_ptr_same by assumption. apply wrap_small. exact Hq.
  - rewrite !rd_ptr_wr_ptr_other by (auto; lia). exact Hc2.
  - apply chain_wr_ptr_away; [exact Hc3|]; intros x Hx.
    destruct (Hsep x (or_intror Hx)) as [->|E]; [contradiction|lia].
Qed.

Lemma flist_delete s l1 b l2 :
  flist s (l1 ++ b :: l2) ->
  nodes_ok s (l1 ++ b :: l2) ->
  NoDup (l1 ++ b :: l2) ->
  let p := last l1 0 in
  let n := hd (list_end s) l2 in
  rd_ptr s b = p /\ rd_ptr s (b + 2 * W) = n /\
  (p = 0 \/ In p l1) /\ (n = list_end s \/ In n l2) /\
  delete b s = Done tt (delete_st p n s) /\
  flist (delete_st p n s) (l1 ++ l2).
Proof.
  pose proof W_pos as HWp. pose proof ptr_mod_ge as Hpm.
  intros [Hh Hc] Hn Hd p n.
  set (L := l1 ++ b :: l2) in *.
  assert (Hb : In b L) by (apply in_or_app; right; left; reflexivity).
  assert (Hl1 : forall x, In x l1 -> In x L) by (intros; apply in_or_app; auto).
  assert (Hl2 : forall x, In x l2 -> In x L)
    by (intros; apply in_or_app; right; right; auto).
  destruct (nodes_ok_in _ _ b Hn Hb) as (Hb0 & Hb1 & Vb1 & Vb2).
  apply chain_app in Hc. destruct Hc as [Hc1 Hc2]. cbn [hd] in Hc1.
  destruct Hc2 as (Eb1 & Eb2 & Hc2). unfold NULL in *.
  fold p in Eb1. fold n in Eb2.
  pose proof (delete_run s b) as Hrun. cbv zeta in Hrun.
  rewrite Eb1, Eb2 in Hrun.
  assert (Hnn : 0 < n /\ n + W < ptr_mod /\ valid s n W = true /\
                (n = list_end s \/ In n l2)).
  { apply nodes_ok_hd. apply (nodes_ok_incl _ _ _ Hn Hl2). }
  destruct Hnn as (Hn0 & Hn1 & Vn & Hnin).
  assert (Hnb : b + 3 * W <= n \/ n + W <= b).
  { destruct Hnin as [E|Hin].
    - right. rewrite E. apply (nodes_ok_above _ _ _ Hn Hb).
    - assert (b <> n).
      { intros ->. apply (NoDup_remove_2 _ _ _ Hd). apply in_or_app. auto. }
      destruct (nodes_ok_sep _ _ b n Hn); auto; lia. }
  assert (Hnd2 : NoDup l2).
  { apply NoDup_app_remove_l in Hd. apply NoDup_cons_iff in Hd. tauto. }
  assert (Hsep2 : forall x, In x l2 -> x = n \/ x + 3 * W <= n \/ n + W <= x).
  { intros x Hx. destruct Hnin as [E|Hin].
    - right. right. rewrite E. apply (nodes_ok_above _ _ _ Hn). auto.
    - destruct (Z.eq_dec x n) as [?|Hne]; [auto|].
      destruct (nodes_ok_sep _ _ x n Hn); auto; lia. }
  destruct (exists_last_or_nil l1) as [E1|(l1' & q & E1)].
  - (* the deleted node is the head *)
    subst l1. cbn [last] in p. subst p. cbn [app] in *.
    split; [|split; [|split; [|split; [|split]]]]; auto.
    + apply Hrun; auto; lia.
    + unfold flist, delete_st. cbn [Z.eqb]. autorewrite with st.
      split; [reflexivity|].
      apply (chain_relink_tail _ l2 b 0 n (list_end s)); auto; try lia.
      apply chain_with_fl. exact Hc2.
  - (* the deleted node has a predecessor *)
    subst l1. unfold p in *. clear p. rewrite last_last in *.
    assert (Hq : In q L) by (apply Hl1, in_or_app; right; left; reflexivity).
    destruct (nodes_ok_in _ _ q Hn Hq) as (Hq0 & Hq1 & Vq1 & Vq2).
    assert (Hqb : q + 3 * W <= b \/ b + 3 * W <= q).
    { assert (q <> b).
      { intros ->. apply (NoDup_remove_2 _ _ _ Hd). apply in_or_app. left.
        apply in_or_app. right. left. reflexivity. }
      apply (nodes_ok_sep _ _ q b Hn); auto. }
    assert (Hqn : q + 3 * W <= n \/ n + W <= q).
    { destruct Hnin as [E|Hin].
      - right. rewrite E. apply (nodes_ok_above _ _ _ Hn Hq).
      - assert (q <> n).
        { intros ->. apply (NoDup_app_disjoint _ _ n Hd).
          - apply in_or_app. right. left. reflexivity.
          - right. exact Hin. }
        destruct (nodes_ok_sep _ _ q n Hn); auto; lia. }
    split; [|split; [|split; [|split; [|split]]]]; auto.
    + right. apply in_or_app. right. left. reflexivity.
    + apply Hrun; auto; try lia.
      right. repeat split; auto; lia.
    + unfold flist, delete_st.
      replace (q =? 0) with false by (symmetry; apply Z.eqb_neq; lia).
      autorewrite with st. split.
      * rewrite Hh. unfold L. rewrite <- !app_assoc. cbn [app].
        rewrite !(hd_app_default (list_end s) l1').
        reflexivity.
      * rewrite <- app_assoc. cbn [app].
        apply chain_app in Hc1. destruct Hc1 as [Hc1 Hc1'].
        destruct Hc1' as (Eq1 & Eq2 & _). cbn [hd] in Hc1, Eq2.
        apply (proj2 (chain_app _ l1' _ (q :: l2) _)).
        split; [|cbn [chain]; repeat split].
        -- cbn [hd].
           repeat apply chain_wr_ptr_away; [exact Hc1| |]; intros x Hx.
           ++ assert (In x L) by (apply Hl1, in_or_app; auto).
              assert (x <> q).
              { intros ->. apply NoDup_app_remove_r in Hd.
                apply (NoDup_remove_2 _ _ _ Hd). rewrite app_nil_r. exact Hx. }
              destruct (nodes_ok_sep _ _ x q Hn); auto; lia.
           ++ assert (In x L) by (apply Hl1, in_or_app; auto).
              destruct Hnin as [E|Hin].
              ** right. rewrite E. apply (nodes_ok_above _ _ _ Hn). auto.
              ** assert (x <> n).
                 { intros ->. apply (NoDup_app_disjoint _ _ n Hd).
                   - apply in_or_app. auto.
                   - right. exact Hin. }
                 destruct (nodes_ok_sep _ _ x n Hn); auto; lia.
        -- rewrite !rd_ptr_wr_ptr_other by (auto; lia). exact Eq1.
        -- rewrite rd_ptr_wr_ptr_other by (auto; lia).
           rewrite rd_ptr_wr_ptr_same by assumption.
           rewrite wrap_small by lia. reflexivity.
        -- cbn [app].
           apply (chain_relink_tail _ l2 b q n (list_end s)); auto; try lia.
           apply chain_wr_ptr_away; [exact Hc2|].
           intros x Hx.
           assert (x <> q).
           { intros ->. apply (NoDup_app_disjoint _ _ q Hd).
             - apply in_or_app. right. left. reflexivity.
             - right. exact Hx. }
           destruct (nodes_ok_sep _ _ x q Hn); auto; lia.
Qed.

End DeleteSpec.

Section TagFields.
Context {mach : Machine}.

Lemma tag_size sz al : sz mod 8 = 0 -> Z.land (tag sz al) (Z.lnot 7) = sz.
Proof.
  intros H. rewrite land_lnot7. unfold tag.
  destruct al; Z.div_mod_to_equations; lia.
Qed.

Lemma tag_alloc sz al :
  sz mod 8 = 0 -> Z.land (tag sz al) 1 = if al then 1 else 0.
Proof.
  intros H. rewrite land_1. unfold tag.
  destruct al; Z.div_mod_to_equations; lia.
Qed.

Lemma PACK_0 sz : PACK sz 0 = tag sz false.
Proof. unfold PACK, tag. rewrite Z.lor_0_r. lia. Qed.

Lemma PACK_1 sz : sz mod 8 = 0 -> PACK sz 1 = tag sz true.
Proof.
  intros H. unfold PACK, tag. apply lor_1_even.
  Z.div_mod_to_equations; lia.
Qed.

Lemma to_int_tag sz al :
  0 <= sz -> sz < 2 ^ 31 - 1 -> Mach.to_int (tag sz al) = tag sz al.
Proof.
  intros H1 H2. apply to_int_small. unfold tag. destruct al; lia.
Qed.

Lemma HDRP_eq bp : W <= bp < ptr_mod -> HDRP bp = bp - W.
Proof.
  intros H. pose proof W_pos. unfold HDRP, WSIZE. apply wrap_small. lia.
Qed.

Lemma GET_SIZE_tag s p sz al :
  valid s p 4 = true -> rd_int s p = tag sz al -> sz mod 8 = 0 ->
  GET_SIZE p s = Done sz s.
Proof.
  intros V E Hm. rewrite GET_SIZE_ok by exact V. rewrite E, tag_size; auto.
Qed.

Lemma GET_ALLOC_tag s p sz al :
  valid s p 4 = true -> rd_int s p = tag sz al -> sz mod 8 = 0 ->
  GET_ALLOC p s = Done (if al then 1 else 0) s.
Proof.
  intros V E Hm. rewrite GET_ALLOC_ok by exact V. rewrite E, tag_alloc; auto.
Qed.

Lemma PUT_ok s p v : valid s p 4 = true -> PUT p v s = Done tt (wr_int p v s).
Proof. intros V. unfold PUT. apply store_int_ok. exact V. Qed.

End TagFields.

Section ArenaFacts.
Context {mach : Machine}.

Lemma arena_bounds s bl :
  arena s bl ->
  0 < mem_heap_lo s /\ mem_brk s < ptr_mod /\
  mem_brk s - mem_heap_lo s < 2 ^ 31 /\
  first_block s <= mem_brk s /\ 2 ^ 32 <= ptr_mod /\ 4 <= W <= 8.
Proof.
  intros Ha. pose proof W_pos. pose proof ptr_mod_ge.
  pose proof (ar_lo _ _ Ha). pose proof (ar_top _ _ Ha).
  pose proof (ar_int _ _ Ha) as Hi. unfold Mach.int_max in Hi.
  pose proof (ar_brk _ _ Ha).
  pose proof (seg_total_nonneg _ _ _ (ar_seg _ _ Ha)).
  repeat split; lia.
Qed.

Lemma arena_at s l1 sz al l2 :
  arena s (l1 ++ (sz, al) :: l2) ->
  blk_at s (first_block s + total l1) sz al.
Proof.
  intros Ha. pose proof (ar_seg _ _ Ha) as Hs.
  apply seg_app in Hs. destruct Hs as [Hs1 Hs2].
  cbn [seg] in Hs2. destruct Hs2 as (H1 & H2 & H3 & H4 & H5).
  pose proof (seg_total_nonneg _ _ _ Hs1).
  pose proof (seg_total_nonneg _ _ _ H5).
  pose proof (ar_brk _ _ Ha) as Hb. rewrite total_app in Hb. cbn [total] in Hb.
  constructor; auto; lia.
Qed.

(** The header of the arena neighbour that follows a block. *)
Lemma arena_next s l1 sz al l2 :
  arena s (l1 ++ (sz, al) :: l2) ->
  let n := first_block s + total l1 + sz in
  match l2 with
  | [] => n = mem_brk s /\ rd_int s (n - W) = tag 0 true
  | (szn, aln) :: _ => blk_at s n szn aln
  end.
Proof.
  intros Ha n. destruct l2 as [|[szn aln] l2].
  - pose proof (ar_brk _ _ Ha) as Hb. rewrite total_app in Hb.
    cbn [total] in Hb. assert (E : n = mem_brk s) by (unfold n; lia).
    split; [exact E|]. rewrite E. apply (ar_epilogue _ _ Ha).
  - replace (l1 ++ (sz, al) :: (szn, aln) :: l2)
      with ((l1 ++ [(sz, al)]) ++ (szn, aln) :: l2) in Ha
      by (rewrite <- app_assoc; reflexivity).
    apply arena_at in Ha. rewrite total_app in Ha. cbn [total] in Ha.
    replace n with (first_block s + (total l1 + (sz + 0))) by (unfold n; lia).
    exact Ha.
Qed.

(** The footer of the arena neighbour that precedes a block. *)
Lemma arena_prev s l1 sz al l2 :
  arena s (l1 ++ (sz, al) :: l2) ->
  let b := first_block s + total l1 in
  (l1 = [] /\ b = first_block s /\
   Z.land (rd_int s (b - 2 * W)) (Z.lnot 7) = 0) \/
  (exists l1' szp alp,
     l1 = l1' ++ [(szp, alp)] /\ blk_at s (b - szp) szp alp /\
     b - szp = first_block s + total l1').
Proof.
  intros Ha b. destruct (exists_last_or_nil l1) as [->|(l1' & [szp alp] & ->)].
  - left. cbn [total] in b. assert (E : b = first_block s) by (unfold b; lia).
    repeat split; auto. rewrite E. apply (ar_pre _ _ Ha).
  - right. exists l1', szp, alp.
    rewrite <- app_assoc in Ha. cbn [app] in Ha.
    pose proof (arena_at _ _ _ _ _ Ha) as Hp.
    unfold b. rewrite total_app. cbn [total].
    replace (first_block s + (total l1' + (szp + 0)) - szp)
      with (first_block s + total l1') by lia.
    auto.
Qed.

(** *** What a block's tags make the macros compute *)

Lemma blk_valid s bl b sz al :
  arena s bl -> blk_at s b sz al ->
  W <= b - W /\ b + sz < ptr_mod /\ sz < 2 ^ 31 - 1 /\
  valid s (b - W) 4 = true /\ valid s (b + sz - 2 * W) 4 = true /\
  valid s b W = true /\ valid s (b + 2 * W) W = true.
Proof.
  intros Ha [H1 H2 H3 H4 H5 H6].
  destruct (arena_bounds _ _ Ha) as (B1 & B2 & B3 & B4 & B5 & B6).
  unfold first_block in *.
  repeat split; try lia; apply valid_true; lia.
Qed.

Lemma blk_run s bl b sz al :
  arena s bl -> blk_at s b sz al ->
  GET_SIZE (HDRP b) s = Done sz s /\
  GET_ALLOC (HDRP b) s = Done (if al then 1 else 0) s /\
  NEXT_BLKP b s = Done (b + sz) s /\
  FTRP b s = Done (b + sz - 2 * W) s.
Proof.
  intros Ha Hb.
  destruct (blk_valid _ _ _ _ _ Ha Hb) as (V1 & V2 & V3 & V4 & V5 & V6 & V7).
  destruct Hb as [H1 H2 H3 H4 H5 H6].
  destruct (arena_bounds _ _ Ha) as (B1 & B2 & B3 & B4 & B5 & B6).
  assert (E : HDRP b = b - W) by (apply HDRP_eq; lia).
  assert (G : GET_SIZE (b - W) s = Done sz s)
    by (apply (GET_SIZE_tag _ _ _ al); auto).
  unfold NEXT_BLKP, FTRP, DSIZE, WSIZE. rewrite E.
  rewrite !(bind_Done _ _ _ _ _ G). unfold ret.
  rewrite !wrap_small by lia.
  repeat split; auto. apply (GET_ALLOC_tag _ _ sz); auto.
Qed.

Lemma epilogue_run s bl :
  arena s bl ->
  GET_ALLOC (HDRP (mem_brk s)) s = Done 1 s.
Proof.
  intros Ha.
  destruct (arena_bounds _ _ Ha) as (B1 & B2 & B3 & B4 & B5 & B6).
  unfold first_block in *.
  rewrite HDRP_eq by lia.
  apply (GET_ALLOC_tag _ _ 0 true); [apply valid_true; lia| |reflexivity].
  apply (ar_epilogue _ _ Ha).
Qed.

Lemma PREV_BLKP_run s bl b psz :
  arena s bl -> first_block s <= b <= mem_brk s ->
  Z.land (rd_int s (b - 2 * W)) (Z.lnot 7) = psz ->
  0 <= psz <= b ->
  PREV_BLKP b s = Done (b - psz) s.
Proof.
  intros Ha Hb E Hp.
  destruct (arena_bounds _ _ Ha) as (B1 & B2 & B3 & B4 & B5 & B6).
  unfold first_block in *.
  unfold PREV_BLKP, WSIZE. rewrite HDRP_eq by lia.
  rewrite (wrap_small (b - W - W)) by lia.
  replace (b - W - W) with (b - 2 * W) by lia.
  assert (V : valid s (b - 2 * W) 4 = true) by (apply valid_true; lia).
  rewrite (bind_Done _ _ _ _ _ (GET_SIZE_ok _ _ V)).
  rewrite E. unfold ret. rewrite wrap_small by lia. reflexivity.
Qed.

End ArenaFacts.

Section Frames.
Context {mach : Machine}.

Lemma seg_total_mod8 s bl : forall a, seg s a bl -> total bl mod 8 = 0.
Proof.
  induction bl as [|[sz al] bl IH]; intros a H; unf; [reflexivity|].
  destruct H as (_ & Hm & _ & _ & H). specialize (IH _ H).
  Z.div_mod_to_equations; lia.
Qed.

Lemma seg_total_min s bl : forall a,
  seg s a bl -> bl <> [] -> 6 * W <= total bl.
Proof.
  pose proof W_pos as HWp.
  destruct bl as [|[sz al] bl]; intros a H Hne; [congruence|]. unf.
  destruct H as (? & _ & _ & _ & H).
  pose proof (seg_total_nonneg _ _ _ H). lia.
Qed.

(** The arena depends on memory only through its tag words. *)
Lemma arena_frame s s' bl :
  arena s bl ->
  mem_heap_lo s' = mem_heap_lo s -> mem_brk s' = mem_brk s ->
  (forall t, In t (arena_tags s bl) -> rd_int s' t = rd_int s t) ->
  arena s' bl.
Proof.
  intros [H1 H2 H3 H4 H5 H6 H7 H8] El Eb Hf.
  assert (Ef : first_block s' = first_block s) by (unfold first_block; congruence).
  assert (Et : list_end s' = list_end s) by (unfold list_end; congruence).
  unfold arena_tags in Hf.
  constructor; rewrite ?Ef, ?Et, ?El, ?Eb; auto.
  - apply (seg_frame s); auto. intros t Ht. apply Hf. cbn [In]. auto.
  - rewrite Hf by (cbn [In]; auto). exact H6.
  - rewrite Hf by (cbn [In]; auto). exact H7.
  - rewrite Hf by (cbn [In]; auto). exact H8.
Qed.

(** Tag words do not overlap the link fields of a free block, nor the
    link field of the list end. *)
Lemma arena_tag_free_disjoint s bl t x :
  arena s bl -> In t (arena_tags s bl) ->
  In x (free_addrs (first_block s) bl) ->
  t + 4 <= x \/ x + 3 * W <= t.
Proof.
  intros Ha Ht Hx.
  destruct (arena_bounds _ _ Ha) as (B1 & B2 & B3 & B4 & B5 & B6).
  pose proof (seg_free_bounds _ _ _ _ (ar_seg _ _ Ha) Hx) as Hxb.
  pose proof (ar_brk _ _ Ha) as Hbrk.
  unfold arena_tags in Ht. cbn [In] in Ht.
  destruct Ht as [<-|[<-|[<-|Ht]]].
  - lia.
  - lia.
  - unfold list_end, first_block in *. lia.
  - apply (seg_tag_free_disjoint _ _ _ _ _ (ar_seg _ _ Ha) Ht Hx).
Qed.

Lemma arena_tag_end_disjoint s bl t :
  arena s bl -> In t (arena_tags s bl) ->
  t + 4 <= list_end s \/ list_end s + W <= t.
Proof.
  intros Ha Ht.
  destruct (arena_bounds _ _ Ha) as (B1 & B2 & B3 & B4 & B5 & B6).
  unfold arena_tags in Ht. cbn [In] in Ht.
  unfold list_end, first_block in *.
  destruct Ht as [<-|[<-|[<-|Ht]]]; try lia.
  pose proof (seg_tags_bounds _ _ _ _ (ar_seg _ _ Ha) Ht).
  unfold first_block in *. lia.
Qed.

Lemma rd_int_delete_st s p n t :
  (p = 0 \/ t + 4 <= p + 2 * W \/ p + 3 * W <= t) ->
  (t + 4 <= n \/ n + W <= t) ->
  rd_int (delete_st p n s) t = rd_int s t.
Proof.
  intros Hp Hn. unfold delete_st.
  rewrite rd_int_wr_ptr_other by lia.
  destruct (p =? 0) eqn:E.
  - apply rd_int_with_fl.
  - apply Z.eqb_neq in E. apply rd_int_wr_ptr_other. lia.
Qed.

Lemma rd_int_add_st s b t :
  (t + 4 <= b \/ b + 3 * W <= t) ->
  (t + 4 <= free_listp s \/ free_listp s + W <= t) ->
  rd_int (add_st b s) t = rd_int s t.
Proof.
  pose proof W_pos as HWp.
  intros Hb Hh. unfold add_st. rewrite rd_int_with_fl.
  rewrite !rd_int_wr_ptr_other by lia. reflexivity.
Qed.

Lemma arena_delete_st s bl p n :
  arena s bl ->
  (p = 0 \/ In p (free_addrs (first_block s) bl)) ->
  (n = list_end s \/ In n (free_addrs (first_block s) bl)) ->
  arena (delete_st p n s) bl.
Proof.
  pose proof W_pos as HWp.
  intros Ha Hp Hn. apply (arena_frame s); auto.
  - unfold delete_st. destruct (p =? 0); reflexivity.
  - unfold delete_st. destruct (p =? 0); reflexivity.
  - intros t Ht. apply rd_int_delete_st.
    + destruct Hp as [?|Hp]; [auto|right].
      pose proof (arena_tag_free_disjoint _ _ _ _ Ha Ht Hp). lia.
    + destruct Hn as [->|Hn].
      * apply (arena_tag_end_disjoint _ _ _ Ha Ht).
      * pose proof (arena_tag_free_disjoint _ _ _ _ Ha Ht Hn). lia.
Qed.

Lemma arena_add_st s bl b :
  arena s bl ->
  In b (free_addrs (first_block s) bl) ->
  (free_listp s = list_end s \/ In (free_listp s) (free_addrs (first_block s) bl)) ->
  arena (add_st b s) bl.
Proof.
  pose proof W_pos as HWp.
  intros Ha Hb Hh. apply (arena_frame s); auto.
  intros t Ht. apply rd_int_add_st.
  - apply (arena_tag_free_disjoint _ _ _ _ Ha Ht Hb).
  - destruct Hh as [->|Hh].
    + apply (arena_tag_end_disjoint _ _ _ Ha Ht).
    + pose proof (arena_tag_free_disjoint _ _ _ _ Ha Ht Hh). lia.
Qed.

(** *** Rewriting the tags of a run of blocks as one block *)

Lemma rd_int_retag_hdr s b sz al :
  4 * W <= sz -> sz < 2 ^ 31 - 1 ->
  rd_int (retag b sz al s) (b - W) = tag sz al.
Proof.
  pose proof W_pos as HWp. intros H1 H2. unfold retag.
  rewrite rd_int_wr_int_other by lia. rewrite rd_int_wr_int_same.
  apply to_int_tag; lia.
Qed.

Lemma rd_int_retag_ftr s b sz al :
  0 <= sz -> sz < 2 ^ 31 - 1 ->
  rd_int (retag b sz al s) (b + sz - 2 * W) = tag sz al.
Proof.
  intros H1 H2. unfold retag. rewrite rd_int_wr_int_same.
  apply to_int_tag; lia.
Qed.

Lemma rd_int_retag_other s b sz al t :
  (t + 4 <= b - W \/ b <= t) ->
  (t + 4 <= b + sz - 2 * W \/ b + sz - W <= t) ->
  rd_int (retag b sz al s) t = rd_int s t.
Proof.
  pose proof W_pos as HWp. intros H1 H2. unfold retag.
  rewrite !rd_int_wr_int_other by lia. reflexivity.
Qed.

Lemma rd_ptr_retag_other s b sz al t :
  (t + W <= b - W \/ b <= t) ->
  (t + W <= b + sz - 2 * W \/ b + sz - W <= t) ->
  rd_ptr (retag b sz al s) t = rd_ptr s t.
Proof.
  pose proof W_pos as HWp. intros H1 H2. unfold retag.
  rewrite !rd_ptr_wr_int_other by lia. reflexivity.
Qed.

Lemma arena_retag s l1 mid l2 al :
  arena s (l1 ++ mid ++ l2) -> mid <> [] ->
  arena (retag (first_block s + total l1) (total mid) al s)
        (l1 ++ (total mid, al) :: l2).
Proof.
  pose proof W_pos as HWp.
  intros Ha Hne.
  destruct (arena_bounds _ _ Ha) as (B1 & B2 & B3 & B4 & B5 & B6).
  destruct Ha as [H1 H2 H3 H4 H5 H6 H7 H8].
  apply seg_app in H5. destruct H5 as [S1 S2].
  apply seg_app in S2. destruct S2 as [S2 S3].
  pose proof (seg_total_nonneg _ _ _ S1) as T1.
  pose proof (seg_total_min _ _ _ S2 Hne) as T2.
  pose proof (seg_total_nonneg _ _ _ S3) as T3.
  pose proof (seg_total_mod8 _ _ _ S2) as M2.
  rewrite !total_app in H2.
  set (P := first_block s + total l1) in *.
  set (tot := total mid) in *.
  assert (Ef : first_block (retag P tot al s) = first_block s) by reflexivity.
  assert (Et : list_end (retag P tot al s) = list_end s) by reflexivity.
  assert (Eb : mem_brk (retag P tot al s) = mem_brk s) by reflexivity.
  assert (El : mem_heap_lo (retag P tot al s) = mem_heap_lo s) by reflexivity.
  unfold first_block, list_end in *.
  constructor; rewrite ?Ef, ?Et, ?Eb, ?El; auto.
  - rewrite total_app. cbn [total]. unfold first_block. lia.
  - apply seg_app. split; [|cbn [seg]; repeat split; auto].
    + apply (seg_frame s); auto. intros t Ht.
      pose proof (seg_tags_bounds _ _ _ _ S1 Ht).
      apply rd_int_retag_other; fold P in H; unfold first_block in *; lia.
    + apply rd_int_retag_hdr; lia.
    + apply rd_int_retag_ftr; lia.
    + apply (seg_frame s); auto. intros t Ht.
      pose proof (seg_tags_bounds _ _ _ _ S3 Ht).
      apply rd_int_retag_other; lia.
  - rewrite rd_int_retag_other by lia. exact H6.
  - rewrite rd_int_retag_other by (unfold first_block; lia). exact H7.
  - rewrite rd_int_retag_other by (unfold list_end; lia). exact H8.
Qed.

End Frames.

Ltac step H := rewrite (bind_Done _ _ _ _ _ H); cbv beta.

Section CoalesceReads.
Context {mach : Machine}.

(** [PUT(HDRP(bp), PACK(size, a)); PUT(FTRP(bp), PACK(size, a))] *)
Lemma retag_run {A} s b sz a al (k : M A) :
  PACK sz a = tag sz al ->
  sz mod 8 = 0 -> 4 * W <= sz -> sz < 2 ^ 31 - 1 ->
  2 * W <= b -> b + sz < ptr_mod ->
  valid s (b - W) 4 = true -> valid s (b + sz - 2 * W) 4 = true ->
  (PUT (HDRP b) (PACK sz a) ;; ftr <- FTRP b ;; PUT ftr (PACK sz a) ;; k) s
  = k (retag b sz al s).
Proof.
  pose proof W_pos as HWp.
  intros Ep Hm H1 H2 H3 H4 V1 V2.
  rewrite Ep. rewrite HDRP_eq by lia.
  step (PUT_ok _ _ (tag sz al) V1).
  assert (G : GET_SIZE (b - W) (wr_int (b - W) (tag sz al) s)
              = Done sz (wr_int (b - W) (tag sz al) s)).
  { apply (GET_SIZE_tag _ _ _ al); auto.
    rewrite rd_int_wr_int_same. apply to_int_tag; lia. }
  assert (F : FTRP b (wr_int (b - W) (tag sz al) s)
              = Done (b + sz - 2 * W) (wr_int (b - W) (tag sz al) s)).
  { unfold FTRP, DSIZE, WSIZE. rewrite HDRP_eq by lia.
    step G. unfold ret.
    rewrite wrap_small by lia. reflexivity. }
  step F.
  assert (V2' : valid (wr_int (b - W) (tag sz al) s) (b + sz - 2 * W) 4 = true)
    by exact V2.
  step (PUT_ok _ _ (tag sz al) V2').
  reflexivity.
Qed.

(** The three locals of [coalesce], read off the arena. *)
Lemma coalesce_phase1 s l1 szb l2 :
  arena s (l1 ++ (szb, false) :: l2) ->
  exists PA NA,
    coalesce (first_block s + total l1) s
    = coalesce_cases PA NA szb (first_block s + total l1) s /\
    (PA = false <-> exists l1' szp, l1 = l1' ++ [(szp, false)]) /\
    (NA = false <-> exists szn l2', l2 = (szn, false) :: l2').
Proof.
  pose proof W_pos as HWp.
  intros Ha. set (b := first_block s + total l1).
  destruct (arena_bounds _ _ Ha) as (B1 & B2 & B3 & B4 & B5 & B6).
  pose proof (arena_at _ _ _ _ _ Ha) as Hb. fold b in Hb.
  destruct (blk_run _ _ _ _ _ Ha Hb) as (R1 & R2 & R3 & R4).
  destruct (blk_valid _ _ _ _ _ Ha Hb) as (V1 & V2 & V3 & V4 & V5 & V6 & V7).
  pose proof (ba_lo _ _ _ _ Hb) as Hlo. pose proof (ba_hi _ _ _ _ Hb) as Hhi.
  pose proof (ba_min _ _ _ _ Hb) as Hmin.
  (* previous neighbour *)
  assert (HP : exists pv pf pa PA,
             PREV_BLKP b s = Done pv s /\ FTRP pv s = Done pf s /\
             GET_ALLOC pf s = Done pa s /\
             negb (pa =? 0) || (pv =? b) = PA /\
             (PA = false <-> exists l1' szp, l1 = l1' ++ [(szp, false)])).
  { destruct (arena_prev _ _ _ _ _ Ha) as [(E1 & E2 & E3)|(l1' & szp & alp & E1 & Hp & E2)];
      fold b in E2; try fold b in E3; try fold b in Hp.
    - exists b, (b + szb - 2 * W), 0, true.
      split; [|split; [|split; [|split]]].
      + replace b with (b - 0) at 2 by lia.
        apply (PREV_BLKP_run _ _ _ _ Ha); auto; lia.
      + exact R4.
      + apply (GET_ALLOC_tag _ _ szb false); auto.
        * apply (ba_ftr _ _ _ _ Hb).
        * apply (ba_mod _ _ _ _ Hb).
      + rewrite (Z.eqb_refl b). apply orb_true_r.
      + split; [discriminate|]. intros (l1' & szp & E). subst l1.
        destruct l1'; discriminate.
    - destruct (blk_run _ _ _ _ _ Ha Hp) as (Q1 & Q2 & Q3 & Q4).
      destruct (blk_valid _ _ _ _ _ Ha Hp) as (U1 & U2 & U3 & U4 & U5 & U6 & U7).
      pose proof (ba_min _ _ _ _ Hp) as Hpmin.
      pose proof (ba_lo _ _ _ _ Hp) as Hplo.
      exists (b - szp), (b - szp + szp - 2 * W), (if alp then 1 else 0), alp.
      split; [|split; [|split; [|split]]].
      + apply (PREV_BLKP_run _ _ _ _ Ha); try lia.
        replace (b - 2 * W) with (b - szp + szp - 2 * W) by lia.
        rewrite (ba_ftr _ _ _ _ Hp). apply tag_size. apply (ba_mod _ _ _ _ Hp).
      + exact Q4.
      + apply (GET_ALLOC_tag _ _ szp alp); auto.
        * apply (ba_ftr _ _ _ _ Hp).
        * apply (ba_mod _ _ _ _ Hp).
      + replace (b - szp =? b) with false by (symmetry; apply Z.eqb_neq; lia).
        destruct alp; reflexivity.
      + split.
        * intros ->. exists l1', szp. exact E1.
        * intros (l1'' & szp' & E). rewrite E1 in E.
          apply app_inj_tail in E. destruct E as [_ E]. congruence. }
  destruct HP as (pv & pf & pa & PA & P1 & P2 & P3 & P4 & P5).
  (* next neighbour *)
  assert (HN : exists na NA,
             GET_ALLOC (HDRP (b + szb)) s = Done na s /\
             negb (na =? 0) = NA /\
             (NA = false <-> exists szn l2', l2 = (szn, false) :: l2')).
  { pose proof (arena_next _ _ _ _ _ Ha) as Hn. cbv zeta in Hn. fold b in Hn.
    destruct l2 as [|[szn aln] l2'].
    - destruct Hn as [E1 E2]. exists 1, true. rewrite E1.
      split; [apply (epilogue_run _ _ Ha)|].
      split; [reflexivity|]. split; [discriminate|].
      intros (? & ? & ?). discriminate.
    - destruct (blk_run _ _ _ _ _ Ha Hn) as (Q1 & Q2 & Q3 & Q4).
      exists (if aln then 1 else 0), aln.
      split; [exact Q2|]. split; [destruct aln; reflexivity|].
      split.
      + intros ->. eauto.
      + intros (? & ? & E). congruence. }
  destruct HN as (na & NA & N1 & N2 & N3).
  exists PA, NA. split; [|split; assumption].
  unfold coalesce. fold b.
  step P1. step P2. step P3. step R3. step N1. step R1.
  rewrite P4, N2. rewrite wrap_small by lia. reflexivity.
Qed.

End CoalesceReads.

Section CoalesceSpec.
Context {mach : Machine}.

Lemma same_env_refl s : same_env s s.
Proof. unfold same_env. auto. Qed.

Lemma same_env_trans s1 s2 s3 :
  same_env s1 s2 -> same_env s2 s3 -> same_env s1 s3.
Proof. unfold same_env. intuition congruence. Qed.

Lemma same_env_delete_st s p n : same_env s (delete_st p n s).
Proof. unfold same_env, delete_st. destruct (p =? 0); auto. Qed.

Lemma same_env_add_st s b : same_env s (add_st b s).
Proof. unfold same_env, add_st. auto. Qed.

Lemma same_env_retag s b sz al : same_env s (retag b sz al s).
Proof. unfold same_env, retag. auto. Qed.

Lemma merge_prev_free l1' szp : merge_prev (l1' ++ [(szp, false)]) = (l1', szp).
Proof.
  unfold merge_prev. rewrite rev_app_distr. cbn [rev app].
  rewrite rev_involutive. reflexivity.
Qed.

Lemma merge_prev_none l1 :
  ~ (exists l1' szp, l1 = l1' ++ [(szp, false)]) -> merge_prev l1 = (l1, 0).
Proof.
  intros H. unfold merge_prev.
  destruct (@rev block l1) as [|[szp al] r] eqn:E; [reflexivity|].
  destruct al; [reflexivity|].
  exfalso. apply H. exists (rev r), szp.
  apply (f_equal (@rev block)) in E. rewrite rev_involutive in E. exact E.
Qed.

Lemma merge_next_none l2 :
  ~ (exists szn l2', l2 = (szn, false) :: l2') -> merge_next l2 = (0, l2).
Proof.
  intros H. destruct l2 as [|[szn al] r]; [reflexivity|].
  destruct al; [reflexivity|].
  exfalso. apply H. eauto.
Qed.

(** The free list deletion, by membership. *)
Lemma flist_delete_in s fl b :
  flist s fl -> nodes_ok s fl -> NoDup fl -> In b fl ->
  exists p n fl',
    (p = 0 \/ (In p fl /\ p <> b)) /\
    (n = list_end s \/ (In n fl /\ n <> b)) /\
    rd_ptr s b = p /\ rd_ptr s (b + 2 * W) = n /\
    delete b s = Done tt (delete_st p n s) /\
    flist (delete_st p n s) fl' /\ NoDup fl' /\
    (forall x, In x fl' <-> In x fl /\ x <> b).
Proof.
  intros Hf Hn Hd Hb.
  destruct (in_split _ _ Hb) as (f1 & f2 & ->).
  destruct (flist_delete _ _ _ _ Hf Hn Hd) as (E1 & E2 & Hp & Hnx & Hrun & Hfl).
  pose proof (NoDup_remove_2 _ _ _ Hd) as Hnb.
  exists (last f1 0), (hd (list_end s) f2), (f1 ++ f2).
  split; [|split; [|split; [|split; [|split; [|split; [|split]]]]]]; auto.
  - destruct Hp as [?|Hp]; [auto|right]. split.
    + apply in_or_app. auto.
    + intros E. apply Hnb. apply in_or_app. left. rewrite <- E. exact Hp.
  - destruct Hnx as [?|Hnx]; [auto|right]. split.
    + apply in_or_app. right. right. auto.
    + intros E. apply Hnb. apply in_or_app. right. rewrite <- E. exact Hnx.
  - apply (NoDup_remove_1 _ _ _ Hd).
  - intros x.
    rewrite !in_app_iff in *. cbn [In]. split.
    + intros Hx. split; [tauto|]. intros ->. tauto.
    + intros [[?|[?|?]] Hne]; auto. congruence.
Qed.

(** A free block's right neighbour is on the list of free addresses only
    when it is a free block. *)
Lemma next_not_free s l1 szb l2 a :
  seg s a (l1 ++ (szb, false) :: l2) ->
  In (a + total l1 + szb) (free_addrs a (l1 ++ (szb, false) :: l2)) ->
  exists szn l2', l2 = (szn, false) :: l2'.
Proof.
  pose proof W_pos as HWp.
  intros Hs Hin. apply seg_app in Hs. destruct Hs as [S1 S2].
  cbn [seg] in S2. destruct S2 as (M1 & M2 & _ & _ & S3).
  rewrite free_addrs_app in Hin. cbn [free_addrs app] in Hin.
  apply in_app_or in Hin. destruct Hin as [Hin|[Hin|Hin]].
  - pose proof (seg_free_bounds _ _ _ _ S1 Hin). lia.
  - lia.
  - destruct l2 as [|[szn al] l2']; [destruct Hin|].
    destruct al; cbn [free_addrs app] in Hin.
    + cbn [seg] in S3. destruct S3 as (N1 & _ & _ & _ & S4).
      pose proof (seg_free_bounds _ _ _ _ S4 Hin). lia.
    + eauto.
Qed.

Lemma flist_hd_in s fl :
  flist s fl -> free_listp s = list_end s \/ In (free_listp s) fl.
Proof.
  intros [Hh _]. rewrite Hh. destruct fl; cbn [hd In]; auto.
Qed.

(** Case 1 of the spec's table: neither neighbour is free. *)
Lemma coalesce_none s l1 szb l2 fl :
  let bl := l1 ++ (szb, false) :: l2 in
  let b := first_block s + total l1 in
  arena s bl -> flist s fl -> NoDup fl ->
  (forall x, In x fl <-> In x (free_addrs (first_block s) bl) /\ x <> b) ->
  coalesce_cases true true szb b s = Done b (add_st b s) /\
  WF (add_st b s) bl (b :: fl).
Proof.
  intros bl b Ha Hf Hd Hin.
  assert (Hbin : In b (free_addrs (first_block s) bl)) by apply free_addrs_mid.
  assert (Hnb : ~ In b fl) by (intros H; apply Hin in H; tauto).
  assert (Hd' : NoDup (b :: fl)) by (constructor; assumption).
  assert (Hn : nodes_ok s (b :: fl)).
  { apply (free_nodes_ok _ bl); auto.
    intros x [<-|Hx]; [exact Hbin|]. apply Hin. exact Hx. }
  destruct (flist_add _ _ _ Hf Hn Hd') as [Hrun Hfl].
  split.
  - unfold coalesce_cases. cbn [andb negb]. step Hrun. reflexivity.
  - constructor; auto.
    + apply arena_add_st; auto.
      destruct (flist_hd_in _ _ Hf) as [?|H]; [auto|right]. apply Hin. exact H.
    + intros x. cbn [In]. rewrite Hin. unfold add_st.
      autorewrite with st. fold bl. split.
      * intros [<-|[? _]]; auto.
      * intros H. destruct (Z.eq_dec b x); auto.
Qed.

End CoalesceSpec.

(** ** What the operations leave alone

    The lemmas named [_frame] below say, besides what an operation does to
    the heap, that it writes no payload byte of an allocated block. *)

Section FrameBasics.
Context {mach : Machine}.

Lemma keeps_refl P s : keeps P s s.
Proof. intros x _. reflexivity. Qed.

Lemma keeps_trans P s1 s2 s3 : keeps P s1 s2 -> keeps P s2 s3 -> keeps P s1 s3.
Proof. intros H1 H2 x Hx. rewrite (H2 x Hx). apply H1. exact Hx. Qed.

Lemma keeps_weaken (P Q : Z -> Prop) s s' :
  (forall x, Q x -> P x) -> keeps P s s' -> keeps Q s s'.
Proof. intros H K x Hx. apply K, H, Hx. Qed.

Lemma keeps_wr_int (P : Z -> Prop) a v s :
  (forall x, P x -> x < a \/ a + 4 <= x) -> keeps P s (wr_int a v s).
Proof.
  intros H x Hx. unfold wr_int. cbn [mem set_mem].
  apply store_bytes_out. specialize (H x Hx). lia.
Qed.

Lemma keeps_wr_ptr (P : Z -> Prop) a v s :
  (forall x, P x -> x < a \/ a + W <= x) -> keeps P s (wr_ptr a v s).
Proof.
  intros H x Hx. unfold wr_ptr. cbn [mem set_mem].
  apply store_bytes_out. rewrite W_nat. specialize (H x Hx). lia.
Qed.

Lemma keeps_with_fl (P : Z -> Prop) p s : keeps P s (with_free_listp p s).
Proof. intros x _. reflexivity. Qed.

Lemma keeps_retag (P : Z -> Prop) b sz al s :
  (forall x, P x -> x < b - W \/ b - W + 4 <= x) ->
  (forall x, P x -> x < b + sz - 2 * W \/ b + sz - 2 * W + 4 <= x) ->
  keeps P s (retag b sz al s).
Proof.
  intros H1 H2. unfold retag.
  apply (keeps_trans _ _ (wr_int (b - W) (tag sz al) s));
    apply keeps_wr_int; assumption.
Qed.

Lemma keeps_delete_st (P : Z -> Prop) p n s :
  (forall x, P x -> x < n \/ n + W <= x) ->
  (p = 0 \/ forall x, P x -> x < p + 2 * W \/ p + 3 * W <= x) ->
  keeps P s (delete_st p n s).
Proof.
  intros H1 H2. unfold delete_st.
  destruct (Z.eqb_spec p 0) as [E|E].
  - apply (keeps_trans _ _ (with_free_listp n s));
      [apply keeps_with_fl|apply keeps_wr_ptr; exact H1].
  - destruct H2 as [H2|H2]; [contradiction|].
    apply (keeps_trans _ _ (wr_ptr (p + 2 * W) n s)); apply keeps_wr_ptr; auto.
    intros x Hx. specialize (H2 x Hx). lia.
Qed.

Lemma keeps_add_st (P : Z -> Prop) b s :
  (forall x, P x -> x < b \/ b + 3 * W <= x) ->
  (forall x, P x -> x < free_listp s \/ free_listp s + W <= x) ->
  keeps P s (add_st b s).
Proof.
  pose proof W_pos as HWp.
  intros H1 H2. unfold add_st.
  set (s1 := wr_ptr (b + 2 * W) (free_listp s) s).
  set (s2 := wr_ptr (free_listp s) b s1).
  apply (keeps_trans _ _ s1);
    [apply keeps_wr_ptr; intros x Hx; specialize (H1 x Hx); lia|].
  apply (keeps_trans _ _ s2); [apply keeps_wr_ptr; exact H2|].
  apply (keeps_trans _ _ (wr_ptr b NULL s2));
    [apply keeps_wr_ptr; intros x Hx; specialize (H1 x Hx); lia|].
  apply keeps_with_fl.
Qed.

Lemma alloc_payload_app l1 : forall a l2 x,
  alloc_payload a (l1 ++ l2) x <->
  alloc_payload a l1 x \/ alloc_payload (a + total l1) l2 x.
Proof.
  induction l1 as [|[sz al] l1 IH]; intros a l2 x; cbn [app alloc_payload total].
  - rewrite Z.add_0_r. tauto.
  - rewrite IH. replace (a + (sz + total l1)) with (a + sz + total l1) by lia.
    tauto.
Qed.

Lemma alloc_payload_bounds s bl : forall a x,
  seg s a bl -> alloc_payload a bl x -> a <= x /\ x + 2 * W < a + total bl.
Proof.
  pose proof W_pos as HWp.
  induction bl as [|[sz al] bl IH]; intros a x Hs Hx; unf; cbn [alloc_payload] in Hx;
    [tauto|].
  destruct Hs as (H1 & _ & _ & _ & Hs).
  pose proof (seg_total_nonneg _ _ _ Hs).
  destruct Hx as [[_ Hx]|Hx]; [lia|].
  specialize (IH _ _ Hs Hx). lia.
Qed.

(** An allocated payload keeps clear of every tag word. *)
Lemma alloc_payload_tags s bl : forall a x t,
  seg s a bl -> alloc_payload a bl x -> In t (tags a bl) ->
  x < t \/ t + 4 <= x.
Proof.
  pose proof W_pos as HWp.
  induction bl as [|[sz al] bl IH]; intros a x t Hs Hx Ht; unf;
    cbn [alloc_payload] in Hx; [tauto|].
  destruct Hs as (H1 & _ & _ & _ & Hs).
  destruct Hx as [[_ Hx]|Hx].
  - destruct Ht as [<-|[<-|Ht]]; try lia.
    pose proof (seg_tags_bounds _ _ _ _ Hs Ht). lia.
  - pose proof (alloc_payload_bounds _ _ _ _ Hs Hx).
    destruct Ht as [<-|[<-|Ht]]; try lia.
    apply (IH _ _ _ Hs Hx Ht).
Qed.

(** An allocated payload keeps clear of every free block. *)
Lemma alloc_payload_free s bl : forall a x f,
  seg s a bl -> alloc_payload a bl x -> In f (free_addrs a bl) ->
  x + 2 * W < f \/ f + 6 * W <= x.
Proof.
  pose proof W_pos as HWp.
  induction bl as [|[sz al] bl IH]; intros a x f Hs Hx Hf; unf;
    cbn [alloc_payload] in Hx; [tauto|].
  destruct Hs as (H1 & _ & _ & _ & Hs).
  apply in_app_or in Hf.
  destruct Hx as [[E Hx]|Hx].
  - subst al. destruct Hf as [[]|Hf].
    pose proof (seg_free_bounds _ _ _ _ Hs Hf). lia.
  - pose proof (alloc_payload_bounds _ _ _ _ Hs Hx).
    destruct Hf as [Hf|Hf]; [|apply (IH _ _ _ Hs Hx Hf)].
    destruct al; cbn [In] in Hf; [tauto|]. destruct Hf as [<-|[]]. lia.
Qed.

(** The same facts for the words of an arena. *)
Lemma arena_payload_tags s bl x t :
  arena s bl -> alloc_payload (first_block s) bl x ->
  In t (arena_tags s bl) -> x < t \/ t + 4 <= x.
Proof.
  pose proof W_pos as HWp.
  intros Ha Hx Ht.
  pose proof (alloc_payload_bounds _ _ _ _ (ar_seg _ _ Ha) Hx) as Hb.
  pose proof (ar_brk _ _ Ha) as Hbrk.
  unfold arena_tags in Ht. cbn [In] in Ht.
  unfold list_end, first_block in *.
  destruct Ht as [<-|[<-|[<-|Ht]]]; try lia.
  apply (alloc_payload_tags _ _ _ _ _ (ar_seg _ _ Ha) Hx Ht).
Qed.

Lemma arena_payload_node s bl x f :
  arena s bl -> alloc_payload (first_block s) bl x ->
  (f = list_end s \/ In f (free_addrs (first_block s) bl)) ->
  x < f \/ f + 3 * W <= x.
Proof.
  pose proof W_pos as HWp.
  intros Ha Hx Hf.
  pose proof (alloc_payload_bounds _ _ _ _ (ar_seg _ _ Ha) Hx) as Hb.
  destruct Hf as [->|Hf].
  - unfold list_end, first_block in *. lia.
  - pose proof (alloc_payload_free _ _ _ _ _ (ar_seg _ _ Ha) Hx Hf). lia.
Qed.

(** Merging a run of blocks that holds no allocated payload keeps the
    allocated payloads around it. *)
Lemma alloc_payload_merged a l1 mid l2 x :
  (forall a0 x0, ~ alloc_payload a0 mid x0) ->
  alloc_payload a (l1 ++ mid ++ l2) x ->
  alloc_payload a (l1 ++ (total mid, false) :: l2) x.
Proof.
  intros Hm. rewrite !alloc_payload_app. cbn [alloc_payload].
  intros [H|[H|H]]; [left; exact H|destruct (Hm _ _ H)|].
  right. right. replace (a + total l1 + total mid) with (a + total l1 + total mid) by lia.
  exact H.
Qed.

End FrameBasics.

Section CoalesceSteps.
Context {mach : Machine}.

Lemma same_env_first_block s s' : same_env s s' -> first_block s' = first_block s.
Proof. intros (E & _). unfold first_block. congruence. Qed.

Lemma same_env_list_end s s' : same_env s s' -> list_end s' = list_end s.
Proof. intros (E & _). unfold list_end. congruence. Qed.

Lemma valid_same_env s s' a n : same_env s s' -> valid s' a n = valid s a n.
Proof. intros (E1 & E2 & _). unfold valid. rewrite E1, E2. reflexivity. Qed.

Lemma nodes_ok_env s s' l : same_env s s' -> nodes_ok s l -> nodes_ok s' l.
Proof.
  intros He Hn. pose proof (same_env_list_end _ _ He) as Et.
  destruct He as (E1 & E2 & _). unfold nodes_ok in *.
  rewrite Et, E1, E2. exact Hn.
Qed.

(** Unlinking a free block of the arena. *)
Lemma delete_free_frame s bl fl x :
  arena s bl -> flist s fl -> NoDup fl ->
  (forall y, In y fl -> In y (free_addrs (first_block s) bl)) ->
  In x fl ->
  exists s' fl',
    delete x s = Done tt s' /\ arena s' bl /\ flist s' fl' /\ NoDup fl' /\
    (forall y, In y fl' <-> In y fl /\ y <> x) /\ same_env s s' /\
    keeps (alloc_payload (first_block s) bl) s s'.
Proof.
  pose proof W_pos as HWp.
  intros Ha Hf Hd Hsub Hx.
  pose proof (free_nodes_ok _ _ _ Ha Hsub) as Hn.
  destruct (flist_delete_in _ _ _ Hf Hn Hd Hx)
    as (p & n & fl' & Hp & Hnx & _ & _ & Hrun & Hfl & Hd' & Hin).
  exists (delete_st p n s), fl'.
  split; [|split; [|split; [|split; [|split; [|split]]]]]; auto.
  - apply arena_delete_st; auto.
    + destruct Hp as [?|[Hp _]]; auto.
    + destruct Hnx as [?|[Hnx _]]; auto.
  - apply same_env_delete_st.
  - apply keeps_delete_st.
    + intros y Hy.
      assert (Hn' : n = list_end s \/ In n (free_addrs (first_block s) bl))
        by (destruct Hnx as [?|[Hnx _]]; auto).
      pose proof (arena_payload_node _ _ _ _ Ha Hy Hn'). lia.
    + destruct Hp as [?|[Hp _]]; [auto|right]. intros y Hy.
      pose proof (arena_payload_node _ _ _ _ Ha Hy (or_intror (Hsub _ Hp))). lia.
Qed.

Lemma tags_mid_hdr a l1 sz al l2 :
  In (a + total l1 - W) (tags a (l1 ++ (sz, al) :: l2)).
Proof.
  rewrite tags_app. apply in_or_app. right. cbn [tags In]. auto.
Qed.

Lemma tags_mid_ftr a l1 sz al l2 :
  In (a + total l1 + sz - 2 * W) (tags a (l1 ++ (sz, al) :: l2)).
Proof.
  rewrite tags_app. apply in_or_app. right. cbn [tags In]. auto.
Qed.

(** Tag writes leave the free list alone. *)
Lemma flist_retag s fl b sz al :
  flist s fl ->
  (forall x, In x fl -> x + 3 * W <= b - W \/ b - W + 4 <= x) ->
  (forall x, In x fl -> x + 3 * W <= b + sz - 2 * W \/ b + sz - 2 * W + 4 <= x) ->
  flist (retag b sz al s) fl.
Proof.
  intros [Hh Hc] H1 H2. unfold flist, retag. autorewrite with st.
  split; [exact Hh|].
  repeat apply chain_wr_int_away; auto.
Qed.

(** The common end of the merging cases: the run of blocks [mid], now
    off the free list, becomes one free block at the head of the list. *)
Lemma coalesce_finish_frame s l1 mid l2 fl :
  let r := first_block s + total l1 in
  let tot := total mid in
  arena s (l1 ++ mid ++ l2) -> mid <> [] ->
  flist s fl -> NoDup fl ->
  (forall x, In x fl <->
     In x (free_addrs (first_block s) l1) \/ In x (free_addrs (r + tot) l2)) ->
  exists s',
    (PUT (HDRP r) (PACK tot 0) ;; ftr <- FTRP r ;; PUT ftr (PACK tot 0) ;;
     add r ;; ret r) s = Done r s' /\
    WF s' (l1 ++ (tot, false) :: l2) (r :: fl) /\ same_env s s' /\
    keeps (alloc_payload (first_block s) (l1 ++ (tot, false) :: l2)) s s'.
Proof.
  pose proof W_pos as HWp.
  intros r tot Ha Hne Hf Hd Hin.
  destruct (arena_bounds _ _ Ha) as (B1 & B2 & B3 & B4 & B5 & B6).
  pose proof (ar_seg _ _ Ha) as Hs.
  apply seg_app in Hs. destruct Hs as [S1 S2].
  apply seg_app in S2. destruct S2 as [S2 S3]. fold r in S2, S3. fold tot in S3.
  pose proof (seg_total_nonneg _ _ _ S1) as T1.
  pose proof (seg_total_min _ _ _ S2 Hne) as T2.
  pose proof (seg_total_nonneg _ _ _ S3) as T3.
  pose proof (seg_total_mod8 _ _ _ S2) as M2. fold tot in T2, M2.
  pose proof (ar_brk _ _ Ha) as Hbrk. rewrite !total_app in Hbrk.
  fold tot in Hbrk.
  assert (Hr : first_block s <= r) by (unfold r; lia).
  set (s1 := retag r tot false s).
  pose proof (arena_retag _ _ _ _ false Ha Hne) as Ha1. fold r tot s1 in Ha1.
  (* the nodes keep away from the two tag words *)
  assert (Hz : forall x, In x fl ->
             (x + 6 * W <= r \/ r + tot <= x) /\ first_block s <= x /\
             x + 6 * W <= mem_brk s).
  { intros x Hx. apply Hin in Hx. destruct Hx as [Hx|Hx].
    - pose proof (seg_free_bounds _ _ _ _ S1 Hx). unfold r. lia.
    - pose proof (seg_free_bounds _ _ _ _ S3 Hx). lia. }
  assert (Hf1 : flist s1 fl).
  { apply flist_retag; auto; intros x Hx; destruct (Hz x Hx); lia. }
  assert (Hsub1 : forall x, In x (r :: fl) ->
             In x (free_addrs (first_block s1) (l1 ++ (tot, false) :: l2))).
  { intros x Hx. change (first_block s1) with (first_block s).
    rewrite free_addrs_app. cbn [free_addrs app]. fold r.
    apply in_or_app. destruct Hx as [<-|Hx]; [right; left; reflexivity|].
    apply Hin in Hx. destruct Hx as [Hx|Hx]; [left; exact Hx|].
    right. right. exact Hx. }
  assert (Hrn : ~ In r fl).
  { intros Hx. destruct (Hz r Hx). lia. }
  assert (Hd1 : NoDup (r :: fl)) by (constructor; assumption).
  pose proof (free_nodes_ok _ _ _ Ha1 Hsub1) as Hn1.
  destruct (flist_add _ _ _ Hf1 Hn1 Hd1) as [Hrun Hfl].
  exists (add_st r s1).
  split; [|split; [|split]].
  - assert (Htot : tot < 2 ^ 31 - 1) by (unfold first_block in *; lia).
    assert (Hr2 : 2 * W <= r) by (unfold first_block in *; lia).
    assert (Hr3 : r + tot < ptr_mod) by lia.
    assert (V1 : valid s (r - W) 4 = true)
      by (apply valid_true; unfold first_block in *; lia).
    assert (V2 : valid s (r + tot - 2 * W) 4 = true)
      by (apply valid_true; unfold first_block in *; lia).
    assert (Ht4 : 4 * W <= tot) by lia.
    rewrite (retag_run s r tot 0 false _ (PACK_0 tot) M2 Ht4 Htot Hr2 Hr3 V1 V2).
    fold s1. step Hrun. reflexivity.
  - constructor; auto.
    + apply arena_add_st; auto.
      * apply Hsub1. left. reflexivity.
      * destruct (flist_hd_in _ _ Hf1) as [?|H]; [auto|right].
        apply Hsub1. right. exact H.
    + intros x. split; [apply Hsub1|].
      change (first_block (add_st r s1)) with (first_block s).
      rewrite free_addrs_app. cbn [free_addrs app In]. fold r.
      rewrite in_app_iff. cbn [In]. rewrite Hin. tauto.
  - apply (same_env_trans _ s1); [apply same_env_retag|apply same_env_add_st].
  - apply (keeps_trans _ _ s1).
    + apply keeps_retag; intros x Hx.
      * apply (arena_payload_tags s1 _ x (r - W) Ha1 Hx).
        unfold arena_tags. cbn [In]. right. right. right. apply tags_mid_hdr.
      * apply (arena_payload_tags s1 _ x (r + tot - 2 * W) Ha1 Hx).
        unfold arena_tags. cbn [In]. right. right. right. apply tags_mid_ftr.
    + apply keeps_add_st; intros x Hx.
      * apply (arena_payload_node s1 _ x r Ha1 Hx). right.
        apply Hsub1. left. reflexivity.
      * assert (Hh : free_listp s1 = list_end s1 \/
                     In (free_listp s1)
                        (free_addrs (first_block s1) (l1 ++ (tot, false) :: l2))).
        { destruct (flist_hd_in _ _ Hf1) as [?|H]; [auto|right].
          apply Hsub1. right. exact H. }
        pose proof (arena_payload_node s1 _ x _ Ha1 Hx Hh). lia.
Qed.

End CoalesceSteps.

Section CoalesceCases.
Context {mach : Machine}.

Lemma next_run s l1 szb alb szn aln l2 :
  arena s (l1 ++ (szb, alb) :: (szn, aln) :: l2) ->
  let b := first_block s + total l1 in
  NEXT_BLKP b s = Done (b + szb) s /\
  GET_SIZE (HDRP (b + szb)) s = Done szn s.
Proof.
  intros Ha b.
  pose proof (arena_at _ _ _ _ _ Ha) as Hb.
  pose proof (arena_next _ _ _ _ _ Ha) as Hn. cbv zeta in Hn.
  destruct (blk_run _ _ _ _ _ Ha Hb) as (_ & _ & R3 & _).
  destruct (blk_run _ _ _ _ _ Ha Hn) as (Q1 & _).
  auto.
Qed.

Lemma prev_run s l1 szp alp szb alb l2 :
  arena s (l1 ++ (szp, alp) :: (szb, alb) :: l2) ->
  let p := first_block s + total l1 in
  PREV_BLKP (p + szp) s = Done p s /\
  GET_SIZE (HDRP p) s = Done szp s.
Proof.
  pose proof W_pos as HWp.
  intros Ha p.
  pose proof (arena_at _ _ _ _ _ Ha) as Hp. fold p in Hp.
  pose proof (arena_next _ _ _ _ _ Ha) as Hb. cbv zeta in Hb. fold p in Hb.
  destruct (blk_run _ _ _ _ _ Ha Hp) as (Q1 & _).
  pose proof (ba_min _ _ _ _ Hp). pose proof (ba_lo _ _ _ _ Hp).
  pose proof (ba_hi _ _ _ _ Hb). pose proof (ba_min _ _ _ _ Hb).
  destruct (arena_bounds _ _ Ha) as (B1 & B2 & B3 & B4 & B5 & B6).
  split; [|exact Q1].
  replace p with (p + szp - szp) at 2 by lia.
  apply (PREV_BLKP_run _ _ _ _ Ha); try (unfold first_block in *; lia).
  rewrite (ba_ftr _ _ _ _ Hp). apply tag_size. apply (ba_mod _ _ _ _ Hp).
Qed.

(** Membership in the free addresses around a run of free blocks. *)
Lemma free_addrs_around s a l1 mid l2 x :
  seg s a (l1 ++ mid ++ l2) ->
  (In x (free_addrs a (l1 ++ mid ++ l2)) <->
   In x (free_addrs a l1) \/ In x (free_addrs (a + total l1) mid) \/
   In x (free_addrs (a + total l1 + total mid) l2)) /\
  (In x (free_addrs a l1) -> x + 6 * W <= a + total l1) /\
  (In x (free_addrs (a + total l1 + total mid) l2) ->
   a + total l1 + total mid <= x).
Proof.
  intros Hs. apply seg_app in Hs. destruct Hs as [S1 S2].
  apply seg_app in S2. destruct S2 as [S2 S3].
  split; [|split].
  - rewrite !free_addrs_app, !in_app_iff. tauto.
  - intros Hx. apply (seg_free_bounds _ _ _ _ S1 Hx).
  - intros Hx. apply (seg_free_bounds _ _ _ _ S3 Hx).
Qed.

Lemma int_add_ok a b s :
  - 2 ^ 31 <= a + b < 2 ^ 31 -> int_add a b s = Done (a + b) s.
Proof.
  intros H. unfold int_add, Mach.in_int, Mach.int_min, Mach.int_max.
  replace ((- 2 ^ 31 <=? a + b) && (a + b <=? 2 ^ 31 - 1)) with true; [reflexivity|].
  symmetry. apply andb_true_intro. split; apply Z.leb_le; lia.
Qed.

(** Case 2 of the spec's table: only the next neighbour is free. *)
Lemma coalesce_next_frame s l1 szb szn l2 fl :
  let bl := l1 ++ (szb, false) :: (szn, false) :: l2 in
  let b := first_block s + total l1 in
  arena s bl -> flist s fl -> NoDup fl ->
  (forall x, In x fl <-> In x (free_addrs (first_block s) bl) /\ x <> b) ->
  exists s' fl',
    coalesce_cases true false szb b s = Done b s' /\
    WF s' (l1 ++ (szb + szn, false) :: l2) (b :: fl') /\
    same_env s s' /\
    (forall x, In x fl' <-> In x fl /\ x <> b + szb) /\
    keeps (alloc_payload (first_block s) bl) s s'.
Proof.
  pose proof W_pos as HWp.
  intros bl b Ha Hf Hd Hin.
  set (mid := [(szb, false); (szn, false)]).
  assert (Ha' : arena s (l1 ++ mid ++ l2)) by exact Ha.
  destruct (arena_bounds _ _ Ha) as (B1 & B2 & B3 & B4 & B5 & B6).
  destruct (next_run _ _ _ _ _ _ _ Ha) as [R3 Q1]. fold b in R3, Q1.
  pose proof (arena_at _ _ _ _ _ Ha) as Hb. fold b in Hb.
  pose proof (arena_next _ _ _ _ _ Ha) as Hn. cbv zeta in Hn. fold b in Hn.
  pose proof (ba_min _ _ _ _ Hb) as Hbm. pose proof (ba_lo _ _ _ _ Hb) as Hbl.
  pose proof (ba_min _ _ _ _ Hn) as Hnm. pose proof (ba_hi _ _ _ _ Hn) as Hnh.
  assert (Hfa : forall x, In x (free_addrs (first_block s) bl) <->
              In x (free_addrs (first_block s) l1) \/ x = b \/ x = b + szb \/
              In x (free_addrs (b + total mid) l2)).
  { intros x. destruct (free_addrs_around s (first_block s) l1 mid l2 x) as [E _];
      [apply (ar_seg _ _ Ha')|].
    unfold bl. change ((szb, false) :: (szn, false) :: l2) with (mid ++ l2).
    rewrite E. fold b. unfold mid at 1. cbn [free_addrs app In].
    intuition. }
  assert (Hbnd : forall x,
             (In x (free_addrs (first_block s) l1) -> x + 6 * W <= b) /\
             (In x (free_addrs (b + total mid) l2) -> b + total mid <= x)).
  { intros x. destruct (free_addrs_around s (first_block s) l1 mid l2 x) as (_ & E1 & E2);
      [apply (ar_seg _ _ Ha')|]. fold b in E1, E2. auto. }
  assert (Htm : total mid = szb + szn) by (unfold mid; cbn [total]; lia).
  assert (HNin : In (b + szb) fl).
  { apply Hin. split; [|lia]. apply Hfa. auto. }
  assert (Hsub : forall y, In y fl -> In y (free_addrs (first_block s) bl))
    by (intros y Hy; apply Hin; exact Hy).
  destruct (delete_free_frame _ _ _ _ Ha Hf Hd Hsub HNin)
    as (s1 & fl1 & Hdel & Ha1 & Hf1 & Hd1 & Hin1 & He1 & K1).
  pose proof (same_env_first_block _ _ He1) as EF.
  destruct (coalesce_finish_frame s1 l1 mid l2 fl1) as (s' & Hrun & Hwf & He2 & K2); auto.
  { discriminate. }
  { intros x. rewrite Hin1, Hin, Hfa, EF. fold b.
    destruct (Hbnd x) as [H1 H2]. rewrite Htm in *.
    split.
    - intros [[[?|[?|[?|?]]] ?] ?]; auto; lia.
    - intros [H|H]; [specialize (H1 H)|specialize (H2 H)];
        (split; [split|]); auto; lia. }
  rewrite EF in *. fold b in Hrun, Hwf. rewrite Htm in *.
  exists s', fl1.
  split; [|split; [|split; [|split]]]; auto.
  - unfold coalesce_cases. cbn [andb negb].
    step R3. step Q1. cbv zeta. step R3. step Hdel.
    rewrite wrap_small by (unfold first_block in *; lia).
    exact Hrun.
  - apply (same_env_trans _ s1); assumption.
  - apply (keeps_trans _ _ s1); [exact K1|].
    refine (keeps_weaken _ _ _ _ _ K2). intros x Hx.
    pose proof (alloc_payload_merged (first_block s) l1 mid l2 x) as Q.
    rewrite Htm in Q. apply Q; [|exact Hx].
    intros a0 x0. unfold mid. cbn [alloc_payload]. intuition discriminate.
Qed.

(** Case 3 of the spec's table: only the previous neighbour is free. *)
Lemma coalesce_prev_frame s l1 szp szb l2 fl :
  let bl := l1 ++ (szp, false) :: (szb, false) :: l2 in
  let p := first_block s + total l1 in
  let b := p + szp in
  arena s bl -> flist s fl -> NoDup fl ->
  (forall x, In x fl <-> In x (free_addrs (first_block s) bl) /\ x <> b) ->
  exists s' fl',
    coalesce_cases false true szb b s = Done p s' /\
    WF s' (l1 ++ (szp + szb, false) :: l2) (p :: fl') /\
    same_env s s' /\
    (forall x, In x fl' <-> In x fl /\ x <> p) /\
    keeps (alloc_payload (first_block s) bl) s s'.
Proof.
  pose proof W_pos as HWp.
  intros bl p b Ha Hf Hd Hin.
  set (mid := [(szp, false); (szb, false)]).
  assert (Ha' : arena s (l1 ++ mid ++ l2)) by exact Ha.
  destruct (arena_bounds _ _ Ha) as (B1 & B2 & B3 & B4 & B5 & B6).
  destruct (prev_run _ _ _ _ _ _ _ Ha) as [R3 Q1]. fold p in R3, Q1. fold b in R3.
  pose proof (arena_at _ _ _ _ _ Ha) as Hp. fold p in Hp.
  pose proof (arena_next _ _ _ _ _ Ha) as Hb. cbv zeta in Hb. fold p b in Hb.
  pose proof (ba_min _ _ _ _ Hp) as Hpm. pose proof (ba_lo _ _ _ _ Hp) as Hpl.
  pose proof (ba_min _ _ _ _ Hb) as Hbm. pose proof (ba_hi _ _ _ _ Hb) as Hbh.
  assert (Hfa : forall x, In x (free_addrs (first_block s) bl) <->
              In x (free_addrs (first_block s) l1) \/ x = p \/ x = b \/
              In x (free_addrs (p + total mid) l2)).
  { intros x. destruct (free_addrs_around s (first_block s) l1 mid l2 x) as [E _];
      [apply (ar_seg _ _ Ha')|].
    unfold bl. change ((szp, false) :: (szb, false) :: l2) with (mid ++ l2).
    rewrite E. fold p. unfold mid at 1. cbn [free_addrs app In]. fold b.
    intuition. }
  assert (Hbnd : forall x,
             (In x (free_addrs (first_block s) l1) -> x + 6 * W <= p) /\
             (In x (free_addrs (p + total mid) l2) -> p + total mid <= x)).
  { intros x. destruct (free_addrs_around s (first_block s) l1 mid l2 x) as (_ & E1 & E2);
      [apply (ar_seg _ _ Ha')|]. fold p in E1, E2. auto. }
  assert (Htm : total mid = szp + szb) by (unfold mid; cbn [total]; lia).
  assert (HPin : In p fl).
  { apply Hin. split; [|unfold b; lia]. apply Hfa. auto. }
  assert (Hsub : forall y, In y fl -> In y (free_addrs (first_block s) bl))
    by (intros y Hy; apply Hin; exact Hy).
  destruct (delete_free_frame _ _ _ _ Ha Hf Hd Hsub HPin)
    as (s1 & fl1 & Hdel & Ha1 & Hf1 & Hd1 & Hin1 & He1 & K1).
  pose proof (same_env_first_block _ _ He1) as EF.
  destruct (coalesce_finish_frame s1 l1 mid l2 fl1) as (s' & Hrun & Hwf & He2 & K2); auto.
  { discriminate. }
  { intros x. rewrite Hin1, Hin, Hfa, EF. fold p.
    destruct (Hbnd x) as [H1 H2]. rewrite Htm in *.
    split.
    - intros [[[?|[?|[?|?]]] ?] ?]; auto; lia.
    - intros [H|H]; [specialize (H1 H)|specialize (H2 H)];
        (split; [split|]); auto; unfold b; lia. }
  rewrite EF in *. fold p in Hrun, Hwf. rewrite Htm in *.
  exists s', fl1.
  split; [|split; [|split; [|split]]]; auto.
  - unfold coalesce_cases. cbn [andb negb].
    step R3. step Q1. cbv zeta. step R3. step Hdel.
    rewrite wrap_small by (unfold first_block, b in *; lia).
    replace (szb + szp) with (szp + szb) by lia.
    exact Hrun.
  - apply (same_env_trans _ s1); assumption.
  - apply (keeps_trans _ _ s1); [exact K1|].
    refine (keeps_weaken _ _ _ _ _ K2). intros x Hx.
    pose proof (alloc_payload_merged (first_block s) l1 mid l2 x) as Q.
    rewrite Htm in Q. apply Q; [|exact Hx].
    intros a0 x0. unfold mid. cbn [alloc_payload]. intuition discriminate.
Qed.

End CoalesceCases.

Section CoalesceBoth.
Context {mach : Machine}.

(** Case 4 of the spec's table: both neighbours are free. *)
Lemma coalesce_both_frame s l1 szp szb szn l2 fl :
  let bl := l1 ++ (szp, false) :: (szb, false) :: (szn, false) :: l2 in
  let p := first_block s + total l1 in
  let b := p + szp in
  arena s bl -> flist s fl -> NoDup fl ->
  (forall x, In x fl <-> In x (free_addrs (first_block s) bl) /\ x <> b) ->
  exists s' fl',
    coalesce_cases false false szb b s = Done p s' /\
    WF s' (l1 ++ (szp + szb + szn, false) :: l2) (p :: fl') /\
    same_env s s' /\
    (forall x, In x fl' <-> In x fl /\ x <> p /\ x <> b + szb) /\
    keeps (alloc_payload (first_block s) bl) s s'.
Proof.
  pose proof W_pos as HWp.
  intros bl p b Ha Hf Hd Hin.
  set (mid := [(szp, false); (szb, false); (szn, false)]).
  assert (Ha' : arena s (l1 ++ mid ++ l2)) by exact Ha.
  assert (HaN : arena s ((l1 ++ [(szp, false)]) ++ (szb, false) :: (szn, false) :: l2))
    by (rewrite <- app_assoc; exact Ha).
  assert (Etl : first_block s + total (l1 ++ [(szp, false)]) = b)
    by (rewrite total_app; cbn [total]; unfold b, p; lia).
  destruct (arena_bounds _ _ Ha) as (B1 & B2 & B3 & B4 & B5 & B6).
  destruct (prev_run _ _ _ _ _ _ _ Ha) as [R3 Q1]. fold p in R3, Q1. fold b in R3.
  destruct (next_run _ _ _ _ _ _ _ HaN) as [R4 Q2]. rewrite Etl in R4, Q2.
  pose proof (arena_at _ _ _ _ _ Ha) as Hp. fold p in Hp.
  pose proof (arena_next _ _ _ _ _ HaN) as Hn. cbv zeta in Hn. rewrite Etl in Hn.
  pose proof (ba_min _ _ _ _ Hp) as Hpm. pose proof (ba_lo _ _ _ _ Hp) as Hpl.
  pose proof (ba_min _ _ _ _ Hn) as Hnm. pose proof (ba_hi _ _ _ _ Hn) as Hnh.
  pose proof (arena_at _ _ _ _ _ HaN) as Hb. rewrite Etl in Hb.
  pose proof (ba_min _ _ _ _ Hb) as Hbm.
  assert (Hfa : forall x, In x (free_addrs (first_block s) bl) <->
              In x (free_addrs (first_block s) l1) \/ x = p \/ x = b \/
              x = b + szb \/ In x (free_addrs (p + total mid) l2)).
  { intros x. destruct (free_addrs_around s (first_block s) l1 mid l2 x) as [E _];
      [apply (ar_seg _ _ Ha')|].
    unfold bl.
    change ((szp, false) :: (szb, false) :: (szn, false) :: l2) with (mid ++ l2).
    rewrite E. fold p. unfold mid at 1. cbn [free_addrs app In]. fold b.
    intuition. }
  assert (Hbnd : forall x,
             (In x (free_addrs (first_block s) l1) -> x + 6 * W <= p) /\
             (In x (free_addrs (p + total mid) l2) -> p + total mid <= x)).
  { intros x. destruct (free_addrs_around s (first_block s) l1 mid l2 x) as (_ & E1 & E2);
      [apply (ar_seg _ _ Ha')|]. fold p in E1, E2. auto. }
  assert (Htm : total mid = szp + szb + szn) by (unfold mid; cbn [total]; lia).
  assert (HPin : In p fl).
  { apply Hin. split; [|unfold b; lia]. apply Hfa. auto. }
  assert (Hsub : forall y, In y fl -> In y (free_addrs (first_block s) bl))
    by (intros y Hy; apply Hin; exact Hy).
  (* delete(PREV_BLKP(bp)) *)
  destruct (delete_free_frame _ _ _ _ Ha Hf Hd Hsub HPin)
    as (s1 & fl1 & Hdel1 & Ha1 & Hf1 & Hd1 & Hin1 & He1 & K1).
  pose proof (same_env_first_block _ _ He1) as EF1.
  assert (HaN1 : arena s1 ((l1 ++ [(szp, false)]) ++ (szb, false) :: (szn, false) :: l2))
    by (rewrite <- app_assoc; exact Ha1).
  destruct (next_run _ _ _ _ _ _ _ HaN1) as [R4' _]. rewrite EF1, Etl in R4'.
  (* delete(NEXT_BLKP(bp)) *)
  assert (HNin1 : In (b + szb) fl1).
  { apply Hin1. split; [|unfold b; lia]. apply Hin. split; [|lia].
    apply Hfa. auto. }
  assert (Hsub1 : forall y, In y fl1 -> In y (free_addrs (first_block s1) bl)).
  { intros y Hy. rewrite EF1. apply Hsub. apply Hin1. exact Hy. }
  destruct (delete_free_frame _ _ _ _ Ha1 Hf1 Hd1 Hsub1 HNin1)
    as (s2 & fl2 & Hdel2 & Ha2 & Hf2 & Hd2 & Hin2 & He2 & K2).
  rewrite EF1 in K2.
  pose proof (same_env_trans _ _ _ He1 He2) as He12.
  pose proof (same_env_first_block _ _ He12) as EF2.
  destruct (prev_run _ _ _ _ _ _ _ Ha2) as [R3' _]. rewrite EF2 in R3'.
  fold p in R3'. fold b in R3'.
  destruct (coalesce_finish_frame s2 l1 mid l2 fl2) as (s' & Hrun & Hwf & He3 & K3); auto.
  { discriminate. }
  { intros x. rewrite Hin2, Hin1, Hin, Hfa, EF2. fold p.
    destruct (Hbnd x) as [H1 H2]. rewrite Htm in *.
    split.
    - intros [[[[?|[?|[?|[?|?]]]] ?] ?] ?]; auto; lia.
    - intros [H|H]; [specialize (H1 H)|specialize (H2 H)];
        (split; [split; [split|]|]); auto; unfold b; lia. }
  rewrite EF2 in *. fold p in Hrun, Hwf. rewrite Htm in *.
  exists s', fl2.
  split; [|split; [|split; [|split]]]; auto.
  - unfold coalesce_cases. cbn [andb negb].
    step R3. step Q1. step R4. step Q2.
    assert (Hadd : int_add szp szn s = Done (szp + szn) s)
      by (apply int_add_ok; unfold first_block, b, p in *; lia).
    step Hadd. cbv zeta. step R3. step Hdel1. step R4'. step Hdel2. step R3'.
    rewrite wrap_small by (unfold first_block, b in *; lia).
    replace (szb + (szp + szn)) with (szp + szb + szn) by lia.
    exact Hrun.
  - apply (same_env_trans _ s2); assumption.
  - intros x. rewrite Hin2, Hin1. tauto.
  - apply (keeps_trans _ _ s1); [exact K1|].
    apply (keeps_trans _ _ s2); [exact K2|].
    refine (keeps_weaken _ _ _ _ _ K3). intros x Hx.
    pose proof (alloc_payload_merged (first_block s) l1 mid l2 x) as Q.
    rewrite Htm in Q. apply Q; [|exact Hx].
    intros a0 x0. unfold mid. cbn [alloc_payload]. intuition discriminate.
Qed.

(** *** The specification of [coalesce] *)

(** [coalesce] on a block whose tags say free and which is not on the
    list yet: the run of free blocks around it becomes one block at the
    head of the list. *)
Lemma coalesce_spec_frame s l1 szb l2 fl :
  let bl := l1 ++ (szb, false) :: l2 in
  let b := first_block s + total l1 in
  let r := b - snd (merge_prev l1) in
  arena s bl -> flist s fl -> NoDup fl ->
  (forall x, In x fl <-> In x (free_addrs (first_block s) bl) /\ x <> b) ->
  exists s' fl',
    coalesce b s = Done r s' /\
    WF s' (coalesce_blocks l1 szb l2) (r :: fl') /\
    same_env s s' /\
    (forall x, In x fl' <-> In x fl /\ x <> r /\ x <> b + szb) /\
    keeps (alloc_payload (first_block s) bl) s s'.
Proof.
  pose proof W_pos as HWp.
  intros bl b r Ha Hf Hd Hin. subst r.
  destruct (coalesce_phase1 _ _ _ _ Ha) as (PA & NA & Erun & HPA & HNA).
  fold b in Erun. rewrite Erun. unfold coalesce_blocks.
  assert (Hnb : ~ In b fl) by (intros H; apply Hin in H; tauto).
  assert (HnN : NA = true -> ~ In (b + szb) fl).
  { intros -> H. apply Hin in H. destruct H as [H _].
    apply (next_not_free s) in H; [|apply (ar_seg _ _ Ha)].
    apply HNA in H. discriminate. }
  pose proof (arena_at _ _ _ _ _ Ha) as Hb. fold b in Hb.
  pose proof (ba_min _ _ _ _ Hb) as Hbm.
  destruct PA, NA.
  - (* no merge *)
    rewrite merge_prev_none, merge_next_none
      by (intros H; first [apply HPA in H | apply HNA in H]; discriminate).
    cbn [fst snd]. rewrite Z.sub_0_r.
    replace (0 + szb + 0) with szb by lia.
    destruct (coalesce_none _ _ _ _ _ Ha Hf Hd Hin) as [Hrun Hwf].
    fold b in Hrun, Hwf. exists (add_st b s), fl.
    split; [exact Hrun|]. split; [exact Hwf|].
    split; [apply same_env_add_st|]. split.
    { intros x. specialize (HnN eq_refl). split; [|tauto].
      intros Hx. repeat split; auto; intros ->; contradiction. }
    apply keeps_add_st; intros x Hx.
    + apply (arena_payload_node s bl x b Ha Hx). right. apply free_addrs_mid.
    + assert (Hh : free_listp s = list_end s \/
                   In (free_listp s) (free_addrs (first_block s) bl)).
      { destruct (flist_hd_in _ _ Hf) as [?|H]; [auto|right]. apply Hin. exact H. }
      pose proof (arena_payload_node s bl x _ Ha Hx Hh). lia.
  - (* next *)
    destruct (proj1 HNA eq_refl) as (szn & l2' & ->).
    rewrite merge_prev_none
      by (intros H; apply HPA in H; discriminate).
    cbn [fst snd merge_next]. rewrite Z.sub_0_r.
    destruct (coalesce_next_frame _ _ _ _ _ _ Ha Hf Hd Hin)
      as (s' & fl' & Hrun & Hwf & He & Hr & K).
    fold b in Hrun, Hwf, Hr. exists s', fl'.
    replace (0 + szb + szn) with (szb + szn) by lia.
    split; [exact Hrun|]. split; [exact Hwf|]. split; [exact He|].
    split; [|exact K].
    intros x. rewrite Hr. split; [|tauto].
    intros [Hx ?]. repeat split; auto. intros ->. contradiction.
  - (* prev *)
    destruct (proj1 HPA eq_refl) as (l1' & szp & ->).
    rewrite merge_prev_free, merge_next_none
      by (intros H; apply HNA in H; discriminate).
    cbn [fst snd].
    assert (Eb : b = first_block s + total l1' + szp)
      by (unfold b; rewrite total_app; cbn [total]; lia).
    unfold bl in *. rewrite <- app_assoc in Ha, Hin. cbn [app] in Ha, Hin.
    rewrite Eb in *.
    destruct (coalesce_prev_frame _ _ _ _ _ _ Ha Hf Hd Hin)
      as (s' & fl' & Hrun & Hwf & He & Hr & K).
    exists s', fl'.
    replace (first_block s + total l1' + szp - szp) with (first_block s + total l1') by lia.
    replace (szp + szb + 0) with (szp + szb) by lia.
    split; [exact Hrun|]. split; [exact Hwf|]. split; [exact He|].
    split; [|rewrite <- app_assoc; exact K].
    intros x. rewrite Hr. specialize (HnN eq_refl). split; [|tauto].
    intros [Hx ?]. repeat split; auto. intros ->. contradiction.
  - (* both *)
    destruct (proj1 HPA eq_refl) as (l1' & szp & ->).
    destruct (proj1 HNA eq_refl) as (szn & l2' & ->).
    rewrite merge_prev_free. cbn [fst snd merge_next].
    assert (Eb : b = first_block s + total l1' + szp)
      by (unfold b; rewrite total_app; cbn [total]; lia).
    unfold bl in *. rewrite <- app_assoc in Ha, Hin. cbn [app] in Ha, Hin.
    rewrite Eb in *.
    destruct (coalesce_both_frame _ _ _ _ _ _ _ Ha Hf Hd Hin)
      as (s' & fl' & Hrun & Hwf & He & Hr & K).
    exists s', fl'.
    replace (first_block s + total l1' + szp - szp) with (first_block s + total l1') by lia.
    split; [exact Hrun|]. split; [exact Hwf|]. split; [exact He|].
    split; [exact Hr|]. rewrite <- app_assoc. exact K.
Qed.


End CoalesceBoth.

Section Place.
Context {mach : Machine}.

Lemma NEXT_BLKP_tag s bp sz al :
  valid s (bp - W) 4 = true -> rd_int s (bp - W) = tag sz al ->
  sz mod 8 = 0 -> 0 <= sz -> W <= bp -> bp + sz < ptr_mod ->
  NEXT_BLKP bp s = Done (bp + sz) s.
Proof.
  pose proof W_pos as HWp.
  intros V E Hm H0 H1 H2. unfold NEXT_BLKP. rewrite HDRP_eq by lia.
  step (GET_SIZE_tag _ _ _ _ V E Hm). unfold ret.
  rewrite wrap_small by lia. reflexivity.
Qed.

(** The tags after a split, read off the final state. *)
Lemma arena_split s s' l1 c l2 a :
  let bl := l1 ++ (c, false) :: l2 in
  let bp := first_block s + total l1 in
  arena s bl -> same_env s s' ->
  6 * W <= a -> a mod 8 = 0 -> 6 * W <= c - a ->
  (forall t, In t (arena_tags s bl) -> t <> bp - W -> t <> bp + c - 2 * W ->
             rd_int s' t = rd_int s t) ->
  rd_int s' (bp - W) = tag a true ->
  rd_int s' (bp + a - 2 * W) = tag a true ->
  rd_int s' (bp + a - W) = tag (c - a) false ->
  rd_int s' (bp + c - 2 * W) = tag (c - a) false ->
  arena s' (l1 ++ (a, true) :: (c - a, false) :: l2).
Proof.
  pose proof W_pos as HWp.
  intros bl bp Ha He Ha1 Ha2 Hca Hfr T1 T2 T3 T4.
  destruct (arena_bounds _ _ Ha) as (B1 & B2 & B3 & B4 & B5 & B6).
  pose proof (same_env_first_block _ _ He) as EF.
  pose proof (same_env_list_end _ _ He) as ET.
  destruct He as (El & Eb & _).
  pose proof (arena_at _ _ _ _ _ Ha) as Hb. fold bp in Hb.
  pose proof (ba_mod _ _ _ _ Hb) as Hcm.
  destruct Ha as [H1 H2 H3 H4 H5 H6 H7 H8].
  apply seg_app in H5. destruct H5 as [S1 S2].
  cbn [seg] in S2. destruct S2 as (_ & _ & _ & _ & S3). fold bp in S3.
  pose proof (seg_total_nonneg _ _ _ S1) as Tl1.
  pose proof (seg_total_nonneg _ _ _ S3) as Tl2.
  unfold bl in H2. rewrite total_app in H2. cbn [total] in H2.
  assert (Hin1 : forall t, In t (tags (first_block s) l1) -> In t (arena_tags s bl)).
  { intros t Ht. unfold arena_tags, bl. rewrite tags_app. cbn [In].
    right. right. right. apply in_or_app. auto. }
  assert (Hin2 : forall t, In t (tags (bp + c) l2) -> In t (arena_tags s bl)).
  { intros t Ht. unfold arena_tags, bl. rewrite tags_app. cbn [In tags].
    right. right. right. apply in_or_app. right. fold bp. cbn [In]. auto. }
  constructor; rewrite ?EF, ?ET, ?El, ?Eb; auto.
  - rewrite total_app. cbn [total]. lia.
  - apply seg_app. split; [|cbn [seg]; fold bp].
    + apply (seg_frame s); auto. intros t Ht.
      pose proof (seg_tags_bounds _ _ _ _ S1 Ht).
      apply Hfr; [auto|unfold bp|unfold bp].
      all: lia.
    + assert (X : bp + a + (c - a) = bp + c) by lia.
      rewrite X.
      repeat split; auto; try lia.
      * Z.div_mod_to_equations; lia.
      * apply (seg_frame s); auto. intros t Ht.
        pose proof (seg_tags_bounds _ _ _ _ S3 Ht).
        apply Hfr; [auto|lia|lia].
  - rewrite Hfr; auto.
    + unfold arena_tags. cbn [In]. auto.
    + unfold bp, first_block in *. lia.
    + unfold bp, first_block in *. lia.
  - rewrite Hfr; auto.
    + unfold arena_tags. cbn [In]. auto.
    + unfold bp. lia.
    + unfold bp. lia.
  - rewrite Hfr; auto.
    + unfold arena_tags. cbn [In]. auto.
    + unfold bp, list_end, first_block in *. lia.
    + unfold bp, list_end, first_block in *. lia.
Qed.

(** Where the arena's tag words lie with respect to one block. *)
Lemma arena_tags_around s l1 c al l2 t :
  let bp := first_block s + total l1 in
  arena s (l1 ++ (c, al) :: l2) ->
  In t (arena_tags s (l1 ++ (c, al) :: l2)) ->
  t + 4 <= bp - W \/ t = bp - W \/ t = bp + c - 2 * W \/ bp + c - W <= t.
Proof.
  pose proof W_pos as HWp.
  intros bp Ha Ht.
  destruct (arena_bounds _ _ Ha) as (B1 & B2 & B3 & B4 & B5 & B6).
  pose proof (ar_seg _ _ Ha) as Hs.
  apply seg_app in Hs. destruct Hs as [S1 S2].
  cbn [seg] in S2. destruct S2 as (Hc & _ & _ & _ & S3). fold bp in S3.
  pose proof (seg_total_nonneg _ _ _ S1) as Tl1.
  pose proof (seg_total_nonneg _ _ _ S3) as Tl2.
  pose proof (ar_brk _ _ Ha) as Hbrk. rewrite total_app in Hbrk.
  cbn [total] in Hbrk.
  unfold arena_tags in Ht. rewrite tags_app in Ht. cbn [In tags] in Ht.
  fold bp in Ht.
  destruct Ht as [<-|[<-|[<-|Ht]]].
  - right. right. right. unfold bp. lia.
  - left. unfold bp. lia.
  - left. unfold bp, list_end, first_block. lia.
  - apply in_app_or in Ht. cbn [In] in Ht. destruct Ht as [Ht|[<-|[<-|Ht]]]; auto.
    + pose proof (seg_tags_bounds _ _ _ _ S1 Ht). left. unfold bp. lia.
    + pose proof (seg_tags_bounds _ _ _ _ S3 Ht). right. right. right. lia.
Qed.

(** [place] on a free block of a well-formed heap. *)
Lemma place_spec_frame s l1 c l2 fl a :
  let bl := l1 ++ (c, false) :: l2 in
  let bp := first_block s + total l1 in
  WF s bl fl -> 6 * W <= a -> a mod 8 = 0 -> a <= c ->
  exists s' fl',
    place bp a s = Done tt s' /\
    WF s' (place_blocks l1 c l2 a) fl' /\ same_env s s' /\
    keeps (alloc_payload (first_block s) bl) s s'.
Proof.
  pose proof W_pos as HWp.
  intros bl bp [Ha Hf Hd Hin] Ha1 Ha2 Hac.
  destruct (arena_bounds _ _ Ha) as (B1 & B2 & B3 & B4 & B5 & B6).
  pose proof (arena_at _ _ _ _ _ Ha) as Hb. fold bp in Hb.
  destruct (blk_run _ _ _ _ _ Ha Hb) as (R1 & _).
  destruct (blk_valid _ _ _ _ _ Ha Hb) as (V1 & V2 & V3 & V4 & V5 & V6 & V7).
  pose proof (ba_mod _ _ _ _ Hb) as Hcm. pose proof (ba_lo _ _ _ _ Hb) as Hlo.
  pose proof (ba_hi _ _ _ _ Hb) as Hhi. pose proof (ba_min _ _ _ _ Hb) as Hcmin.
  pose proof (ar_seg _ _ Ha) as Hs.
  apply seg_app in Hs. destruct Hs as [S1 S2].
  cbn [seg] in S2. destruct S2 as (_ & _ & _ & _ & S3). fold bp in S3.
  assert (Hfa : forall x, In x (free_addrs (first_block s) bl) <->
              In x (free_addrs (first_block s) l1) \/ x = bp \/
              In x (free_addrs (bp + c) l2)).
  { intros x. unfold bl. rewrite free_addrs_app, in_app_iff.
    cbn [free_addrs app In]. fold bp. intuition. }
  assert (Hb1 : forall x, In x (free_addrs (first_block s) l1) -> x + 6 * W <= bp).
  { intros x Hx. apply (seg_free_bounds _ _ _ _ S1 Hx). }
  assert (Hb2 : forall x, In x (free_addrs (bp + c) l2) -> bp + c <= x).
  { intros x Hx. apply (seg_free_bounds _ _ _ _ S3 Hx). }
  assert (Hpos : forall x, In x fl -> x <> bp -> x + 6 * W <= bp \/ bp + c <= x).
  { intros x Hx Hne. apply Hin, Hfa in Hx. destruct Hx as [Hx|[Hx|Hx]]; auto.
    contradiction. }
  assert (Hsub : forall x, In x fl -> In x (free_addrs (first_block s) bl))
    by (intros x Hx; apply Hin; exact Hx).
  pose proof (free_nodes_ok _ _ _ Ha Hsub) as Hn.
  assert (Hbp : In bp fl) by (apply Hin, Hfa; auto).
  assert (Hend : list_end s + 10 * W <= bp)
    by (unfold list_end, first_block in *; lia).
  assert (HP : forall x, alloc_payload (first_block s) bl x ->
             (x + 2 * W < bp \/ bp + c <= x) /\
             forall f, f = list_end s \/ In f (free_addrs (first_block s) bl) ->
                       x < f \/ f + 3 * W <= x).
  { intros x Hx. split.
    - unfold bl in Hx. apply alloc_payload_app in Hx. cbn [alloc_payload] in Hx.
      fold bp in Hx.
      destruct Hx as [Hx|[[Hx _]|Hx]]; [|discriminate|].
      + pose proof (alloc_payload_bounds _ _ _ _ S1 Hx). unfold bp. lia.
      + pose proof (alloc_payload_bounds _ _ _ _ S3 Hx). lia.
    - intros f Hf'. apply (arena_payload_node s bl x f Ha Hx Hf'). }
  assert (HPd : forall p n,
             (p = 0 \/ In p fl /\ p <> bp) ->
             (n = list_end s \/ In n fl /\ n <> bp) ->
             forall t, keeps (alloc_payload (first_block s) bl) t (delete_st p n t)).
  { intros p n Hp Hnx t. apply keeps_delete_st.
    - intros x Hx. destruct (HP x Hx) as [_ H].
      assert (Hn' : n = list_end s \/ In n (free_addrs (first_block s) bl))
        by (destruct Hnx as [?|[Hnx _]]; auto).
      specialize (H n Hn'). lia.
    - destruct Hp as [?|[Hp _]]; [auto|right]. intros x Hx.
      destruct (HP x Hx) as [_ H]. specialize (H p (or_intror (Hsub _ Hp))). lia. }
  unfold place. step R1. cbv zeta.
  rewrite (wrap_small c) by lia. rewrite (wrap_small (c - a)) by lia.
  unfold MINIMUM, WSIZE, place_blocks.
  destruct (6 * W <=? c - a) eqn:E.
  - (* split *)
    apply Z.leb_le in E.
    assert (Hcam : (c - a) mod 8 = 0) by (Z.div_mod_to_equations; lia).
    set (s1 := retag bp a true s).
    assert (Va : valid s (bp + a - 2 * W) 4 = true)
      by (apply valid_true; unfold first_block in *; lia).
    assert (A1 : 4 * W <= a) by lia.
    assert (A2 : a < 2 ^ 31 - 1) by lia.
    assert (A3 : 2 * W <= bp) by lia.
    assert (A4 : bp + a < ptr_mod) by lia.
    rewrite (retag_run s bp a 1 true _ (PACK_1 a Ha2) Ha2 A1 A2 A3 A4 V4 Va).
    fold s1.
    assert (He1 : same_env s s1) by apply same_env_retag.
    assert (Hf1 : flist s1 fl).
    { apply flist_retag; auto; intros x Hx;
        destruct (Z.eq_dec x bp) as [->|Hne]; try lia;
        destruct (Hpos x Hx Hne); lia. }
    pose proof (nodes_ok_env _ _ _ He1 Hn) as Hn1.
    destruct (flist_delete_in _ _ _ Hf1 Hn1 Hd Hbp)
      as (p & n & fl1 & Hp & Hnx & _ & _ & Hdel & Hfl1 & Hd1 & Hin1).
    change (list_end s1) with (list_end s) in Hnx.
    set (s2 := delete_st p n s1) in *.
    assert (He2 : same_env s1 s2) by apply same_env_delete_st.
    assert (Hpp : p = 0 \/ p + 6 * W <= bp \/ bp + c <= p).
    { destruct Hp as [?|[Hp Hne]]; [auto|right; apply Hpos; auto]. }
    assert (Hnn : n + 2 * W <= bp \/ bp + c <= n).
    { destruct Hnx as [->|[Hnx Hne]]; [left; lia|].
      destruct (Hpos n Hnx Hne); [left|right]; lia. }
    assert (Hd2 : forall t, bp - W <= t -> t + 4 <= bp + c ->
                  rd_int s2 t = rd_int s1 t).
    { intros t H1 H2. apply rd_int_delete_st.
      - destruct Hpp as [?|[?|?]]; auto; right; lia.
      - destruct Hnn; lia. }
    assert (Hh2 : rd_int s2 (bp - W) = tag a true).
    { rewrite Hd2 by lia. apply rd_int_retag_hdr; lia. }
    assert (He12 : same_env s s2) by (apply (same_env_trans _ s1); auto).
    assert (Vh2 : valid s2 (bp - W) 4 = true)
      by (rewrite (valid_same_env _ _ _ _ He12); exact V4).
    step Hdel.
    assert (A5 : 0 <= a) by lia.
    assert (A6 : W <= bp) by lia.
    step (NEXT_BLKP_tag s2 bp a true Vh2 Hh2 Ha2 A5 A6 A4).
    set (R := bp + a).
    assert (VR1 : valid s2 (R - W) 4 = true)
      by (rewrite (valid_same_env _ _ _ _ He12); apply valid_true;
          unfold R, first_block in *; lia).
    assert (VR2 : valid s2 (R + (c - a) - 2 * W) 4 = true)
      by (rewrite (valid_same_env _ _ _ _ He12); apply valid_true;
          unfold R, first_block in *; lia).
    assert (C1 : 4 * W <= c - a) by lia.
    assert (C2 : c - a < 2 ^ 31 - 1) by lia.
    assert (C3 : 2 * W <= R) by (unfold R; lia).
    assert (C4 : R + (c - a) < ptr_mod) by (unfold R; lia).
    rewrite (retag_run s2 R (c - a) 0 false _ (PACK_0 (c - a)) Hcam
               C1 C2 C3 C4 VR1 VR2).
    set (s3 := retag R (c - a) false s2).
    assert (He3 : same_env s s3).
    { apply (same_env_trans _ s2); auto. apply same_env_retag. }
    pose proof (same_env_first_block _ _ He3) as EF3.
    assert (Ha3 : arena s3 (l1 ++ (a, true) :: (c - a, false) :: l2)).
    { apply (arena_split s s3 l1 c l2 a); auto; fold bp.
      - intros t Ht N1 N2.
        destruct (arena_tags_around _ _ _ _ _ _ Ha Ht) as [H|[H|[H|H]]];
          fold bp in H; try contradiction.
        + unfold s3. rewrite rd_int_retag_other by (unfold R; lia).
          unfold s2. rewrite rd_int_delete_st.
          * unfold s1. apply rd_int_retag_other; lia.
          * destruct Hp as [?|[Hp _]]; auto. right.
            pose proof (arena_tag_free_disjoint _ _ _ _ Ha Ht (Hsub _ Hp)). lia.
          * destruct Hnx as [->|[Hnx _]].
            -- apply (arena_tag_end_disjoint _ _ _ Ha Ht).
            -- pose proof (arena_tag_free_disjoint _ _ _ _ Ha Ht (Hsub _ Hnx)). lia.
        + unfold s3. rewrite rd_int_retag_other by (unfold R; lia).
          unfold s2. rewrite rd_int_delete_st.
          * unfold s1. apply rd_int_retag_other; lia.
          * destruct Hp as [?|[Hp _]]; auto. right.
            pose proof (arena_tag_free_disjoint _ _ _ _ Ha Ht (Hsub _ Hp)). lia.
          * destruct Hnx as [->|[Hnx _]].
            -- apply (arena_tag_end_disjoint _ _ _ Ha Ht).
            -- pose proof (arena_tag_free_disjoint _ _ _ _ Ha Ht (Hsub _ Hnx)). lia.
      - unfold s3. rewrite rd_int_retag_other by (unfold R; lia). exact Hh2.
      - unfold s3. rewrite rd_int_retag_other by (unfold R; lia).
        rewrite Hd2 by lia. apply rd_int_retag_ftr; lia.
      - unfold s3. replace (bp + a - W) with (R - W) by (unfold R; lia).
        apply rd_int_retag_hdr; lia.
      - unfold s3. replace (bp + c - 2 * W) with (R + (c - a) - 2 * W)
          by (unfold R; lia).
        apply rd_int_retag_ftr; lia. }
    assert (Hf3 : flist s3 fl1).
    { apply flist_retag; auto; intros x Hx; apply Hin1 in Hx;
        destruct Hx as [Hx Hne]; destruct (Hpos x Hx Hne); unfold R; lia. }
    assert (ER : R = first_block s3 + total (l1 ++ [(a, true)])).
    { rewrite EF3, total_app. cbn [total]. unfold R, bp. lia. }
    assert (Ha3' : arena s3 ((l1 ++ [(a, true)]) ++ (c - a, false) :: l2))
      by (rewrite <- app_assoc; exact Ha3).
    destruct (coalesce_spec_frame s3 (l1 ++ [(a, true)]) (c - a) l2 fl1)
      as (s4 & fl4 & Hrun & Hwf & He4 & _ & K4); auto.
    { intros x. rewrite <- ER, Hin1, Hin, Hfa, EF3.
      rewrite <- app_assoc. cbn [app].
      rewrite free_addrs_app, in_app_iff. cbn [free_addrs app In]. fold bp.
      replace (bp + a + (c - a)) with (bp + c) by lia. fold R.
      split.
      - intros [[HA|[?|HB]] ?];
          [pose proof (Hb1 x HA)|contradiction|pose proof (Hb2 x HB)];
          split; auto; unfold R; lia.
      - intros [[HA|[?|HB]] ?];
          [pose proof (Hb1 x HA)|congruence|pose proof (Hb2 x HB)];
          split; auto; lia. }
    rewrite <- ER in Hrun. step Hrun. unfold ret.
    eexists _, _. split; [reflexivity|]. split; [exact Hwf|].
    split; [apply (same_env_trans _ s3); assumption|].
    apply (keeps_trans _ _ s1).
    { apply keeps_retag; intros x Hx; destruct (HP x Hx) as [H _]; lia. }
    apply (keeps_trans _ _ s2); [apply HPd; assumption|].
    apply (keeps_trans _ _ s3).
    { apply keeps_retag; intros x Hx; destruct (HP x Hx) as [H _]; unfold R; lia. }
    rewrite EF3 in K4.
    refine (keeps_weaken _ _ _ _ _ K4). intros x Hx.
    unfold bl in Hx. apply alloc_payload_app in Hx.
    rewrite !alloc_payload_app. cbn [alloc_payload] in *.
    rewrite total_app. cbn [total].
    destruct Hx as [Hx|[[Hx _]|Hx]];
      [left; left; exact Hx|discriminate|right; right].
    match goal with |- alloc_payload ?A l2 x =>
      replace A with (first_block s + total l1 + c) by lia end.
    exact Hx.
  - (* no split *)
    apply Z.leb_gt in E.
    set (s1 := retag bp c true s).
    assert (A1 : 4 * W <= c) by lia.
    assert (A3 : 2 * W <= bp) by lia.
    rewrite (retag_run s bp c 1 true _ (PACK_1 c Hcm) Hcm A1 V3 A3 V2 V4 V5).
    fold s1.
    assert (He1 : same_env s s1) by apply same_env_retag.
    assert (Ha1' : arena s1 (l1 ++ (c, true) :: l2)).
    { pose proof (arena_retag s l1 [(c, false)] l2 true Ha) as X.
      cbn [total] in X. replace (c + 0) with c in X by lia.
      apply X. discriminate. }
    assert (Hf1 : flist s1 fl).
    { apply flist_retag; auto; intros x Hx;
        destruct (Z.eq_dec x bp) as [->|Hne]; try lia;
        destruct (Hpos x Hx Hne); lia. }
    pose proof (nodes_ok_env _ _ _ He1 Hn) as Hn1.
    destruct (flist_delete_in _ _ _ Hf1 Hn1 Hd Hbp)
      as (p & n & fl1 & Hp & Hnx & _ & _ & Hdel & Hfl1 & Hd1 & Hin1).
    assert (Hsub1 : forall x, In x fl -> x <> bp ->
              In x (free_addrs (first_block s1) (l1 ++ (c, true) :: l2))).
    { intros x Hx Hne. change (first_block s1) with (first_block s).
      rewrite free_addrs_app, in_app_iff. cbn [free_addrs app]. fold bp.
      apply Hin, Hfa in Hx. destruct Hx as [?|[?|?]]; auto. contradiction. }
    assert (He12 : same_env s (delete_st p n s1)).
    { apply (same_env_trans _ s1); auto. apply same_env_delete_st. }
    pose proof (same_env_first_block _ _ He12) as EF2.
    exists (delete_st p n s1), fl1.
    split; [exact Hdel|]. split; [|split; [exact He12|]].
    2:{ apply (keeps_trans _ _ s1); [|apply HPd; assumption].
        apply keeps_retag; intros x Hx; destruct (HP x Hx) as [H _]; lia. }
    constructor; auto.
    + apply arena_delete_st; auto.
      * destruct Hp as [?|[Hp Hne]]; auto.
      * destruct Hnx as [?|[Hnx Hne]]; auto.
    + intros x. rewrite Hin1, EF2.
      split.
      * intros [Hx Hne]. apply (Hsub1 x Hx Hne).
      * rewrite free_addrs_app, in_app_iff. cbn [free_addrs app]. fold bp.
        intros Hx. rewrite Hin, Hfa.
        destruct Hx as [Hx|Hx];
          [pose proof (Hb1 x Hx)|pose proof (Hb2 x Hx)]; split; auto; lia.
Qed.

End Place.

Section FreeSpec.
Context {mach : Machine}.

Lemma merge_prev_cases (l1 : list block) :
  (exists l1' szp, l1 = l1' ++ [(szp, false)] /\ merge_prev l1 = (l1', szp)) \/
  merge_prev l1 = (l1, 0).
Proof.
  destruct (exists_last_or_nil l1) as [->|(l1' & [szp alp] & ->)].
  - right. reflexivity.
  - destruct alp.
    + right. apply merge_prev_none. intros (l1'' & szp' & E).
      apply app_inj_tail in E. destruct E as [_ E]. discriminate.
    + left. exists l1', szp. split; [reflexivity|apply merge_prev_free].
Qed.

Lemma merge_prev_totals l1 :
  total (fst (merge_prev l1)) + snd (merge_prev l1) = total l1 /\
  free_total (fst (merge_prev l1)) + snd (merge_prev l1) = free_total l1 /\
  (length (fst (merge_prev l1)) <= length l1)%nat.
Proof.
  destruct (merge_prev_cases l1) as [(l1' & szp & E1 & E2)|E2]; rewrite E2; cbn [fst snd].
  - subst l1. rewrite total_app, free_total_app, length_app. cbn [total free_total length].
    unfold block in *. repeat split; lia.
  - repeat split; lia.
Qed.

Lemma merge_next_totals l2 :
  fst (merge_next l2) + total (snd (merge_next l2)) = total l2 /\
  fst (merge_next l2) + free_total (snd (merge_next l2)) = free_total l2 /\
  (length (snd (merge_next l2)) <= length l2)%nat.
Proof.
  destruct l2 as [|[szn al] l2]; [cbn; repeat split; lia|].
  destruct al; cbn [merge_next fst snd total free_total length]; repeat split; lia.
Qed.

Lemma coalesce_blocks_totals l1 sz l2 :
  total (coalesce_blocks l1 sz l2) = total l1 + sz + total l2 /\
  free_total (coalesce_blocks l1 sz l2) = free_total l1 + sz + free_total l2 /\
  (length (coalesce_blocks l1 sz l2) <= length l1 + 1 + length l2)%nat.
Proof.
  unfold coalesce_blocks.
  destruct (merge_prev_totals l1) as (A1 & A2 & A3).
  destruct (merge_next_totals l2) as (B1 & B2 & B3).
  rewrite total_app, free_total_app, length_app. cbn [total free_total length].
  unfold block in *. repeat split; lia.
Qed.

(** [mm_free] on an allocated block of a well-formed heap. *)
Lemma mm_free_spec_frame s l1 sz l2 fl :
  let bl := l1 ++ (sz, true) :: l2 in
  let bp := first_block s + total l1 in
  WF s bl fl ->
  exists s' fl',
    mm_free bp s = Done tt s' /\
    WF s' (coalesce_blocks l1 sz l2) fl' /\ same_env s s' /\
    keeps (alloc_payload (first_block s) (l1 ++ (sz, false) :: l2)) s s'.
Proof.
  pose proof W_pos as HWp.
  intros bl bp [Ha Hf Hd Hin].
  destruct (arena_bounds _ _ Ha) as (B1 & B2 & B3 & B4 & B5 & B6).
  pose proof (arena_at _ _ _ _ _ Ha) as Hb. fold bp in Hb.
  destruct (blk_run _ _ _ _ _ Ha Hb) as (R1 & _).
  destruct (blk_valid _ _ _ _ _ Ha Hb) as (V1 & V2 & V3 & V4 & V5 & V6 & V7).
  pose proof (ba_mod _ _ _ _ Hb) as Hcm. pose proof (ba_min _ _ _ _ Hb) as Hcmin.
  pose proof (ar_seg _ _ Ha) as Hs.
  apply seg_app in Hs. destruct Hs as [S1 S2].
  cbn [seg] in S2. destruct S2 as (_ & _ & _ & _ & S3). fold bp in S3.
  set (s1 := retag bp sz false s).
  assert (He1 : same_env s s1) by apply same_env_retag.
  assert (Ha1 : arena s1 (l1 ++ (sz, false) :: l2)).
  { pose proof (arena_retag s l1 [(sz, true)] l2 false Ha) as X.
    cbn [total] in X. replace (sz + 0) with sz in X by lia.
    apply X. discriminate. }
  assert (Hf1 : flist s1 fl).
  { apply flist_retag; auto; intros x Hx; apply Hin in Hx.
    - pose proof (arena_tag_free_disjoint s bl (bp - W) x Ha) as X.
      destruct X; auto; try lia.
      unfold arena_tags. cbn [In]. right. right. right. apply tags_mid_hdr.
    - pose proof (arena_tag_free_disjoint s bl (bp + sz - 2 * W) x Ha) as X.
      destruct X; auto; try lia.
      unfold arena_tags. cbn [In]. right. right. right. apply tags_mid_ftr. }
  destruct (coalesce_spec_frame s1 l1 sz l2 fl)
    as (s2 & fl2 & Hrun & Hwf & He2 & _ & K2); auto.
  { intros x. rewrite Hin. change (first_block s1) with (first_block s).
    unfold bl. rewrite !free_addrs_app, !in_app_iff.
    cbn [free_addrs app In]. fold bp. split.
    - intros [Hx|Hx]; (split; [tauto|]).
      + pose proof (seg_free_bounds _ _ _ _ S1 Hx). lia.
      + pose proof (seg_free_bounds _ _ _ _ S3 Hx). lia.
    - intros [[?|[?|?]] ?]; auto. congruence. }
  change (first_block s1) with (first_block s) in Hrun, Hwf. fold bp in Hrun, Hwf.
  exists s2, (bp - snd (merge_prev l1) :: fl2).
  split; [|split; [exact Hwf|split]].
  - unfold mm_free.
    replace (bp =? NULL) with false
      by (symmetry; apply Z.eqb_neq; unfold NULL; lia).
    step R1. cbv zeta. rewrite wrap_small by lia.
    assert (A1 : 4 * W <= sz) by lia.
    assert (A3 : 2 * W <= bp) by lia.
    rewrite (retag_run s bp sz 0 false _ (PACK_0 sz) Hcm A1 V3 A3 V2 V4 V5).
    fold s1. step Hrun. reflexivity.
  - apply (same_env_trans _ s1); assumption.
  - apply (keeps_trans _ _ s1); [|exact K2].
    apply keeps_retag; intros x Hx.
    + apply (arena_payload_tags s1 _ x (bp - W) Ha1 Hx).
      unfold arena_tags. cbn [In]. right. right. right. apply tags_mid_hdr.
    + apply (arena_payload_tags s1 _ x (bp + sz - 2 * W) Ha1 Hx).
      unfold arena_tags. cbn [In]. right. right. right. apply tags_mid_ftr.
Qed.

(** The same without the frame. *)
Lemma mm_free_spec s l1 sz l2 fl :
  let bl := l1 ++ (sz, true) :: l2 in
  let bp := first_block s + total l1 in
  WF s bl fl ->
  exists s' fl',
    mm_free bp s = Done tt s' /\
    WF s' (coalesce_blocks l1 sz l2) fl' /\ same_env s s'.
Proof.
  intros bl bp Hwf.
  destruct (mm_free_spec_frame s l1 sz l2 fl Hwf) as (s' & fl' & H1 & H2 & H3 & _).
  exists s', fl'. auto.
Qed.

End FreeSpec.

Section Measure.
Context {mach : Machine}.

Lemma zsum_perm l l' : Permutation l l' -> zsum l = zsum l'.
Proof.
  unfold zsum. induction 1; cbn [fold_right] in *; lia.
Qed.

Lemma free_bytes_loop_walk s bp l :
  free_walk s bp l ->
  forall fuel acc, (length l < fuel)%nat ->
  free_bytes_loop fuel bp acc s = Done (acc + zsum (map (blk_size s) l)) s.
Proof.
  induction 1 as [bp a Ha Hnz | bp next l Ha Hn Hw IH]; intros fuel acc Hf.
  - destruct fuel as [|fuel]; [cbn in Hf; lia|].
    cbn [free_bytes_loop]. step Ha.
    apply Z.eqb_neq in Hnz. rewrite Hnz. cbn [map zsum fold_right].
    unfold ret. f_equal. lia.
  - destruct fuel as [|fuel]; [cbn in Hf; lia|].
    cbn [free_bytes_loop]. step Ha. rewrite Z.eqb_refl.
    destruct (GET_ALLOC_inv _ _ _ _ Ha) as (Hv & _ & _).
    step (GET_SIZE_ok _ _ Hv). step Hn.
    rewrite IH by (cbn in Hf; lia).
    cbn [map zsum fold_right]. fold (blk_size s bp). f_equal.
    fold (zsum (map (blk_size s) l)). lia.
Qed.

Lemma blk_size_at s bl b sz al :
  arena s bl -> blk_at s b sz al -> blk_size s b = sz.
Proof.
  intros Ha Hb.
  destruct (blk_run _ _ _ _ _ Ha Hb) as (R1 & _).
  destruct (blk_valid _ _ _ _ _ Ha Hb) as (V1 & V2 & V3 & _).
  pose proof (ba_min _ _ _ _ Hb). pose proof W_pos.
  destruct (GET_SIZE_inv _ _ _ _ R1) as (_ & _ & E).
  unfold blk_size. rewrite <- E. apply wrap_small. lia.
Qed.

Lemma zsum_free_addrs s bl : forall l0,
  arena s (l0 ++ bl) ->
  zsum (map (blk_size s) (free_addrs (first_block s + total l0) bl))
  = free_total bl.
Proof.
  induction bl as [|[sz al] bl IH]; intros l0 Ha; [reflexivity|].
  pose proof (arena_at _ _ _ _ _ Ha) as Hb.
  assert (Ha' : arena s ((l0 ++ [(sz, al)]) ++ bl))
    by (rewrite <- app_assoc; exact Ha).
  specialize (IH _ Ha'). rewrite total_app in IH. cbn [total] in IH.
  replace (first_block s + (total l0 + (sz + 0)))
    with (first_block s + total l0 + sz) in IH by lia.
  cbn [free_addrs free_total].
  destruct al; cbn [app map zsum fold_right]; fold (zsum
    (map (blk_size s) (free_addrs (first_block s + total l0 + sz) bl)));
    rewrite IH; [lia|].
  rewrite (blk_size_at _ _ _ _ _ Ha Hb). reflexivity.
Qed.

(** In a well-formed heap the free list walks as [findFit] expects. *)
Lemma chain_walk s bl : forall fl prev,
  arena s bl ->
  chain s prev fl (list_end s) ->
  (forall x, In x fl -> In x (free_addrs (first_block s) bl)) ->
  free_walk s (hd (list_end s) fl) fl.
Proof.
  pose proof W_pos as HWp.
  induction fl as [|x fl IH]; intros prev Ha Hc Hin; cbn [hd].
  - destruct (arena_bounds _ _ Ha) as (B1 & B2 & B3 & B4 & B5 & B6).
    pose proof (ar_prologue _ _ Ha) as Hp.
    unfold first_block, list_end in *.
    apply (walk_stop _ _ 1); [|lia].
    rewrite HDRP_eq by lia.
    rewrite GET_ALLOC_ok by (apply valid_true; lia).
    rewrite Hp. reflexivity.
  - cbn [chain] in Hc. destruct Hc as (C1 & C2 & C3).
    destruct (free_addrs_split _ _ _ (Hin x (or_introl eq_refl)))
      as (l1 & sz & l2 & E & Ex). subst bl x.
    pose proof (arena_at _ _ _ _ _ Ha) as Hb.
    destruct (blk_run _ _ _ _ _ Ha Hb) as (_ & R2 & _).
    destruct (blk_valid _ _ _ _ _ Ha Hb) as (V1 & V2 & V3 & V4 & V5 & V6 & V7).
    pose proof (ba_min _ _ _ _ Hb) as Hmin.
    apply (walk_step _ _ (hd (list_end s) fl)); [exact R2| |].
    + unfold NEXT_FREEP, DSIZE, WSIZE. rewrite wrap_small by lia.
      rewrite load_ptr_ok by exact V7. rewrite C2. reflexivity.
    + apply (IH _ Ha C3). intros y Hy. apply Hin. right. exact Hy.
Qed.

Lemma WF_walk s bl fl : WF s bl fl -> free_walk s (free_listp s) fl.
Proof.
  intros [Ha [Hh Hc] Hd Hin]. rewrite Hh.
  apply (chain_walk s bl fl NULL Ha Hc). intros x. apply Hin.
Qed.

Lemma WF_length s bl fl : WF s bl fl -> (length fl <= length bl)%nat.
Proof.
  intros [Ha Hf Hd Hin].
  transitivity (length (free_addrs (first_block s) bl)).
  - apply NoDup_incl_length; [exact Hd|]. intros x. apply Hin.
  - clear. generalize (first_block s).
    induction bl as [|[sz al] bl IH]; intros a; cbn [free_addrs length]; [lia|].
    rewrite length_app. specialize (IH (a + sz)).
    destruct al; cbn [length]; unfold block in *; lia.
Qed.

(** The measured free bytes of a well-formed heap. *)
Lemma free_bytes_WF s bl fl fuel :
  WF s bl fl -> (length bl < fuel)%nat ->
  free_bytes fuel s = Done (free_total bl) s.
Proof.
  intros Hwf Hfuel. pose proof (WF_length _ _ _ Hwf) as Hl.
  pose proof (WF_walk _ _ _ Hwf) as Hw.
  destruct Hwf as [Ha Hf Hd Hin].
  unfold free_bytes, get_free_listp, bind.
  rewrite (free_bytes_loop_walk _ _ _ Hw) by lia.
  f_equal. rewrite Z.add_0_l.
  rewrite <- (zsum_free_addrs s bl [] Ha). cbn [total].
  rewrite Z.add_0_r.
  apply zsum_perm, Permutation_map, NoDup_Permutation; auto.
  apply (free_addrs_NoDup s). apply (ar_seg _ _ Ha).
Qed.

End Measure.

Section MallocSpec.
Context {mach : Machine}.

Lemma asize_ok size :
  let asize := MAX (ALIGN size) MINIMUM in
  6 * W <= asize /\ asize mod 8 = 0.
Proof.
  pose proof W_pos as HWp. cbv zeta.
  assert (A : ALIGN size mod 8 = 0).
  { unfold ALIGN. rewrite land_lnot7.
    set (x := wrap (wrap size + (ALIGNMENT - 1) + DSIZE)).
    rewrite Zminus_mod, Z.mod_mod, Z.sub_diag by lia. reflexivity. }
  assert (B : (6 * W) mod 8 = 0) by (destruct W_ok as [-> | ->]; reflexivity).
  unfold MAX, MINIMUM, WSIZE.
  destruct (ALIGN size >? 6 * W) eqn:E; [|split; [lia|exact B]].
  apply Z.gtb_lt in E. split; [lia|exact A].
Qed.

Lemma merge_prev_alloc l1 a : merge_prev (l1 ++ [(a, true)]) = (l1 ++ [(a, true)], 0).
Proof.
  apply merge_prev_none. intros (l1' & szp & E).
  apply app_inj_tail in E. destruct E as [_ E]. discriminate.
Qed.

(** After [place], the block handed out stands allocated after the same
    blocks [l1]; its size is [x], and the free bytes went down by [x]. *)
Lemma place_blocks_shape l1 c l2 a :
  a <= c ->
  exists x l2',
    place_blocks l1 c l2 a = l1 ++ (x, true) :: l2' /\
    free_total l1 + x + free_total l2' = free_total (l1 ++ (c, false) :: l2) /\
    (length l1 + 1 + length l2' <= length (l1 ++ (c, false) :: l2) + 1)%nat.
Proof.
  intros Hac. unfold place_blocks.
  rewrite free_total_app, length_app. cbn [free_total length].
  destruct (6 * W <=? c - a).
  - unfold coalesce_blocks. rewrite merge_prev_alloc. cbn [fst snd].
    destruct (merge_next_totals l2) as (B1 & B2 & B3).
    exists a, ((0 + (c - a) + fst (merge_next l2), false) :: snd (merge_next l2)).
    rewrite <- app_assoc. cbn [app free_total length].
    unfold block in *. repeat split; lia.
  - exists c, l2. unfold block in *. repeat split; lia.
Qed.

(** [mm_malloc] when some block of the free list is large enough: the
    request is served by [place] on the first such block, and the provider
    is not called. *)
Lemma mm_malloc_fit_frame s bl fl fuel size :
  let asize := MAX (ALIGN size) MINIMUM in
  WF s bl fl -> size <> 0 -> (length bl < fuel)%nat ->
  (exists x, In x fl /\ asize <= blk_size s x) ->
  exists l1 c l2 s' fl',
    bl = l1 ++ (c, false) :: l2 /\ asize <= c /\
    mm_malloc fuel size s = Done (first_block s + total l1) s' /\
    WF s' (place_blocks l1 c l2 asize) fl' /\ same_env s s' /\
    keeps (alloc_payload (first_block s) bl) s s'.
Proof.
  pose proof W_pos as HWp.
  intros asize Hwf Hsz Hfuel (x0 & Hx0 & Hfit0).
  destruct (asize_ok size) as (A1 & A2). fold asize in A1, A2.
  pose proof (WF_length _ _ _ Hwf) as Hl.
  pose proof (WF_walk _ _ _ Hwf) as Hw.
  assert (Hff : findFit fuel asize s = Done (first_fit s asize fl) s)
    by (unfold findFit, get_free_listp, bind;
        apply findFit_loop_walk; [exact Hw|lia]).
  unfold first_fit in Hff.
  destruct (find (fun bp => asize <=? blk_size s bp) fl) as [bp|] eqn:Ef.
  2:{ pose proof (find_none _ _ Ef _ Hx0) as X. cbv beta in X.
      apply Z.leb_gt in X. lia. }
  destruct (find_some _ _ Ef) as (Hbp & Hfit). cbv beta in Hfit.
  apply Z.leb_le in Hfit.
  pose proof (wf_arena _ _ _ Hwf) as Ha.
  destruct (arena_bounds _ _ Ha) as (B1 & B2 & B3 & B4 & B5 & B6).
  apply (wf_free _ _ _ Hwf) in Hbp.
  destruct (free_addrs_split _ _ _ Hbp) as (l1 & c & l2 & E & Ebp).
  subst bl bp.
  pose proof (arena_at _ _ _ _ _ Ha) as Hb.
  rewrite (blk_size_at _ _ _ _ _ Ha Hb) in Hfit.
  destruct (place_spec_frame s l1 c l2 fl asize Hwf A1 A2 Hfit)
    as (s' & fl' & Hrun & Hwf' & He & K).
  exists l1, c, l2, s', fl'.
  split; [reflexivity|]. split; [exact Hfit|].
  split; [|split; [|split]; assumption].
  unfold mm_malloc.
  replace (size =? 0) with false by (symmetry; apply Z.eqb_neq; exact Hsz).
  fold asize. step Hff.
  pose proof (ba_lo _ _ _ _ Hb) as Hlo.
  replace (first_block s + total l1 =? NULL) with false
    by (symmetry; apply Z.eqb_neq; unfold NULL, first_block in *; lia).
  cbn [negb]. step Hrun. reflexivity.
Qed.

(** The same without the frame. *)
Lemma mm_malloc_fit s bl fl fuel size :
  let asize := MAX (ALIGN size) MINIMUM in
  WF s bl fl -> size <> 0 -> (length bl < fuel)%nat ->
  (exists x, In x fl /\ asize <= blk_size s x) ->
  exists l1 c l2 s' fl',
    bl = l1 ++ (c, false) :: l2 /\ asize <= c /\
    mm_malloc fuel size s = Done (first_block s + total l1) s' /\
    WF s' (place_blocks l1 c l2 asize) fl' /\ same_env s s'.
Proof.
  intros asize Hwf Hnz Hfuel Hfit.
  destruct (mm_malloc_fit_frame s bl fl fuel size Hwf Hnz Hfuel Hfit)
    as (l1 & c & l2 & s' & fl' & H1 & H2 & H3 & H4 & H5 & _).
  exists l1, c, l2, s', fl'. auto 6.
Qed.

End MallocSpec.

Ltac put_step :=
  match goal with
  | |- bind (PUT ?a ?v) _ ?t = _ =>
      let R := fresh "R" in
      assert (R : PUT a v t = Done tt (wr_int a v t))
        by (apply PUT_ok, valid_true; autorewrite with st;
            cbn [mem_heap_lo mem_brk with_heap_listp]; lia);
      step R; clear R
  end.

Section Init.
Context {mach : Machine}.

Lemma init_chunk_cases : (W = 8 /\ init_chunk = 48) \/ (W = 4 /\ init_chunk = 32).
Proof.
  unfold init_chunk, extend_size, CHUNKSIZE_div_WSIZE, MINIMUM, WSIZE, wrap, ptr_mod.
  destruct W_ok as [e|e]; rewrite e; [right|left]; split; reflexivity.
Qed.

Lemma mm_init_layout s :
  0 < mem_brk s -> mem_heap_lo s <= mem_brk s ->
  mem_brk s + 12 * W <= mem_max_addr s ->
  mem_brk s + 12 * W < ptr_mod ->
  mm_init s =
  (r <- extendHeap CHUNKSIZE_div_WSIZE ;; if r =? NULL then ret (-1) else ret 0)
    (init_layout s).
Proof.
  pose proof W_pos as HWp.
  intros H0 H1 H2 H3. unfold mm_init.
  set (p := mem_brk s).
  set (s0 := mkState (mem s) (mem_heap_lo s) (p + 12 * W) (mem_max_addr s)
                     (sbrk_log s ++ [12 * W]) (heap_listp s) (free_listp s)).
  assert (R0 : mem_sbrk (2 * MINIMUM) s = Done p s0).
  { unfold mem_sbrk, MINIMUM, WSIZE. fold p.
    replace (2 * (6 * W)) with (12 * W) by lia.
    replace (p + 12 * W <=? mem_max_addr s) with true
      by (symmetry; apply Z.leb_le; exact H2).
    reflexivity. }
  step R0.
  step (eq_refl : set_heap_listp p s0 = Done tt (with_heap_listp p s0)).
  replace (p =? NULL) with false by (symmetry; apply Z.eqb_neq; unfold NULL; lia).
  unfold MINIMUM, DSIZE, WSIZE.
  rewrite !wrap_small by lia.
  replace (p + 1 * W) with (p + W) by lia.
  replace (p + W + 6 * W) with (p + 7 * W) by lia.
  subst s0.
  repeat put_step.
  match goal with |- bind (set_free_listp ?a) _ ?t = _ =>
    step (eq_refl : set_free_listp a t = Done tt (with_free_listp a t)) end.
  reflexivity.
Qed.

Lemma init_layout_fields s :
  mem_heap_lo (init_layout s) = mem_heap_lo s /\
  mem_brk (init_layout s) = mem_brk s + 12 * W /\
  mem_max_addr (init_layout s) = mem_max_addr s /\
  sbrk_log (init_layout s) = sbrk_log s ++ [12 * W] /\
  heap_listp (init_layout s) = mem_brk s /\
  free_listp (init_layout s) = mem_brk s + 2 * W.
Proof. repeat split; reflexivity. Qed.

Lemma SBRK_FAILED_eq : SBRK_FAILED = ptr_mod - 1.
Proof.
  pose proof ptr_mod_ge. unfold SBRK_FAILED, wrap. symmetry.
  apply Z.mod_unique with (q := -1); lia.
Qed.

Lemma rd_int_same_mem s s' a : mem s' = mem s -> rd_int s' a = rd_int s a.
Proof. intros E. unfold rd_int. rewrite E. reflexivity. Qed.

Lemma rd_int_init_layout_above s a :
  mem_brk s + 8 * W <= a -> rd_int (init_layout s) a = rd_int s a.
Proof.
  pose proof W_pos as HWp. intros H. unfold init_layout.
  rewrite rd_int_with_fl. rewrite !rd_int_wr_int_other by lia.
  apply rd_int_same_mem. reflexivity.
Qed.

Lemma rd_int_init_layout_prologue s :
  rd_int (init_layout s) (mem_brk s + W) = tag (6 * W) true.
Proof.
  pose proof W_pos as HWp. unfold init_layout.
  rewrite rd_int_with_fl. rewrite !rd_int_wr_int_other by lia.
  rewrite rd_int_wr_int_same. unfold MINIMUM, WSIZE.
  rewrite PACK_1 by (destruct W_ok as [e|e]; rewrite e; reflexivity).
  apply to_int_tag; lia.
Qed.

(** The words [mm_init] writes (lines 105-111). *)
Lemma init_layout_words s :
  let p := mem_brk s in
  let t := init_layout s in
  rd_int t p = 0 /\
  rd_int t (p + W) = PACK MINIMUM 1 /\
  rd_int t (p + 2 * W) = 0 /\
  rd_int t (p + 3 * W) = 0 /\
  rd_int t (p + MINIMUM) = PACK MINIMUM 1 /\
  rd_int t (p + WSIZE + MINIMUM) = PACK 0 1.
Proof.
  pose proof W_pos as HWp. cbv zeta. unfold init_layout, MINIMUM, WSIZE.
  assert (T : Mach.to_int (PACK (6 * W) 1) = PACK (6 * W) 1).
  { rewrite PACK_1 by (destruct W_ok as [e|e]; rewrite e; reflexivity).
    apply to_int_tag; lia. }
  rewrite !rd_int_with_fl.
  replace (mem_brk s + W + 6 * W) with (mem_brk s + 7 * W) by lia.
  repeat split.
  - rewrite !rd_int_wr_int_other by lia. apply rd_int_wr_int_same.
  - rewrite !rd_int_wr_int_other by lia. rewrite rd_int_wr_int_same. exact T.
  - rewrite !rd_int_wr_int_other by lia. apply rd_int_wr_int_same.
  - rewrite !rd_int_wr_int_other by lia. apply rd_int_wr_int_same.
  - rewrite !rd_int_wr_int_other by lia. rewrite rd_int_wr_int_same. exact T.
  - apply rd_int_wr_int_same.
Qed.

(** The state after the second provider call succeeded and [extendHeap]
    wrote the tags of the new block and the new epilogue: the new block is
    the only one of the list, the link at the list end points to it, and
    the other words below its header are as [mm_init] laid them out. *)
Lemma init_extend_ok s :
  let lo := mem_heap_lo s in
  0 < lo -> mem_brk s = lo ->
  lo + 12 * W + init_chunk < ptr_mod ->
  lo + 12 * W + init_chunk <= mem_max_addr s ->
  Z.land (rd_int s (lo + 10 * W)) (Z.lnot 7) = 0 ->
  exists s',
    extendHeap CHUNKSIZE_div_WSIZE (init_layout s) = Done (lo + 12 * W) s' /\
    WF s' [(init_chunk, false)] [lo + 12 * W] /\
    sbrk_log s' = sbrk_log s ++ [12 * W; init_chunk] /\
    heap_listp s' = lo /\
    rd_ptr s' (lo + 2 * W) = lo + 12 * W /\
    (forall a, a + 4 <= lo + 2 * W \/ lo + 3 * W <= a -> a + 4 <= lo + 11 * W ->
       rd_int s' a = rd_int (init_layout s) a).
Proof.
  pose proof W_pos as HWp. pose proof ptr_mod_ge as Hpm.
  intros lo H0 Hb Htop Hmax Hpre.
  assert (HE : 6 * W <= init_chunk <= 48 /\ init_chunk mod 8 = 0)
    by (destruct init_chunk_cases as [[e1 e2]|[e1 e2]]; rewrite e1, e2;
        (split; [lia|reflexivity])).
  destruct HE as (HE1 & HE2).
  set (E := init_chunk) in *.
  set (t := init_layout s).
  set (bp := lo + 12 * W).
  set (t2 := mkState (mem t) lo (bp + E) (mem_max_addr s)
                     ((sbrk_log s ++ [12 * W]) ++ [E]) lo (lo + 2 * W)).
  assert (R0 : mem_sbrk E t = Done bp t2).
  { unfold mem_sbrk.
    destruct (init_layout_fields s) as (F1 & F2 & F3 & F4 & F5 & F6).
    fold t in F1, F2, F3, F4, F5, F6.
    rewrite F1, F2, F3, F4, F5, F6, Hb. fold lo bp.
    replace (bp + E <=? mem_max_addr s) with true
      by (symmetry; apply Z.leb_le; unfold bp; lia).
    reflexivity. }
  assert (V : forall a, lo <= a -> a + 4 <= bp + E -> forall u,
            mem_heap_lo u = lo -> mem_brk u = bp + E -> valid u a 4 = true).
  { intros a A1 A2 u E1 E2. apply valid_true; lia. }
  set (s2 := retag bp E false t2).
  set (s3 := wr_int (bp + E - W) (PACK 0 1) s2).
  assert (Ha : arena s3 [(E, false)]).
  { constructor.
    - exact H0.
    - unfold first_block. cbn [total]. change (mem_brk s3) with (bp + E).
      change (mem_heap_lo s3) with lo. unfold bp. lia.
    - change (mem_brk s3) with (bp + E). unfold bp. lia.
    - change (mem_brk s3) with (bp + E). change (mem_heap_lo s3) with lo.
      unfold bp, Mach.int_max. lia.
    - cbn [seg]. change (first_block s3) with bp.
      split; [lia|]. split; [exact HE2|].
      unfold s3. rewrite !rd_int_wr_int_other by lia.
      unfold s2. rewrite rd_int_retag_hdr, rd_int_retag_ftr by lia. auto.
    - change (mem_brk s3) with (bp + E). unfold s3.
      rewrite rd_int_wr_int_same. reflexivity.
    - change (first_block s3) with bp. unfold s3.
      rewrite rd_int_wr_int_other by lia. unfold s2.
      rewrite rd_int_retag_other by lia.
      rewrite (rd_int_same_mem t t2) by reflexivity.
      unfold t. rewrite rd_int_init_layout_above by (unfold bp; lia).
      unfold bp. replace (lo + 12 * W - 2 * W) with (lo + 10 * W) by lia.
      exact Hpre.
    - change (list_end s3) with (lo + 2 * W). unfold s3.
      rewrite rd_int_wr_int_other by (unfold bp; lia). unfold s2.
      rewrite rd_int_retag_other by (unfold bp; lia).
      rewrite (rd_int_same_mem t t2) by reflexivity.
      replace (lo + 2 * W - W) with (mem_brk s + W) by lia.
      unfold t. rewrite rd_int_init_layout_prologue.
      apply tag_alloc. destruct W_ok as [e|e]; rewrite e; reflexivity. }
  assert (Hf : flist s3 []) by (split; [reflexivity|exact I]).
  destruct (coalesce_phase1 s3 [] E [] Ha) as (PA & NA & Erun & HPA & HNA).
  assert (PA = true) as ->.
  { destruct PA; [reflexivity|].
    destruct (proj1 HPA eq_refl) as ([|y l1'] & szp & X); discriminate X. }
  assert (NA = true) as ->.
  { destruct NA; [reflexivity|].
    destruct (proj1 HNA eq_refl) as (szn & l2' & X). discriminate X. }
  destruct (coalesce_none s3 [] E [] [] Ha Hf (NoDup_nil Z)) as [Hrun Hwf].
  { intros x. change (first_block s3) with bp. cbn [free_addrs app total In].
    split; [tauto|]. intros [[X|[]] Y]. lia. }
  rewrite <- Erun in Hrun.
  change (first_block s3) with bp in Hrun, Hwf.
  cbn [total app] in Hrun, Hwf.
  replace (bp + 0) with bp in Hrun, Hwf by lia.
  set (s' := add_st bp s3) in *.
  assert (He : same_env s3 s') by apply same_env_add_st.
  exists s'. split; [|split; [exact Hwf|split; [|split; [|split]]]].
  - unfold extendHeap. fold init_chunk E. cbv zeta. fold t. step R0.
    replace (bp =? SBRK_FAILED) with false
      by (symmetry; apply Z.eqb_neq; rewrite SBRK_FAILED_eq; unfold bp; lia).
    rewrite (retag_run t2 bp E 0 false _ (PACK_0 E) HE2);
      [|lia|lia|unfold bp; lia|unfold bp; lia
       |apply V; auto; unfold bp; lia|apply V; auto; unfold bp; lia].
    fold s2.
    assert (RN : NEXT_BLKP bp s2 = Done (bp + E) s2).
    { apply (NEXT_BLKP_tag _ _ _ false); try (unfold bp; lia); auto.
      - apply V; auto; unfold bp; lia.
      - unfold s2. apply rd_int_retag_hdr; lia. }
    step RN. rewrite HDRP_eq by (unfold bp; lia).
    assert (RP : PUT (bp + E - W) (PACK 0 1) s2 = Done tt s3)
      by (apply PUT_ok, V; auto; unfold bp; lia).
    step RP. exact Hrun.
  - destruct He as (_ & _ & _ & -> & _).
    change (sbrk_log s3) with ((sbrk_log s ++ [12 * W]) ++ [E]).
    rewrite <- app_assoc. reflexivity.
  - destruct He as (_ & _ & _ & _ & ->). reflexivity.
  - unfold s', add_st. rewrite rd_ptr_with_fl.
    change (free_listp s3) with (lo + 2 * W).
    rewrite rd_ptr_wr_ptr_other by (unfold bp; lia).
    rewrite rd_ptr_wr_ptr_same. apply wrap_small. unfold bp. lia.
  - intros a A1 A2. unfold s'.
    rewrite rd_int_add_st
      by (first [unfold bp; lia | change (free_listp s3) with (lo + 2 * W); lia]).
    unfold s3. rewrite rd_int_wr_int_other by (unfold bp; lia). unfold s2.
    rewrite rd_int_retag_other by (unfold bp; lia).
    apply rd_int_same_mem. reflexivity.
Qed.

End Init.

Section InitSpec.
Context {mach : Machine}.

(** The second provider call refused: [extendHeap] returns [NULL] and
    leaves the layout as it was. *)
Lemma init_extend_refused s :
  let lo := mem_heap_lo s in
  mem_brk s = lo ->
  mem_max_addr s < lo + 12 * W + init_chunk ->
  exists s',
    extendHeap CHUNKSIZE_div_WSIZE (init_layout s) = Done NULL s' /\
    sbrk_log s' = sbrk_log s ++ [12 * W; init_chunk] /\
    heap_listp s' = lo /\ free_listp s' = lo + 2 * W /\
    mem_brk s' = lo + 12 * W /\ mem s' = mem (init_layout s).
Proof.
  intros lo Hb Hmax.
  destruct (init_layout_fields s) as (F1 & F2 & F3 & F4 & F5 & F6).
  unfold extendHeap. fold init_chunk. cbv zeta.
  unfold mem_sbrk, bind. rewrite F1, F2, F3, F4, F5, F6, Hb. fold lo.
  replace (lo + 12 * W + init_chunk <=? mem_max_addr s) with false
    by (symmetry; apply Z.leb_gt; exact Hmax).
  rewrite Z.eqb_refl. eexists. split; [reflexivity|].
  cbn [sbrk_log heap_listp free_listp mem_brk mem].
  rewrite <- app_assoc. repeat split; reflexivity.
Qed.

(** C3, amended.  On an arena from which nothing has been handed out yet
    ([mem_brk] is the start [lo] of the arena, [lo > 0]), whose addresses up
    to [lo + 12W + init_chunk] do not wrap, and whose [int] at [lo + 10W],
    which [mm_init] never writes and [coalesce] reads as the footer before
    the first block, has size field 0 (any zero-filled arena), provided the
    first provider call succeeds: [mm_init] obtains [2 * 6W] bytes for the
    initial layout, writes the padding word 0 at [lo], the prologue header
    and footer [PACK(MINIMUM, 1)] at [lo + W] and [lo + MINIMUM], 0 in the
    two link words and the epilogue header [PACK(0, 1)] at
    [lo + WSIZE + MINIMUM], sets the free-list head [2W] past the start,
    just past the prologue header, then extends the arena through
    [extendHeap], and returns failure if and only if the second provider
    call fails.  On success the heap is well formed with one free block,
    which is the head of the list, and the link at [lo + 2W] points to
    it. *)
Theorem mm_init_spec s :
  let lo := mem_heap_lo s in
  0 < lo -> mem_brk s = lo ->
  lo + 12 * W + init_chunk < ptr_mod ->
  lo + 2 * (6 * W) <= mem_max_addr s ->
  Z.land (rd_int s (lo + 10 * W)) (Z.lnot 7) = 0 ->
  exists r s',
    mm_init s = Done r s' /\
    heap_listp s' = lo /\
    sbrk_log s' = sbrk_log s ++ [2 * (6 * W); init_chunk] /\
    (r = -1 <-> mem_max_addr s < lo + 2 * (6 * W) + init_chunk) /\
    (r = 0 <-> lo + 2 * (6 * W) + init_chunk <= mem_max_addr s) /\
    (r = -1 -> free_listp s' = lo + 2 * W /\ mem_brk s' = lo + 2 * (6 * W)) /\
    (r = 0 -> WF s' [(init_chunk, false)] [lo + 2 * (6 * W)]) /\
    rd_int s' lo = 0 /\
    rd_int s' (lo + W) = PACK MINIMUM 1 /\
    rd_int s' (lo + 3 * W) = 0 /\
    rd_int s' (lo + MINIMUM) = PACK MINIMUM 1 /\
    rd_int s' (lo + WSIZE + MINIMUM) = PACK 0 1 /\
    (r = -1 -> rd_int s' (lo + 2 * W) = 0) /\
    (r = 0 -> rd_ptr s' (lo + 2 * W) = lo + 2 * (6 * W)).
Proof.
  pose proof W_pos as HWp.
  intros lo H0 Hb Htop H1 Hpre.
  replace (2 * (6 * W)) with (12 * W) in * by lia.
  assert (HE : 0 < init_chunk)
    by (destruct init_chunk_cases as [[_ e]|[_ e]]; rewrite e; lia).
  rewrite mm_init_layout by lia.
  pose proof (init_layout_words s) as L. cbv zeta in L. rewrite Hb in L.
  fold lo in L. destruct L as (L0 & L1 & L2 & L3 & L6 & L7).
  destruct (Z_lt_le_dec (mem_max_addr s) (lo + 12 * W + init_chunk)) as [Hc|Hc].
  - destruct (init_extend_refused s Hb Hc)
      as (s' & Hrun & Hl & Hh & Hf & Hk & Hm).
    assert (R : forall a, rd_int s' a = rd_int (init_layout s) a)
      by (intros a; apply rd_int_same_mem; exact Hm).
    exists (-1), s'. step Hrun. unfold NULL. cbn [Z.eqb].
    split; [reflexivity|]. split; [exact Hh|]. split; [exact Hl|].
    split; [split; intros; [lia|reflexivity]|].
    split; [split; intros; [discriminate|lia]|].
    split; [intros _; split; assumption|].
    split; [intros X; discriminate|].
    rewrite !R.
    split; [exact L0|]. split; [exact L1|]. split; [exact L3|].
    split; [exact L6|]. split; [exact L7|].
    split; [intros _; exact L2|intros X; discriminate].
  - destruct (init_extend_ok s H0 Hb Htop Hc Hpre)
      as (s' & Hrun & Hwf & Hl & Hh & Hp & R).
    fold lo in Hp, R.
    exists 0, s'. step Hrun.
    replace (mem_heap_lo s + 12 * W =? NULL) with false
      by (symmetry; apply Z.eqb_neq; unfold NULL; lia).
    split; [reflexivity|]. split; [exact Hh|]. split; [exact Hl|].
    split; [split; intros; [discriminate|lia]|].
    split; [split; intros; [lia|reflexivity]|].
    split; [intros X; discriminate|]. split; [intros _; exact Hwf|].
    unfold MINIMUM, WSIZE in *.
    rewrite !R by lia.
    split; [exact L0|]. split; [exact L1|]. split; [exact L3|].
    split; [exact L6|]. split; [exact L7|].
    split; [intros X; discriminate|intros _; exact Hp].
Qed.

End InitSpec.

Section RoundTrip.
Context {mach : Machine}.

(** C9, amended.  From a well-formed heap, when some block of the free
    list is large enough for the request, so that [mm_malloc] does not
    extend the arena, [mm_malloc(n)] followed by [mm_free] of the pointer it
    returned leaves a well-formed heap whose total of free bytes equals the
    total before the two operations. *)
Theorem malloc_free_round_trip s bl fl fuel n :
  WF s bl fl -> 0 < n -> (length bl + 1 < fuel)%nat ->
  (exists x, In x fl /\ MAX (ALIGN n) MINIMUM <= blk_size s x) ->
  exists p s1 s2 bl2 fl2,
    mm_malloc fuel n s = Done p s1 /\ p <> NULL /\
    sbrk_log s1 = sbrk_log s /\
    mm_free p s1 = Done tt s2 /\
    WF s2 bl2 fl2 /\
    free_bytes fuel s = Done (free_total bl) s /\
    free_bytes fuel s2 = Done (free_total bl) s2.
Proof.
  pose proof W_pos as HWp.
  intros Hwf Hn Hfuel Hfit.
  destruct (mm_malloc_fit s bl fl fuel n Hwf) as
    (l1 & c & l2 & s1 & fl1 & E & Hc & Hrun & Hwf1 & He1); [lia|lia|exact Hfit|].
  destruct (place_blocks_shape l1 c l2 (MAX (ALIGN n) MINIMUM) Hc)
    as (x & l2' & Es & Et & El).
  rewrite Es in Hwf1. subst bl.
  pose proof (same_env_first_block _ _ He1) as Ef.
  destruct (mm_free_spec s1 l1 x l2' fl1 Hwf1) as (s2 & fl2 & Hfree & Hwf2 & He2).
  rewrite Ef in Hfree.
  destruct (coalesce_blocks_totals l1 x l2') as (_ & T2 & T3).
  pose proof (wf_arena _ _ _ Hwf) as Ha.
  destruct (arena_bounds _ _ Ha) as (B1 & B2 & B3 & B4 & B5 & B6).
  pose proof (seg_total_nonneg _ _ _ (ar_seg _ _ Ha)) as Hnn.
  assert (Hl1 : 0 <= total l1).
  { pose proof (ar_seg _ _ Ha) as Hs.
    apply seg_app in Hs. destruct Hs as [Hs _].
    apply (seg_total_nonneg _ _ _ Hs). }
  exists (first_block s + total l1), s1, s2, (coalesce_blocks l1 x l2'), fl2.
  split; [exact Hrun|]. split; [unfold NULL, first_block in *; lia|].
  split; [apply He1|]. split; [exact Hfree|]. split; [exact Hwf2|].
  split.
  - apply (free_bytes_WF s _ fl); [exact Hwf|unfold block in *; lia].
  - match goal with |- _ = Done ?t _ =>
      replace t with (free_total (coalesce_blocks l1 x l2'))
        by (unfold block in *; lia) end.
    apply (free_bytes_WF s2 _ fl2); [exact Hwf2|unfold block in *; lia].
Qed.


End RoundTrip.

Section ExtendSpec.
Context {mach : Machine}.

Lemma rd_ptr_same_mem s s' a : mem s' = mem s -> rd_ptr s' a = rd_ptr s a.
Proof. intros E. unfold rd_ptr. rewrite E. reflexivity. Qed.

(** Well-formedness looks at the memory, the arena bounds and the list
    head only. *)
Lemma WF_same_mem s s' bl fl :
  mem s' = mem s -> mem_heap_lo s' = mem_heap_lo s -> mem_brk s' = mem_brk s ->
  free_listp s' = free_listp s ->
  WF s bl fl -> WF s' bl fl.
Proof.
  intros Em El Eb Ef [Ha [Hh Hc] Hd Hin].
  assert (EF : first_block s' = first_block s) by (unfold first_block; congruence).
  assert (ET : list_end s' = list_end s) by (unfold list_end; congruence).
  constructor; auto.
  - apply (arena_frame s); auto. intros t _. apply rd_int_same_mem. exact Em.
  - split; [congruence|]. rewrite ET. apply (chain_frame s); [exact Hc|].
    intros x _. split; apply rd_ptr_same_mem; exact Em.
  - intros x. rewrite EF. apply Hin.
Qed.

(** What [extend_size] computes (lines 247-249): the words rounded up to an
    even count, times the word size, and at least [MINIMUM]. *)
Lemma extend_size_eq words :
  0 <= words -> (words + 1) * W < ptr_mod ->
  extend_size words = Z.max (6 * W) ((words + words mod 2) * W).
Proof.
  pose proof W_pos as HWp.
  intros H0 H1. unfold extend_size, MINIMUM, WSIZE.
  assert (Hm : words mod 2 = 0 \/ words mod 2 = 1)
    by (pose proof (Z.mod_pos_bound words 2); lia).
  destruct Hm as [Hm|Hm]; rewrite Hm.
  - cbn [Z.eqb negb]. rewrite wrap_small by nia. rewrite Z.add_0_r.
    destruct (Z.ltb_spec (words * W) (6 * W)); lia.
  - cbn [Z.eqb negb]. rewrite (wrap_small (words + 1)) by nia.
    rewrite wrap_small by nia.
    destruct (Z.ltb_spec ((words + 1) * W) (6 * W)); lia.
Qed.

Lemma extend_size_facts words :
  0 <= words -> (words + 1) * W < ptr_mod ->
  extend_size words mod (2 * W) = 0 /\
  6 * W <= extend_size words /\
  words * W <= extend_size words <= Z.max (6 * W) ((words + 1) * W).
Proof.
  pose proof W_pos as HWp.
  intros H0 H1. rewrite extend_size_eq by assumption.
  assert (Hm : words mod 2 = 0 \/ words mod 2 = 1)
    by (pose proof (Z.mod_pos_bound words 2); lia).
  assert (He : (words + words mod 2) mod 2 = 0).
  { destruct Hm as [Hm|Hm]; rewrite Hm.
    - rewrite Z.add_0_r. exact Hm.
    - rewrite <- Z.add_mod_idemp_l by lia. rewrite Hm. reflexivity. }
  assert (Hd : ((words + words mod 2) * W) mod (2 * W) = 0).
  { apply Z.mod_divide; [lia|].
    apply Z.mod_divide in He; [|lia]. destruct He as [k Hk]. exists k.
    rewrite Hk. ring. }
  assert (H6 : (6 * W) mod (2 * W) = 0).
  { apply Z.mod_divide; [lia|]. exists 3. ring. }
  split; [|split; [lia|split; nia]].
  destruct (Z.max_spec (6 * W) ((words + words mod 2) * W)) as [[_ ->]|[_ ->]];
    assumption.
Qed.

End ExtendSpec.

Section ExtendHeap.
Context {mach : Machine}.

(** [extendHeap] when the provider refuses: [NULL], and nothing but the
    provider's log changes. *)
Lemma extendHeap_refused s bl fl words :
  WF s bl fl ->
  mem_max_addr s < mem_brk s + extend_size words ->
  exists s',
    extendHeap words s = Done NULL s' /\ WF s' bl fl /\
    mem s' = mem s /\ mem_heap_lo s' = mem_heap_lo s /\
    mem_brk s' = mem_brk s /\ mem_max_addr s' = mem_max_addr s /\
    sbrk_log s' = sbrk_log s ++ [extend_size words].
Proof.
  intros Hwf Hmax.
  unfold extendHeap. cbv zeta. unfold mem_sbrk, bind.
  replace (mem_brk s + extend_size words <=? mem_max_addr s) with false
    by (symmetry; apply Z.leb_gt; exact Hmax).
  rewrite Z.eqb_refl. eexists. split; [reflexivity|].
  cbn [mem mem_heap_lo mem_brk mem_max_addr sbrk_log].
  split; [|repeat split; reflexivity].
  apply (WF_same_mem s); auto.
Qed.

(** [extendHeap] when the provider grants the bytes: the new free block
    starts where the epilogue header was and is merged with a free block
    that ends the arena. *)
Lemma extendHeap_spec s bl fl words :
  let E := extend_size words in
  WF s bl fl ->
  0 <= words -> (words + 1) * W < ptr_mod ->
  mem_brk s + E <= mem_max_addr s ->
  mem_brk s + E < ptr_mod ->
  mem_brk s + E - mem_heap_lo s <= Mach.int_max ->
  exists s' fl',
    extendHeap words s = Done (mem_brk s - snd (merge_prev bl)) s' /\
    WF s' (coalesce_blocks bl E []) fl' /\
    mem_heap_lo s' = mem_heap_lo s /\ mem_brk s' = mem_brk s + E /\
    mem_max_addr s' = mem_max_addr s /\
    sbrk_log s' = sbrk_log s ++ [E] /\
    keeps (alloc_payload (first_block s) bl) s s'.
Proof.
  pose proof W_pos as HWp. pose proof ptr_mod_ge as Hpm.
  intros E [Ha Hf Hd Hin] Hw0 Hw1 Hmax Htop Hint.
  destruct (extend_size_facts words Hw0 Hw1) as (HE2 & HE1 & _).
  fold E in HE1, HE2.
  assert (HE8 : E mod 8 = 0).
  { apply Z.mod_divide in HE2; [|lia]. destruct HE2 as [k Hk].
    apply Z.mod_divide; [lia|]. rewrite Hk.
    destruct W_ok as [e|e]; rewrite e; [exists k|exists (2 * k)]; ring. }
  destruct (arena_bounds _ _ Ha) as (B1 & B2 & B3 & B4 & B5 & B6).
  pose proof (ar_brk _ _ Ha) as Hbrk.
  pose proof (ar_seg _ _ Ha) as Hs.
  set (lo := mem_heap_lo s) in *.
  set (bp := mem_brk s) in *.
  set (t2 := mkState (mem s) lo (bp + E) (mem_max_addr s)
                     (sbrk_log s ++ [E]) (heap_listp s) (free_listp s)).
  assert (R0 : mem_sbrk E s = Done bp t2).
  { unfold mem_sbrk. fold bp lo.
    replace (bp + E <=? mem_max_addr s) with true
      by (symmetry; apply Z.leb_le; exact Hmax).
    reflexivity. }
  assert (V : forall a, lo <= a -> a + 4 <= bp + E -> forall u,
            mem_heap_lo u = lo -> mem_brk u = bp + E -> valid u a 4 = true).
  { intros a A1 A2 u E1 E2. apply valid_true; lia. }
  assert (HF : first_block s = lo + 12 * W) by reflexivity.
  unfold Mach.int_max in Hint.
  assert (HEi : E < 2 ^ 31 - 1) by lia.
  set (s2 := retag bp E false t2).
  set (s3 := wr_int (bp + E - W) (PACK 0 1) s2).
  assert (Hrd : forall t, t + 4 <= bp - W -> rd_int s3 t = rd_int s t).
  { intros t Ht. unfold s3. rewrite rd_int_wr_int_other by lia.
    unfold s2. rewrite rd_int_retag_other by lia.
    apply rd_int_same_mem. reflexivity. }
  assert (Ha3 : arena s3 (bl ++ [(E, false)])).
  { constructor.
    - exact B1.
    - change (mem_brk s3) with (bp + E). change (first_block s3) with (first_block s).
      rewrite total_app. cbn [total]. lia.
    - change (mem_brk s3) with (bp + E). lia.
    - change (mem_brk s3) with (bp + E). change (mem_heap_lo s3) with lo.
      unfold Mach.int_max. lia.
    - change (first_block s3) with (first_block s). apply seg_app. split.
      + apply (seg_frame s); [exact Hs|]. intros t Ht. apply Hrd.
        pose proof (seg_tags_bounds _ _ _ _ Hs Ht). lia.
      + cbn [seg]. rewrite <- Hbrk.
        split; [lia|]. split; [exact HE8|].
        unfold s3. rewrite !rd_int_wr_int_other by lia.
        unfold s2. rewrite rd_int_retag_hdr, rd_int_retag_ftr by lia. auto.
    - change (mem_brk s3) with (bp + E). unfold s3.
      rewrite rd_int_wr_int_same. reflexivity.
    - change (first_block s3) with (first_block s).
      rewrite Hrd by lia. apply (ar_pre _ _ Ha).
    - change (list_end s3) with (list_end s).
      rewrite Hrd by (unfold list_end, first_block in *; lia).
      apply (ar_prologue _ _ Ha). }
  assert (Hnode : forall x, In x fl -> x + 6 * W <= bp).
  { intros x Hx. apply Hin in Hx.
    pose proof (seg_free_bounds _ _ _ _ Hs Hx). lia. }
  assert (Hf3 : flist s3 fl).
  { destruct Hf as [Hh Hc]. split; [exact Hh|].
    change (list_end s3) with (list_end s). unfold s3.
    apply chain_wr_int_away; [|intros x Hx; specialize (Hnode x Hx); lia].
    unfold s2, retag.
    apply chain_wr_int_away; [|intros x Hx; specialize (Hnode x Hx); lia].
    apply chain_wr_int_away; [|intros x Hx; specialize (Hnode x Hx); lia].
    apply (chain_frame s); [exact Hc|].
    intros x _. split; apply rd_ptr_same_mem; reflexivity. }
  destruct (coalesce_spec_frame s3 bl E [] fl Ha3 Hf3 Hd)
    as (s' & fl' & Hrun & Hwf & He & _ & K).
  { intros x. change (first_block s3) with (first_block s).
    rewrite free_addrs_app, in_app_iff. cbn [free_addrs app In].
    rewrite <- Hbrk. rewrite Hin. split.
    - intros Hx. split; [auto|]. pose proof (Hnode x (proj2 (Hin x) Hx)). lia.
    - intros [[Hx|[Hx|[]]] Hne]; [exact Hx|congruence]. }
  change (first_block s3) with (first_block s) in Hrun, Hwf, K.
  rewrite <- Hbrk in Hrun, Hwf.
  exists s', (bp - snd (merge_prev bl) :: fl').
  split; [|split; [exact Hwf|]].
  - unfold extendHeap. fold E. cbv zeta. step R0.
    replace (bp =? SBRK_FAILED) with false
      by (symmetry; apply Z.eqb_neq; rewrite SBRK_FAILED_eq; lia).
    rewrite (retag_run t2 bp E 0 false _ (PACK_0 E) HE8);
      [|lia|lia|unfold first_block in *; lia|lia
       |apply V; auto; unfold first_block in *; lia
       |apply V; auto; unfold first_block in *; lia].
    fold s2.
    assert (RN : NEXT_BLKP bp s2 = Done (bp + E) s2).
    { apply (NEXT_BLKP_tag _ _ _ false); try lia; auto.
      - apply V; auto; unfold first_block in *; lia.
      - unfold s2. apply rd_int_retag_hdr; lia. }
    step RN. rewrite HDRP_eq by (unfold first_block in *; lia).
    assert (RP : PUT (bp + E - W) (PACK 0 1) s2 = Done tt s3)
      by (apply PUT_ok, V; auto; unfold first_block in *; lia).
    step RP. exact Hrun.
  - destruct He as (E1 & E2 & E3 & E4 & E5).
    repeat split; try assumption.
    apply (keeps_trans _ _ s3).
    + intros x Hx. pose proof (alloc_payload_bounds _ _ _ _ Hs Hx) as Hb.
      unfold s3, s2, retag, wr_int. cbn [mem set_mem t2].
      rewrite !store_bytes_out by lia. reflexivity.
    + refine (keeps_weaken _ _ _ _ _ K). intros x Hx.
      apply alloc_payload_app. left. exact Hx.
Qed.

End ExtendHeap.

Section BlockLists.
Context {mach : Machine}.

Lemma merge_prev_nonneg s a bl : seg s a bl -> 0 <= snd (merge_prev bl).
Proof.
  pose proof W_pos as HWp. intros Hs.
  destruct (merge_prev_cases bl) as [(l1' & szp & E1 & E2)|E2]; rewrite E2;
    cbn [snd]; [|lia].
  subst bl. apply seg_app in Hs. destruct Hs as [_ Hs]. cbn [seg] in Hs. lia.
Qed.

(** Merging free blocks does not change which bytes are allocated
    payload. *)
Lemma alloc_payload_coalesce_blocks a l1 sz l2 x :
  alloc_payload a (coalesce_blocks l1 sz l2) x <->
  alloc_payload a l1 x \/ alloc_payload (a + total l1 + sz) l2 x.
Proof.
  unfold coalesce_blocks. rewrite alloc_payload_app. cbn [alloc_payload].
  assert (A : alloc_payload a (fst (merge_prev l1)) x <-> alloc_payload a l1 x).
  { destruct (merge_prev_cases l1) as [(l1' & szp & E1 & E2)|E2]; rewrite E2;
      cbn [fst]; [|tauto].
    subst l1. rewrite alloc_payload_app. cbn [alloc_payload].
    intuition discriminate. }
  assert (B : alloc_payload
                (a + total (fst (merge_prev l1))
                 + (snd (merge_prev l1) + sz + fst (merge_next l2)))
                (snd (merge_next l2)) x <->
              alloc_payload (a + total l1 + sz) l2 x).
  { destruct (merge_prev_totals l1) as (T1 & _).
    replace (a + total (fst (merge_prev l1))
             + (snd (merge_prev l1) + sz + fst (merge_next l2)))
      with (a + total l1 + sz + fst (merge_next l2)) by lia.
    destruct l2 as [|[szn al] l2]; cbn [merge_next fst snd].
    - rewrite Z.add_0_r. tauto.
    - destruct al; cbn [fst snd alloc_payload].
      + rewrite Z.add_0_r. tauto.
      + intuition discriminate. }
  rewrite A, B. intuition discriminate.
Qed.

Lemma alloc_payload_place_blocks a l1 c l2 asize x :
  alloc_payload a (place_blocks l1 c l2 asize) x <->
  alloc_payload a l1 x \/
  a + total l1 <= x < a + total l1 + placed_size c asize - 2 * W \/
  alloc_payload (a + total l1 + c) l2 x.
Proof.
  unfold place_blocks, placed_size. destruct (6 * W <=? c - asize).
  - rewrite alloc_payload_coalesce_blocks, alloc_payload_app, total_app.
    cbn [alloc_payload total].
    replace (a + (total l1 + (asize + 0)) + (c - asize)) with (a + total l1 + c)
      by lia.
    intuition.
  - rewrite alloc_payload_app. cbn [alloc_payload]. intuition.
Qed.

(** *** No two free blocks side by side *)

Lemma adjacent_free_app l1 l2 :
  adjacent_free (l1 ++ l2) = false ->
  adjacent_free l1 = false /\ adjacent_free l2 = false.
Proof.
  induction l1 as [|[sz al] l1 IH]; cbn [app adjacent_free]; [auto|].
  intros H. apply orb_false_elim in H. destruct H as [H1 H2].
  destruct (IH H2) as [I1 I2]. split; [|exact I2].
  rewrite I1, orb_false_r.
  destruct al; cbn [negb andb] in *; [reflexivity|].
  destruct l1 as [|[sz1 al1] l1]; [reflexivity|]. exact H1.
Qed.

(** Joining two lists: the last block of the first and the first block
    of the second must not both be free. *)
Lemma adjacent_free_join l1 l2 :
  adjacent_free l1 = false -> adjacent_free l2 = false ->
  (forall l1' szp szn l2', l1 = l1' ++ [(szp, false)] ->
                           l2 = (szn, false) :: l2' -> False) ->
  adjacent_free (l1 ++ l2) = false.
Proof.
  induction l1 as [|[sz al] l1 IH]; cbn [app adjacent_free]; [auto|].
  intros H1 H2 Hj. apply orb_false_elim in H1. destruct H1 as [H1 H1'].
  rewrite IH; auto.
  - rewrite orb_false_r. destruct al; cbn [negb andb] in *; [reflexivity|].
    destruct l1 as [|[sz1 al1] l1]; cbn [app]; [|exact H1].
    destruct l2 as [|[szn [|]] l2]; try reflexivity.
    destruct (Hj [] sz szn l2 eq_refl eq_refl).
  - intros l1' szp szn l2' -> ->.
    apply (Hj ((sz, al) :: l1') szp szn l2'); reflexivity.
Qed.

(** Coalescing keeps the arena free of adjacent free blocks. *)
Lemma adjacent_free_coalesce l1 sz al l2 :
  adjacent_free (l1 ++ (sz, al) :: l2) = false ->
  adjacent_free (coalesce_blocks l1 sz l2) = false.
Proof.
  intros H. apply adjacent_free_app in H. destruct H as [H1 H2].
  assert (H2' : adjacent_free l2 = false).
  { cbn [adjacent_free] in H2. apply orb_false_elim in H2. tauto. }
  unfold coalesce_blocks.
  assert (A : adjacent_free (fst (merge_prev l1)) = false).
  { destruct (merge_prev_cases l1) as [(l1' & szp & E1 & E2)|E2]; rewrite E2;
      cbn [fst]; [|exact H1].
    subst l1. apply adjacent_free_app in H1. tauto. }
  apply adjacent_free_join; auto.
  - cbn [adjacent_free negb andb].
    destruct l2 as [|[szn [|]] l2]; cbn [merge_next fst snd];
      cbn [adjacent_free] in H2' |- *; auto.
  - intros l1' szp szn l2' E _.
    destruct (merge_prev_cases l1) as [(l1'' & szq & E1 & E2)|E2];
      rewrite E2 in E; cbn [fst] in E.
    + subst l1 l1''. rewrite <- app_assoc in H1.
      apply adjacent_free_app in H1. destruct H1 as [_ H1].
      cbn in H1. discriminate.
    + subst l1. rewrite merge_prev_free in E2. inversion E2 as [[E3 E4]].
      apply (f_equal (@length block)) in E3. rewrite length_app in E3.
      cbn [length] in E3. unfold block in *. lia.
Qed.

Lemma adjacent_free_place l1 c l2 asize :
  adjacent_free (l1 ++ (c, false) :: l2) = false ->
  adjacent_free (place_blocks l1 c l2 asize) = false.
Proof.
  intros H. unfold place_blocks.
  apply adjacent_free_app in H. destruct H as [H1 H2].
  cbn [adjacent_free negb andb] in H2.
  apply orb_false_elim in H2. destruct H2 as [H2 H3].
  destruct (6 * W <=? c - asize).
  - apply (adjacent_free_coalesce _ _ false).
    rewrite <- app_assoc. cbn [app].
    apply adjacent_free_join.
    + exact H1.
    + cbn [adjacent_free negb andb orb]. rewrite H2, H3. reflexivity.
    + intros l1' szp szn l2' _ E. discriminate.
  - apply adjacent_free_join.
    + exact H1.
    + cbn [adjacent_free negb andb orb]. exact H3.
    + intros l1' szp szn l2' _ E. discriminate.
Qed.

End BlockLists.

Section MallocTotal.
Context {mach : Machine}.

(** [ALIGN] (line 41) when nothing wraps: the size plus [4W - 1], cut down
    to a multiple of 8. *)
Lemma ALIGN_bounds size :
  0 <= size -> size + 4 * W <= ptr_mod ->
  ALIGN size mod 8 = 0 /\
  size + 4 * W - 8 <= ALIGN size <= size + 4 * W - 1.
Proof.
  pose proof W_pos as HWp.
  intros H0 H1. unfold ALIGN, ALIGNMENT, DSIZE, WSIZE.
  rewrite (wrap_small size) by lia. rewrite wrap_small by lia.
  rewrite land_lnot7.
  pose proof (Z.mod_pos_bound (size + (2 * W - 1) + 2 * W) 8).
  split; [|lia].
  rewrite Zminus_mod, Z.mod_mod, Z.sub_diag by lia. reflexivity.
Qed.

Lemma asize_room size :
  0 <= size -> size + 4 * W <= ptr_mod ->
  let asize := MAX (ALIGN size) MINIMUM in
  size + 2 * W <= asize /\ asize <= Z.max (6 * W) (size + 4 * W - 1).
Proof.
  pose proof W_pos as HWp.
  intros H0 H1. cbv zeta.
  destruct (ALIGN_bounds size H0 H1) as (_ & A).
  unfold MAX, MINIMUM, WSIZE.
  destruct (Z.gtb_spec (ALIGN size) (6 * W)); lia.
Qed.

Lemma placed_size_bounds c asize :
  asize <= c -> asize <= placed_size c asize <= c.
Proof. intros H. unfold placed_size. destruct (6 * W <=? c - asize); lia. Qed.

(** [mm_malloc] on a well-formed heap, all three ways out: a fit on the
    free list, an extension of the arena, or [NULL] when nothing fits and
    the provider refuses. *)
Lemma mm_malloc_spec s bl fl fuel size :
  let asize := MAX (ALIGN size) MINIMUM in
  let E := extend_size (MAX asize CHUNKSIZE / WSIZE) in
  WF s bl fl -> 0 < size -> size + 4 * W <= Mach.int_max ->
  (length bl < fuel)%nat ->
  mem_max_addr s < ptr_mod ->
  mem_max_addr s - mem_heap_lo s <= Mach.int_max ->
  exists p s' bl' fl',
    mm_malloc fuel size s = Done p s' /\ WF s' bl' fl' /\
    mem_heap_lo s' = mem_heap_lo s /\ mem_max_addr s' = mem_max_addr s /\
    keeps (alloc_payload (first_block s) bl) s s' /\
    ((p = NULL /\ bl' = bl /\ mem_brk s' = mem_brk s /\
      (forall x, In x fl -> blk_size s x < asize) /\
      mem_max_addr s < mem_brk s + E /\ sbrk_log s' = sbrk_log s ++ [E]) \/
     (exists l1 c l2,
        p = first_block s + total l1 /\ asize <= c /\
        bl' = place_blocks l1 c l2 asize /\
        ((bl = l1 ++ (c, false) :: l2 /\ sbrk_log s' = sbrk_log s /\
          mem_brk s' = mem_brk s) \/
         (l2 = [] /\ coalesce_blocks bl E [] = l1 ++ (c, false) :: l2 /\
          (forall x, In x fl -> blk_size s x < asize) /\
          mem_brk s + E <= mem_max_addr s /\
          sbrk_log s' = sbrk_log s ++ [E] /\
          mem_brk s' = mem_brk s + E)))).
Proof.
  pose proof W_pos as HWp. pose proof ptr_mod_ge as Hpm.
  intros asize E Hwf Hsz Hsmall Hfuel Hmt Hmi.
  unfold Mach.int_max in Hsmall, Hmi.
  destruct (asize_ok size) as (A1 & A2). fold asize in A1, A2.
  destruct (asize_room size) as (A3 & A4); [lia|lia|]. fold asize in A3, A4.
  pose proof (wf_arena _ _ _ Hwf) as Ha.
  destruct (arena_bounds _ _ Ha) as (B1 & B2 & B3 & B4 & B5 & B6).
  destruct (find (fun bp => asize <=? blk_size s bp) fl) as [bp|] eqn:Ef.
  - (* a fit *)
    destruct (find_some _ _ Ef) as (Hbp & Hfit). cbv beta in Hfit.
    apply Z.leb_le in Hfit.
    destruct (mm_malloc_fit_frame s bl fl fuel size Hwf) as
      (l1 & c & l2 & s' & fl' & Ebl & Hc & Hrun & Hwf' & He & K);
      [lia|exact Hfuel|exists bp; auto|].
    exists (first_block s + total l1), s', (place_blocks l1 c l2 asize), fl'.
    destruct He as (E1 & E2 & E3 & E4 & E5).
    split; [exact Hrun|]. split; [exact Hwf'|]. split; [exact E1|].
    split; [exact E3|]. split; [exact K|]. right.
    exists l1, c, l2. split; [reflexivity|]. split; [exact Hc|].
    split; [reflexivity|]. left. auto.
  - (* no fit *)
    assert (Hnofit : forall x, In x fl -> blk_size s x < asize).
    { intros x Hx. pose proof (find_none _ _ Ef _ Hx) as X. cbv beta in X.
      apply Z.leb_gt in X. exact X. }
    pose proof (WF_length _ _ _ Hwf) as Hl.
    pose proof (WF_walk _ _ _ Hwf) as Hw.
    assert (Hff : findFit fuel asize s = Done NULL s).
    { unfold findFit, get_free_listp, bind.
      rewrite (findFit_loop_walk _ _ _ _ Hw) by lia.
      unfold first_fit. rewrite Ef. reflexivity. }
    set (ext := MAX asize CHUNKSIZE) in *.
    assert (Hext : asize <= ext /\ ext mod 8 = 0 /\ ext < 2 ^ 31).
    { unfold ext, MAX, CHUNKSIZE. change (Z.shiftl 1 12) with 4096.
      destruct (Z.gtb_spec asize 4096); repeat split; lia. }
    destruct Hext as (X1 & X2 & X3).
    assert (Hdiv : ext / WSIZE * W = ext).
    { unfold WSIZE. apply Z.mod_divide in X2; [|lia]. destruct X2 as [k Hk].
      destruct W_ok as [e|e]; rewrite e, Hk.
      - replace (k * 8) with (2 * k * 4) by ring. rewrite Z.div_mul by lia. ring.
      - rewrite Z.div_mul by lia. ring. }
    assert (Hw0 : 0 <= ext / WSIZE) by (unfold WSIZE; apply Z.div_pos; lia).
    assert (Hw1 : (ext / WSIZE + 1) * W < ptr_mod) by lia.
    destruct (extend_size_facts _ Hw0 Hw1) as (_ & HE1 & HE2 & _).
    fold E in HE1, HE2.
    destruct (Z_lt_le_dec (mem_max_addr s) (mem_brk s + E)) as [Hc|Hc].
    + (* the provider refuses *)
      destruct (extendHeap_refused s bl fl (ext / WSIZE) Hwf Hc)
        as (s' & Hrun & Hwf' & Em & El & Eb & Ex & Elog).
      exists NULL, s', bl, fl.
      split.
      { unfold mm_malloc.
        replace (size =? 0) with false by (symmetry; apply Z.eqb_neq; lia).
        fold asize. step Hff. cbn [Z.eqb negb NULL]. fold ext.
        step Hrun. reflexivity. }
      split; [exact Hwf'|]. split; [exact El|]. split; [exact Ex|].
      split; [intros x _; rewrite Em; reflexivity|].
      left. repeat (split; [solve [auto]|]). exact Elog.
    + (* the arena grows *)
      destruct (extendHeap_spec s bl fl (ext / WSIZE) Hwf Hw0 Hw1)
        as (s1 & fl1 & Hrun1 & Hwf1 & El1 & Eb1 & Ex1 & Elog1 & K1);
        fold E; unfold Mach.int_max; try lia.
      pose proof (merge_prev_nonneg _ _ _ (ar_seg _ _ Ha)) as Hmp.
      destruct (merge_prev_totals bl) as (T1 & _).
      pose proof (ar_brk _ _ Ha) as Hbrk.
      set (l1 := fst (merge_prev bl)) in *.
      set (c := snd (merge_prev bl) + E + 0).
      assert (Ecb : coalesce_blocks bl E [] = l1 ++ (c, false) :: [])
        by reflexivity.
      fold E in Hwf1. rewrite Ecb in Hwf1.
      assert (EF1 : first_block s1 = first_block s)
        by (unfold first_block; rewrite El1; reflexivity).
      assert (Hac : asize <= c) by (unfold c; lia).
      assert (Htl : 0 <= total l1).
      { pose proof (ar_seg _ _ (wf_arena _ _ _ Hwf1)) as Hs1.
        apply seg_app in Hs1. destruct Hs1 as [Hs1 _].
        apply (seg_total_nonneg _ _ _ Hs1). }
      destruct (place_spec_frame s1 l1 c [] fl1 asize Hwf1 A1 A2 Hac)
        as (s' & fl' & Hrun2 & Hwf2 & He2 & K2).
      rewrite EF1 in Hrun2, K2.
      assert (Ep : mem_brk s - snd (merge_prev bl) = first_block s + total l1)
        by lia.
      rewrite Ep in Hrun1.
      exists (first_block s + total l1), s', (place_blocks l1 c [] asize), fl'.
      destruct He2 as (E1 & E2 & E3 & E4 & E5).
      split.
      { unfold mm_malloc.
        replace (size =? 0) with false by (symmetry; apply Z.eqb_neq; lia).
        fold asize. step Hff. cbn [Z.eqb negb NULL]. fold ext.
        step Hrun1.
        replace (first_block s + total l1 =? 0) with false
          by (symmetry; apply Z.eqb_neq; unfold first_block in *; lia).
        step Hrun2. reflexivity. }
      split; [exact Hwf2|]. split; [congruence|]. split; [congruence|].
      split.
      { apply (keeps_trans _ _ s1); [exact K1|].
        refine (keeps_weaken _ _ _ _ _ K2). intros x Hx.
        change (alloc_payload (first_block s) (coalesce_blocks bl E []) x).
        apply alloc_payload_coalesce_blocks. left. exact Hx. }
      right. exists l1, c, []. split; [reflexivity|]. split; [exact Hac|].
      split; [reflexivity|]. right.
      split; [reflexivity|].
      split; [exact Ecb|]. split; [exact Hnofit|]. split; [exact Hc|].
      split; [rewrite E4, Elog1|rewrite E2, Eb1]; reflexivity.
Qed.

End MallocTotal.

Section Realloc.
Context {mach : Machine}.



End Realloc.

Section Checker.
Context {mach : Machine}.

Lemma load_bytes_parity m a n : load_bytes m a (S n) mod 2 = m a mod 2.
Proof.
  cbn [load_bytes]. generalize (load_bytes m (a + 1) n). intros y.
  Z.div_mod_to_equations. lia.
Qed.

(** The allocated bit of the [int] at [a] is the parity of the pointer
    stored at [a]. *)
Lemma rd_int_parity s a : Z.land (rd_int s a) 1 = rd_ptr s a mod 2.
Proof.
  pose proof W_pos as HWp.
  rewrite land_1. unfold rd_int, rd_ptr.
  destruct (Z.to_nat W) as [|k] eqn:Ek; [lia|].
  rewrite (load_bytes_parity _ _ k).
  rewrite <- (load_bytes_parity (mem s) a 3).
  generalize (load_bytes (mem s) a 4). intros v.
  unfold Mach.to_int. Z.div_mod_to_equations. lia.
Qed.

Lemma free_block_aligned s bl y :
  arena s bl -> mem_heap_lo s mod 8 = 0 ->
  In y (free_addrs (first_block s) bl) -> y mod 8 = 0.
Proof.
  pose proof W_pos as HWp.
  intros Ha Hlo Hy.
  destruct (free_addrs_split _ _ _ Hy) as (l1 & sz & l2 & E & ->). subst bl.
  pose proof (ar_seg _ _ Ha) as Hs. apply seg_app in Hs. destruct Hs as [Hs _].
  pose proof (seg_total_mod8 _ _ _ Hs) as Hm.
  unfold first_block.
  assert (H12 : (12 * W) mod 8 = 0) by (destruct W_ok as [e|e]; rewrite e; reflexivity).
  Z.div_mod_to_equations. lia.
Qed.

(** [checkblock] on a block of the free list of a well-formed heap whose
    base is 8-aligned: the only thing it reports is the null [prev] link of
    the first block of the list. *)
Lemma checkblock_node s bl fl x :
  WF s bl fl -> mem_heap_lo s mod 8 = 0 -> In x fl ->
  checkblock x s
  = Done (if x =? free_listp s then [prev_out_of_bounds 0] else []) s.
Proof.
  pose proof W_pos as HWp. pose proof ptr_mod_ge as Hpm.
  intros [Ha Hf Hd Hin] Hlo Hx.
  destruct (arena_bounds _ _ Ha) as (B1 & B2 & B3 & B4 & B5 & B6).
  assert (Hsub : forall y, In y fl -> In y (free_addrs (first_block s) bl))
    by (intros y Hy; apply Hin; exact Hy).
  pose proof (free_nodes_ok _ _ _ Ha Hsub) as Hn.
  assert (Hbnd : forall y, In y fl ->
             mem_heap_lo s < y /\ y + 4 <= mem_brk s /\ y mod 8 = 0).
  { intros y Hy.
    pose proof (seg_free_bounds _ _ _ _ (ar_seg _ _ Ha) (Hsub y Hy)).
    pose proof (free_block_aligned _ _ _ Ha Hlo (Hsub y Hy)).
    pose proof (ar_brk _ _ Ha). unfold first_block in *. lia. }
  destruct (in_split _ _ Hx) as (f1 & f2 & Efl).
  rewrite Efl in Hf, Hn, Hd.
  destruct (flist_delete _ _ _ _ Hf Hn Hd) as (E1 & E2 & Hp & Hnx & _).
  assert (Hx' : In x (f1 ++ x :: f2)) by (apply in_or_app; right; left; reflexivity).
  destruct (nodes_ok_in _ _ x Hn Hx') as (X0 & X1 & V1 & V2).
  set (p := last f1 0) in *. set (n := hd (list_end s) f2) in *.
  assert (RN : NEXT_FREEP x s = Done n s).
  { unfold NEXT_FREEP, DSIZE, WSIZE. rewrite wrap_small by lia.
    rewrite load_ptr_ok by exact V2. rewrite E2. reflexivity. }
  assert (RP : PREV_FREEP x s = Done p s).
  { unfold PREV_FREEP. rewrite load_ptr_ok by exact V1. rewrite E1. reflexivity. }
  assert (Hnb : mem_heap_lo s <= n /\ n <= mem_brk s - 1).
  { destruct Hnx as [->|Hnx].
    - unfold list_end, first_block in *. lia.
    - assert (In n fl) by (rewrite Efl; apply in_or_app; right; right; exact Hnx).
      destruct (Hbnd n H). lia. }
  assert (ON : out_of_heap (NEXT_FREEP x) s = Done false s).
  { unfold out_of_heap. step RN.
    unfold get_mem_heap_lo, get_mem_heap_hi, bind, ret.
    replace (n <? mem_heap_lo s) with false by (symmetry; apply Z.ltb_ge; lia).
    rewrite RN.
    replace (n >? mem_brk s - 1) with false; [reflexivity|].
    symmetry. rewrite Z.gtb_ltb. apply Z.ltb_ge. lia. }
  assert (Hpb : (p = 0 /\ f1 = []) \/
                (f1 <> [] /\ mem_heap_lo s <= p /\ p <= mem_brk s - 1 /\ p mod 8 = 0)).
  { destruct f1 as [|y f1']; [left; split; reflexivity|right].
    split; [discriminate|].
    assert (In p fl).
    { rewrite Efl. apply in_or_app. left. unfold p.
      destruct (@exists_last _ (y :: f1')) as (l' & q & Eq); [discriminate|].
      rewrite Eq, last_last. apply in_or_app. right. left. reflexivity. }
    destruct (Hbnd p H). lia. }
  assert (OP : out_of_heap (PREV_FREEP x) s = Done (p =? 0) s).
  { unfold out_of_heap. step RP.
    unfold get_mem_heap_lo, get_mem_heap_hi, bind, ret.
    destruct Hpb as [[-> _]|(_ & P1 & P2 & _)].
    - replace (0 <? mem_heap_lo s) with true by (symmetry; apply Z.ltb_lt; lia).
      reflexivity.
    - replace (p <? mem_heap_lo s) with false by (symmetry; apply Z.ltb_ge; lia).
      rewrite RP.
      replace (p >? mem_brk s - 1) with false
        by (symmetry; rewrite Z.gtb_ltb; apply Z.ltb_ge; lia).
      replace (p =? 0) with false by (symmetry; apply Z.eqb_neq; lia).
      reflexivity. }
  (* the block itself *)
  destruct (free_addrs_split _ _ _ (Hsub x Hx)) as (l1 & sz & l2 & Ebl & Ex).
  subst bl. pose proof (arena_at _ _ _ _ _ Ha) as Hb. rewrite <- Ex in Hb.
  destruct (blk_run _ _ _ _ _ Ha Hb) as (_ & _ & _ & R4).
  destruct (blk_valid _ _ _ _ _ Ha Hb) as (U1 & U2 & U3 & U4 & U5 & U6 & U7).
  destruct (Hbnd x Hx) as (Y1 & Y2 & Y3).
  assert (GA : GET_ALLOC x s = Done 0 s).
  { rewrite GET_ALLOC_ok by (apply valid_true; lia).
    rewrite rd_int_parity, E1. f_equal.
    destruct Hpb as [[-> _]|(_ & _ & _ & P3)]; [reflexivity|].
    Z.div_mod_to_equations. lia. }
  assert (GH : GET (HDRP x) s = Done (tag sz false) s).
  { rewrite HDRP_eq by lia. unfold GET, load_int. rewrite U4.
    rewrite (ba_hdr _ _ _ _ Hb). reflexivity. }
  assert (GF : GET (x + sz - 2 * W) s = Done (tag sz false) s).
  { unfold GET, load_int. rewrite U5. rewrite (ba_ftr _ _ _ _ Hb). reflexivity. }
  assert (Ehead : (x =? free_listp s) = (p =? 0)).
  { destruct Hf as [Hh _]. rewrite Hh.
    destruct Hpb as [[-> ->]|(Hne & P1 & _)].
    - cbn [app hd]. rewrite !Z.eqb_refl. reflexivity.
    - destruct f1 as [|y f1']; [congruence|]. cbn [app hd].
      replace (p =? 0) with false by (symmetry; apply Z.eqb_neq; lia).
      apply Z.eqb_neq. intros ->.
      cbn [app] in Hd. apply NoDup_cons_iff in Hd. destruct Hd as [Hd _].
      apply Hd. apply in_or_app. right. left. reflexivity. }
  assert (I0 : forall A (v : A), ret v s = Done v s) by reflexivity.
  assert (I2 : (q <- PREV_FREEP x ;; ret [prev_out_of_bounds q]) s
               = Done [prev_out_of_bounds p] s) by (step RP; reflexivity).
  assert (I4 : (h <- GET (HDRP x) ;; ftr <- FTRP x ;; f <- GET ftr ;;
                ret (if negb (h =? f) then [tags_differ] else [])) s
               = Done [] s).
  { step GH. step R4. step GF. rewrite Z.eqb_refl. reflexivity. }
  unfold checkblock. step ON. cbv iota. step (I0 _ (@nil report)).
  step OP. rewrite Ehead.
  rewrite (wrap_small x) by lia. rewrite Y3. cbn [Z.eqb negb].
  destruct (p =? 0) eqn:Ep.
  - step I2. step GA. cbn [Z.eqb]. step I4.
    apply Z.eqb_eq in Ep. rewrite Ep. reflexivity.
  - step (I0 _ (@nil report)). step GA. cbn [Z.eqb]. step I4. reflexivity.
Qed.

End Checker.

(** ** Further properties of the operations *)

Section ListOpsResults.
Context {mach : Machine}.

(** X1.  [add(bp)] (lines 532-538) puts [bp] in front of the free list: the
    list [fl] becomes [bp :: fl], [bp] is the new head and its [prev] link
    is null; the arena bounds are not touched. *)
Theorem add_pushes_front s fl b :
  flist s fl -> nodes_ok s (b :: fl) -> NoDup (b :: fl) ->
  exists s',
    add b s = Done tt s' /\ flist s' (b :: fl) /\
    free_listp s' = b /\ rd_ptr s' b = NULL /\ same_env s s'.
Proof.
  intros Hf Hn Hd.
  destruct (flist_add _ _ _ Hf Hn Hd) as [Hrun Hfl].
  exists (add_st b s). split; [exact Hrun|]. split; [exact Hfl|].
  split; [reflexivity|]. split; [|apply same_env_add_st].
  destruct Hfl as [_ Hc]. cbn [chain] in Hc. tauto.
Qed.

(** X2.  [delete(bp)] (lines 548-556) unlinks [bp] wherever it stands in
    the free list and keeps the order of the other blocks. *)
Theorem delete_unlinks s l1 b l2 :
  flist s (l1 ++ b :: l2) -> nodes_ok s (l1 ++ b :: l2) ->
  NoDup (l1 ++ b :: l2) ->
  exists s',
    delete b s = Done tt s' /\ flist s' (l1 ++ l2) /\ same_env s s'.
Proof.
  intros Hf Hn Hd.
  destruct (flist_delete _ _ _ _ Hf Hn Hd) as (_ & _ & _ & _ & Hrun & Hfl).
  eexists. split; [exact Hrun|]. split; [exact Hfl|apply same_env_delete_st].
Qed.

(** X3.  [add(bp)] followed by [delete(bp)] gives back the free list there
    was, with the same head. *)
Theorem add_then_delete s fl b :
  flist s fl -> nodes_ok s (b :: fl) -> NoDup (b :: fl) ->
  exists s',
    (add b ;; delete b) s = Done tt s' /\ flist s' fl /\
    free_listp s' = free_listp s /\ same_env s s'.
Proof.
  intros Hf Hn Hd.
  destruct (flist_add _ _ _ Hf Hn Hd) as [Hrun Hfl].
  pose proof (nodes_ok_env _ _ _ (same_env_add_st s b) Hn) as Hn'.
  destruct (flist_delete (add_st b s) [] b fl Hfl Hn' Hd)
    as (_ & _ & _ & _ & Hrun' & Hfl').
  cbn [app last hd] in Hrun', Hfl'.
  eexists. split; [step Hrun; exact Hrun'|]. split; [exact Hfl'|].
  split.
  - destruct Hfl' as [Hh _]. rewrite Hh. destruct Hf as [Hh0 _]. rewrite Hh0.
    reflexivity.
  - apply (same_env_trans _ (add_st b s));
      [apply same_env_add_st|apply same_env_delete_st].
Qed.

End ListOpsResults.

Section PlaceFreeResults.
Context {mach : Machine}.

(** The block [place] hands out has size [placed_size c a]; what is left
    of the [c] bytes stays free. *)
Lemma place_blocks_placed l1 c l2 a :
  exists l2',
    place_blocks l1 c l2 a = l1 ++ (placed_size c a, true) :: l2' /\
    total l2' = total l2 + (c - placed_size c a) /\
    free_total l2' = free_total l2 + (c - placed_size c a).
Proof.
  unfold place_blocks, placed_size.
  destruct (6 * W <=? c - a).
  - unfold coalesce_blocks. rewrite merge_prev_alloc. cbn [fst snd].
    destruct (merge_next_totals l2) as (B1 & B2 & _).
    exists ((0 + (c - a) + fst (merge_next l2), false) :: snd (merge_next l2)).
    rewrite <- app_assoc. cbn [app total free_total].
    repeat split; lia.
  - exists l2. repeat split; lia.
Qed.

Lemma first_block_env s s' : mem_heap_lo s' = mem_heap_lo s -> first_block s' = first_block s.
Proof. intros E. unfold first_block. rewrite E. reflexivity. Qed.





End PlaceFreeResults.

Section MallocResults.
Context {mach : Machine}.

(** The block list [mm_malloc] places its block in is the arena's own or
    the arena extended by one free block: the allocated payloads are the
    same in both. *)
Lemma alloc_payload_extended a bl E x :
  alloc_payload a (coalesce_blocks bl E []) x <-> alloc_payload a bl x.
Proof.
  rewrite alloc_payload_coalesce_blocks. cbn [alloc_payload]. tauto.
Qed.

Lemma adjacent_free_extended bl E :
  adjacent_free bl = false -> adjacent_free (coalesce_blocks bl E []) = false.
Proof.
  intros H. apply (adjacent_free_coalesce bl E true []).
  apply adjacent_free_join; [exact H|reflexivity|].
  intros l1' szp szn l2' _ X. discriminate X.
Qed.

Ltac malloc_cases H :=
  destruct H as (p & s' & bl' & fl' & Hrun & Hwf' & Hlo & Hmax & Hk
                 & [(Hp & Hbl & Hbrk & Hnf & Href)
                   |(l1 & c & l2 & Hp & Hc & Hbl & Hor)]).

(** X8.  For a request [0 < size] with [size + 4W <= 2^31 - 1], on a
    well-formed heap whose arena limit [mem_max_addr] is below [2^(8W)] and
    at most [2^31 - 1] bytes above the start of the arena (block sizes are
    kept in [int] tags), [mm_malloc(size)] (lines 133-158)
    returns, leaves the heap well formed, and returns [NULL] exactly when
    no block of the free list has the adjusted size and the provider
    refuses the extension; then the blocks and the break are unchanged. *)
Theorem malloc_null_iff s bl fl fuel size :
  let asize := MAX (ALIGN size) MINIMUM in
  let E := extend_size (MAX asize CHUNKSIZE / WSIZE) in
  WF s bl fl -> 0 < size -> size + 4 * W <= Mach.int_max ->
  (length bl < fuel)%nat ->
  mem_max_addr s < ptr_mod ->
  mem_max_addr s - mem_heap_lo s <= Mach.int_max ->
  exists p s' bl' fl',
    mm_malloc fuel size s = Done p s' /\ WF s' bl' fl' /\
    (p = NULL <->
     (forall x, In x fl -> blk_size s x < asize) /\
     mem_max_addr s < mem_brk s + E) /\
    (p = NULL -> bl' = bl /\ mem_brk s' = mem_brk s).
Proof.
  pose proof W_pos as HWp.
  intros asize E Hwf Hsz Hsmall Hfuel Hmt Hmi.
  pose proof (mm_malloc_spec s bl fl fuel size Hwf Hsz Hsmall Hfuel Hmt Hmi) as H.
  cbv zeta in H. fold asize in H. fold E in H. malloc_cases H.
  - exists p, s', bl', fl'. split; [exact Hrun|]. split; [exact Hwf'|]. tauto.
  - exists p, s', bl', fl'. split; [exact Hrun|]. split; [exact Hwf'|].
    destruct (place_blocks_placed l1 c l2 asize) as (l2' & Ep & _).
    assert (Hpos : p <> NULL).
    { pose proof (wf_arena _ _ _ Hwf') as Ha'. rewrite Hbl, Ep in Ha'.
      pose proof (ba_lo _ _ _ _ (arena_at _ _ _ _ _ Ha')) as B.
      pose proof (ar_lo _ _ Ha') as L.
      pose proof (seg_total_nonneg _ _ _ (proj1 (proj1 (seg_app _ _ _ _) (ar_seg _ _ Ha')))).
      rewrite Hp. unfold NULL, first_block in *. lia. }
    split; [|tauto]. split; [tauto|]. intros [Hnf Href]. exfalso.
    destruct Hor as [(Hb & _)|(_ & _ & _ & Hroom & _)]; [|lia].
    pose proof (wf_arena _ _ _ Hwf) as Ha. rewrite Hb in Ha.
    pose proof (blk_size_at _ _ _ _ _ Ha (arena_at _ _ _ _ _ Ha)) as Hs.
    assert (Hin : In (first_block s + total l1) fl).
    { apply (wf_free _ _ _ Hwf). rewrite Hb. apply free_addrs_mid. }
    specialize (Hnf _ Hin). lia.
Qed.


(** What [mm_malloc] does to the payloads: those of the allocated blocks
    are kept, and the block it returns is carved out of bytes that were
    payload of no allocated block. *)
Lemma mm_malloc_payloads s bl fl fuel size :
  WF s bl fl -> 0 < size -> size + 4 * W <= Mach.int_max ->
  (length bl < fuel)%nat ->
  mem_max_addr s < ptr_mod ->
  mem_max_addr s - mem_heap_lo s <= Mach.int_max ->
  exists p s' bl' fl',
    mm_malloc fuel size s = Done p s' /\ WF s' bl' fl' /\
    mem_heap_lo s' = mem_heap_lo s /\ mem_max_addr s' = mem_max_addr s /\
    (length bl' <= length bl + 2)%nat /\
    (forall x, alloc_payload (first_block s) bl x ->
       mem s' x = mem s x /\ alloc_payload (first_block s') bl' x) /\
    (p <> NULL ->
     first_block s <= p /\ p + size + 2 * W <= mem_brk s' /\
     forall x, p <= x < p + size ->
       alloc_payload (first_block s') bl' x /\
       ~ alloc_payload (first_block s) bl x).
Proof.
  pose proof W_pos as HWp. pose proof ptr_mod_ge as Hpm.
  intros Hwf Hsz Hsmall Hfuel Hmt Hmi.
  pose proof (mm_malloc_spec s bl fl fuel size Hwf Hsz Hsmall Hfuel Hmt Hmi) as H.
  cbv zeta in H. malloc_cases H;
    exists p, s', bl', fl'; (split; [exact Hrun|]); (split; [exact Hwf'|]);
    (split; [exact Hlo|]); (split; [exact Hmax|]).
  { split; [rewrite Hbl; lia|]. split; [|tauto].
    intros x Hx. split; [apply Hk; exact Hx|].
    rewrite (first_block_env s s' Hlo), Hbl. exact Hx. }
  set (asize := MAX (ALIGN size) MINIMUM) in *.
  set (E := extend_size (MAX asize CHUNKSIZE / WSIZE)) in *.
  assert (Hfrom : forall x, alloc_payload (first_block s) bl x <->
                    alloc_payload (first_block s) (l1 ++ (c, false) :: l2) x).
  { intros x. destruct Hor as [(Hb0 & _)|(_ & Hb0 & _)].
    - rewrite Hb0. tauto.
    - rewrite <- Hb0. symmetry. apply alloc_payload_extended. }
  split.
  { destruct (place_blocks_shape l1 c l2 asize Hc) as (y & l2' & Es & _ & El).
    rewrite Hbl, Es. rewrite !length_app in *. cbn [length] in *.
    destruct Hor as [(Hb0 & _)|(-> & Hb0 & _)].
    - rewrite Hb0. rewrite length_app. cbn [length]. unfold block in *. lia.
    - destruct (coalesce_blocks_totals bl E []) as (_ & _ & L).
      rewrite Hb0, length_app in L. cbn [length] in *. unfold block in *. lia. }
  split.
  { intros x Hx. split; [apply Hk; exact Hx|].
    rewrite (first_block_env s s' Hlo), Hbl, alloc_payload_place_blocks.
    apply Hfrom in Hx. rewrite alloc_payload_app in Hx.
    cbn [alloc_payload] in Hx.
    destruct Hx as [Hl|[[X _]|Hl]]; [tauto|discriminate X|tauto]. }
  intros Hnn.
  destruct (asize_room size) as (A3 & _);
    [lia|unfold Mach.int_max in Hsmall; lia|]. fold asize in A3.
  destruct (place_blocks_placed l1 c l2 asize) as (l2' & Ep & _).
  pose proof (placed_size_bounds c asize Hc) as Hps.
  pose proof (wf_arena _ _ _ Hwf') as Ha2. rewrite Hbl, Ep in Ha2.
  pose proof (arena_at _ _ _ _ _ Ha2) as Hb.
  pose proof (proj1 (proj1 (seg_app _ _ _ _) (ar_seg _ _ Ha2))) as S1.
  rewrite (first_block_env s s' Hlo) in *. rewrite <- Hp in Hb.
  pose proof (ba_lo _ _ _ _ Hb) as B1. pose proof (ba_hi _ _ _ _ Hb) as B2.
  rewrite (first_block_env s s' Hlo) in B1.
  split; [lia|]. split; [lia|]. intros x Hx. split.
  - rewrite Hbl, alloc_payload_place_blocks. right. left. lia.
  - intros Hal. apply Hfrom in Hal.
    rewrite alloc_payload_app in Hal. cbn [alloc_payload] in Hal.
    destruct Hal as [Hl|[[X _]|Hl]]; [|discriminate X|].
    + pose proof (alloc_payload_bounds _ _ _ _ S1 Hl). lia.
    + destruct Hor as [(Hb0 & _)|(-> & _)]; [|destruct Hl].
      pose proof (ar_seg _ _ (wf_arena _ _ _ Hwf)) as Hs. rewrite Hb0 in Hs.
      apply seg_app in Hs. destruct Hs as [_ S2].
      cbn [seg] in S2. destruct S2 as (_ & _ & _ & _ & S3).
      pose proof (alloc_payload_bounds _ _ _ _ S3 Hl). lia.
Qed.

(** X9.  For a request [0 < size] with [size + 4W <= 2^31 - 1], on a
    well-formed heap whose arena limit [mem_max_addr] is below [2^(8W)] and
    at most [2^31 - 1] bytes above the start of the arena (block sizes are
    kept in [int] tags), the block [mm_malloc(size)] returns is
    fresh: the [size] bytes from the returned pointer lie inside the arena,
    with room for the footer after them, are payload of an allocated block
    afterwards and were payload of no allocated block before. *)
Theorem malloc_block_is_fresh s bl fl fuel size :
  WF s bl fl -> 0 < size -> size + 4 * W <= Mach.int_max ->
  (length bl < fuel)%nat ->
  mem_max_addr s < ptr_mod ->
  mem_max_addr s - mem_heap_lo s <= Mach.int_max ->
  exists p s' bl' fl',
    mm_malloc fuel size s = Done p s' /\ WF s' bl' fl' /\
    (p <> NULL ->
     first_block s <= p /\ p + size + 2 * W <= mem_brk s' /\
     forall x, p <= x < p + size ->
       alloc_payload (first_block s') bl' x /\
       ~ alloc_payload (first_block s) bl x).
Proof.
  intros Hwf Hsz Hsmall Hfuel Hmt Hmi.
  destruct (mm_malloc_payloads s bl fl fuel size Hwf Hsz Hsmall Hfuel Hmt Hmi)
    as (p & s' & bl' & fl' & Hrun & Hwf' & _ & _ & _ & _ & Hnew).
  exists p, s', bl', fl'. auto.
Qed.

(** X10.  For a request [0 < size] with [size + 4W <= 2^31 - 1], on a
    well-formed heap whose arena limit [mem_max_addr] is below [2^(8W)] and
    at most [2^31 - 1] bytes above the start of the arena (block sizes are
    kept in [int] tags), [mm_malloc(size)] leaves the
    allocated blocks alone: every payload byte of a block that was
    allocated before the call keeps its value and is still payload of an
    allocated block after it, whether the request was served from the free
    list, by extending the arena, or refused. *)
Theorem malloc_preserves_live_blocks s bl fl fuel size :
  WF s bl fl -> 0 < size -> size + 4 * W <= Mach.int_max ->
  (length bl < fuel)%nat ->
  mem_max_addr s < ptr_mod ->
  mem_max_addr s - mem_heap_lo s <= Mach.int_max ->
  exists p s' bl' fl',
    mm_malloc fuel size s = Done p s' /\ WF s' bl' fl' /\
    forall x, alloc_payload (first_block s) bl x ->
      mem s' x = mem s x /\ alloc_payload (first_block s') bl' x.
Proof.
  intros Hwf Hsz Hsmall Hfuel Hmt Hmi.
  destruct (mm_malloc_payloads s bl fl fuel size Hwf Hsz Hsmall Hfuel Hmt Hmi)
    as (p & s' & bl' & fl' & Hrun & Hwf' & _ & _ & _ & Hold & _).
  exists p, s', bl', fl'. auto.
Qed.

(** X11.  Two successive allocations do not overlap.  For requests
    [0 < size1] and [0 < size2] with [size1 + 4W <= 2^31 - 1] and
    [size2 + 4W <= 2^31 - 1], on a well-formed heap whose arena limit
    [mem_max_addr] is below [2^(8W)] and at most [2^31 - 1] bytes above the
    start of the arena: when both [mm_malloc(size1)] and the following
    [mm_malloc(size2)] return blocks, the [size1] bytes of the first and
    the [size2] bytes of the second are disjoint, and the second call does
    not write into the first block. *)
Theorem malloc_twice_disjoint s bl fl fuel size1 size2 :
  WF s bl fl ->
  0 < size1 -> size1 + 4 * W <= Mach.int_max ->
  0 < size2 -> size2 + 4 * W <= Mach.int_max ->
  (length bl + 2 < fuel)%nat ->
  mem_max_addr s < ptr_mod ->
  mem_max_addr s - mem_heap_lo s <= Mach.int_max ->
  exists p1 s1 p2 s2,
    mm_malloc fuel size1 s = Done p1 s1 /\
    mm_malloc fuel size2 s1 = Done p2 s2 /\
    (p1 <> NULL -> p2 <> NULL ->
     (p1 + size1 <= p2 \/ p2 + size2 <= p1) /\
     forall x, p1 <= x < p1 + size1 -> mem s2 x = mem s1 x).
Proof.
  intros Hwf Hs1 Hb1 Hs2 Hb2 Hfuel Hmt Hmi.
  destruct (mm_malloc_payloads s bl fl fuel size1 Hwf Hs1 Hb1)
    as (p1 & s1 & bl1 & fl1 & Hrun1 & Hwf1 & Hlo1 & Hmax1 & Hlen & _ & Hnew1);
    [lia|exact Hmt|exact Hmi|].
  destruct (mm_malloc_payloads s1 bl1 fl1 fuel size2 Hwf1 Hs2 Hb2)
    as (p2 & s2 & bl2 & fl2 & Hrun2 & Hwf2 & _ & _ & _ & Hold2 & Hnew2);
    [lia|rewrite Hmax1; exact Hmt|rewrite Hmax1, Hlo1; exact Hmi|].
  exists p1, s1, p2, s2. split; [exact Hrun1|]. split; [exact Hrun2|].
  intros Hn1 Hn2.
  destruct (Hnew1 Hn1) as (_ & _ & Hin1).
  destruct (Hnew2 Hn2) as (_ & _ & Hin2).
  split.
  - destruct (Z_le_gt_dec (p1 + size1) p2) as [|H1]; [left; assumption|].
    destruct (Z_le_gt_dec (p2 + size2) p1) as [|H2]; [right; assumption|].
    exfalso.
    destruct (Z_le_gt_dec p1 p2) as [Hle|Hgt].
    + apply (proj2 (Hin2 p2 ltac:(lia))). apply Hin1. lia.
    + apply (proj2 (Hin2 p1 ltac:(lia))). apply Hin1. lia.
  - intros x Hx. apply Hold2. apply Hin1. exact Hx.
Qed.

(** X12.  For a request [0 < size] with [size + 4W <= 2^31 - 1], on a
    well-formed heap whose arena limit [mem_max_addr] is below [2^(8W)] and
    at most [2^31 - 1] bytes above the start of the arena (block sizes are
    kept in [int] tags), the pointer [mm_malloc(size)] returns
    is 8-byte aligned relative to the start of the arena: [ALIGN] masks
    with [~0x7], so block sizes are multiples of 8 whatever the word
    size. *)
Theorem malloc_result_aligned s bl fl fuel size :
  WF s bl fl -> 0 < size -> size + 4 * W <= Mach.int_max ->
  (length bl < fuel)%nat ->
  mem_max_addr s < ptr_mod ->
  mem_max_addr s - mem_heap_lo s <= Mach.int_max ->
  exists p s',
    mm_malloc fuel size s = Done p s' /\
    (p <> NULL -> (p - mem_heap_lo s) mod 8 = 0).
Proof.
  pose proof W_pos as HWp.
  intros Hwf Hsz Hsmall Hfuel Hmt Hmi.
  pose proof (mm_malloc_spec s bl fl fuel size Hwf Hsz Hsmall Hfuel Hmt Hmi) as H.
  cbv zeta in H. malloc_cases H;
    exists p, s'; (split; [exact Hrun|]); intros Hnn; [tauto|].
  destruct (place_blocks_placed l1 c l2 (MAX (ALIGN size) MINIMUM))
    as (l2' & Ep & _).
  pose proof (wf_arena _ _ _ Hwf') as Ha2. rewrite Hbl, Ep in Ha2.
  pose proof (proj1 (proj1 (seg_app _ _ _ _) (ar_seg _ _ Ha2))) as S1.
  pose proof (seg_total_mod8 _ _ _ S1) as Hm.
  rewrite Hp. unfold first_block.
  replace (mem_heap_lo s + 12 * W + total l1 - mem_heap_lo s)
    with (total l1 + 12 * W) by lia.
  rewrite <- Z.add_mod_idemp_l, Hm by lia.
  destruct W_ok as [-> | ->]; reflexivity.
Qed.

(** X13.  For a request [0 < size] with [size + 4W <= 2^31 - 1], on a
    well-formed heap whose arena limit [mem_max_addr] is below [2^(8W)] and
    at most [2^31 - 1] bytes above the start of the arena (block sizes are
    kept in [int] tags) and in which no two neighbouring
    blocks are free, [mm_malloc(size)] leaves no two neighbouring blocks
    free: the remainder of a split is coalesced, and so is the extension of
    the arena. *)
Theorem malloc_no_adjacent s bl fl fuel size :
  WF s bl fl -> 0 < size -> size + 4 * W <= Mach.int_max ->
  (length bl < fuel)%nat ->
  mem_max_addr s < ptr_mod ->
  mem_max_addr s - mem_heap_lo s <= Mach.int_max ->
  adjacent_free bl = false ->
  exists p s' bl' fl',
    mm_malloc fuel size s = Done p s' /\ WF s' bl' fl' /\
    adjacent_free bl' = false.
Proof.
  intros Hwf Hsz Hsmall Hfuel Hmt Hmi Hadj.
  pose proof (mm_malloc_spec s bl fl fuel size Hwf Hsz Hsmall Hfuel Hmt Hmi) as H.
  cbv zeta in H. malloc_cases H;
    exists p, s', bl', fl'; (split; [exact Hrun|]); (split; [exact Hwf'|]).
  - rewrite Hbl. exact Hadj.
  - rewrite Hbl. apply adjacent_free_place.
    destruct Hor as [(Hb0 & _)|(_ & Hb0 & _)]; [rewrite Hb0 in Hadj; exact Hadj|].
    apply (adjacent_free_extended _ (extend_size (MAX (MAX (ALIGN size) MINIMUM) CHUNKSIZE / WSIZE)))
      in Hadj.
    rewrite Hb0 in Hadj. exact Hadj.
Qed.

End MallocResults.

Section ReallocResults.
Context {mach : Machine}.



End ReallocResults.

Section ExtendResults.
Context {mach : Machine}.

(** X16.  [extendHeap(words)] (lines 241-260) on a well-formed heap, for
    [0 <= words] with [(words + 1) * W] below [2^(8W)], when the provider
    grants the bytes and the arena after the grant ends below [2^(8W)] and
    spans at most [2^31 - 1] bytes (block sizes are kept in [int] tags):
    the arena grows by [extend_size words] bytes, which become one free
    block, merged with the block that ended the arena when that one was
    free; the call returns the payload address of that free block, the
    heap stays well formed, and no allocated payload is written. *)
Theorem extendHeap_keeps_heap s bl fl words :
  let E := extend_size words in
  WF s bl fl ->
  0 <= words -> (words + 1) * W < ptr_mod ->
  mem_brk s + E <= mem_max_addr s ->
  mem_brk s + E < ptr_mod ->
  mem_brk s + E - mem_heap_lo s <= Mach.int_max ->
  exists s' fl',
    extendHeap words s = Done (mem_brk s - snd (merge_prev bl)) s' /\
    WF s' (coalesce_blocks bl E []) fl' /\
    blk_at s' (mem_brk s - snd (merge_prev bl)) (snd (merge_prev bl) + E) false /\
    mem_brk s' = mem_brk s + E /\
    sbrk_log s' = sbrk_log s ++ [E] /\
    free_total (coalesce_blocks bl E []) = free_total bl + E /\
    keeps (alloc_payload (first_block s) bl) s s'.
Proof.
  intros E Hwf Hw0 Hw1 Hmax Htop Hint.
  destruct (extendHeap_spec s bl fl words Hwf Hw0 Hw1 Hmax Htop Hint)
    as (s' & fl' & Hrun & Hwf' & Hlo & Hbrk & _ & Hlog & Hk).
  fold E in Hwf', Hbrk, Hlog.
  destruct (coalesce_blocks_totals bl E []) as (_ & FT & _).
  exists s', fl'. split; [exact Hrun|]. split; [exact Hwf'|].
  split; [|split; [exact Hbrk|split; [exact Hlog|split; [|exact Hk]]]].
  - pose proof (wf_arena _ _ _ Hwf') as Ha'. unfold coalesce_blocks in Ha'.
    cbn [merge_next fst snd] in Ha'.
    pose proof (arena_at _ _ _ _ _ Ha') as Hb.
    rewrite (first_block_env s s' Hlo) in Hb.
    destruct (merge_prev_totals bl) as (T & _).
    pose proof (ar_brk _ _ (wf_arena _ _ _ Hwf)) as B.
    replace (mem_brk s - snd (merge_prev bl))
      with (first_block s + total (fst (merge_prev bl))) by lia.
    replace (snd (merge_prev bl) + E) with (snd (merge_prev bl) + E + 0) by lia.
    exact Hb.
  - rewrite FT. cbn [free_total]. lia.
Qed.

(** X17.  [extendHeap(words)] when the provider refuses: the call returns
    [NULL], memory and the free list are untouched and the heap is the
    same well-formed heap; only the provider has seen the request. *)
Theorem extendHeap_refusal s bl fl words :
  WF s bl fl ->
  mem_max_addr s < mem_brk s + extend_size words ->
  exists s',
    extendHeap words s = Done NULL s' /\ WF s' bl fl /\
    mem s' = mem s /\ mem_brk s' = mem_brk s /\
    sbrk_log s' = sbrk_log s ++ [extend_size words].
Proof.
  intros Hwf Hmax.
  destruct (extendHeap_refused s bl fl words Hwf Hmax)
    as (s' & Hrun & Hwf' & Hm & _ & Hb & _ & Hl).
  exists s'. auto.
Qed.

(** X18.  The byte count [extendHeap] asks the provider for (lines
    247-249): [words] rounded up to an even number of words, and at least
    the minimum block size; so it is a multiple of the double word, covers
    the [words] asked for and exceeds them by at most one word unless the
    minimum applies. *)
Theorem extend_size_rounds words :
  0 <= words -> (words + 1) * W < ptr_mod ->
  extend_size words = Z.max (6 * W) ((words + words mod 2) * W) /\
  extend_size words mod (2 * W) = 0 /\
  words * W <= extend_size words <= Z.max (6 * W) ((words + 1) * W).
Proof.
  intros H0 H1.
  destruct (extend_size_facts words H0 H1) as (A & _ & B).
  split; [apply extend_size_eq; assumption|]. split; assumption.
Qed.

(** X19.  The adjusted size of a request, [MAX(ALIGN(size), MINIMUM)]
    (lines 41 and 143): a multiple of 8 that is at least the minimum block
    size, leaves room for the [size] bytes between a header and a footer
    word, and wastes fewer than two more words, unless the minimum
    applies. *)
Theorem adjusted_size_room size :
  0 <= size -> size + 4 * W <= ptr_mod ->
  let asize := MAX (ALIGN size) MINIMUM in
  asize mod 8 = 0 /\ 6 * W <= asize /\
  size + 2 * W <= asize /\ asize <= Z.max (6 * W) (size + 4 * W - 1).
Proof.
  intros H0 H1 asize.
  destruct (asize_ok size) as (A1 & A2).
  destruct (asize_room size H0 H1) as (A3 & A4).
  repeat split; assumption.
Qed.

End ExtendResults.

Section CheckerResults.
Context {mach : Machine}.

(** X20.  [checkblock] (lines 507-526) on the blocks of the free list of a
    well-formed heap whose arena starts at a multiple of 8: it reports
    nothing for a block that is not the head of the list, and for the head
    it reports the [prev] link, which is null and so below the arena. *)
Theorem checkblock_free_list s bl fl x :
  WF s bl fl -> mem_heap_lo s mod 8 = 0 -> In x fl ->
  checkblock x s
  = Done (if x =? free_listp s then [prev_out_of_bounds NULL] else []) s.
Proof.
  intros Hwf Hlo Hx. exact (checkblock_node s bl fl x Hwf Hlo Hx).
Qed.

End CheckerResults.

Section ComposeResults.
Context {mach : Machine}.

Lemma merge_next_nonneg s a bl : seg s a bl -> 0 <= fst (merge_next bl).
Proof.
  pose proof W_pos as HWp.
  destruct bl as [|[sz [|]] bl]; cbn [merge_next fst seg]; intros H; lia.
Qed.


(** X22.  A freed block is reused.  For a request [0 < size] with [size + 4W <= 2^31 - 1], on a
    well-formed heap whose arena limit [mem_max_addr] is below [2^(8W)] and
    at most [2^31 - 1] bytes above the start of the arena (block sizes are
    kept in [int] tags): after
    [mm_free(bp)] of an allocated block of [sz] bytes, an [mm_malloc(size)]
    whose adjusted size is at most [sz] is served from the free list; it
    returns a block, the provider is not called and the arena does not
    grow. *)
Theorem free_then_malloc_reuses s l1 sz l2 fl fuel size :
  let bl := l1 ++ (sz, true) :: l2 in
  let bp := first_block s + total l1 in
  WF s bl fl -> 0 < size -> size + 4 * W <= Mach.int_max ->
  MAX (ALIGN size) MINIMUM <= sz ->
  (length bl < fuel)%nat ->
  mem_max_addr s < ptr_mod ->
  mem_max_addr s - mem_heap_lo s <= Mach.int_max ->
  exists s1 p s2 bl2 fl2,
    mm_free bp s = Done tt s1 /\
    mm_malloc fuel size s1 = Done p s2 /\ p <> NULL /\
    WF s2 bl2 fl2 /\
    sbrk_log s2 = sbrk_log s /\ mem_brk s2 = mem_brk s.
Proof.
  pose proof W_pos as HWp.
  intros bl bp Hwf Hsz Hsmall Hfit Hfuel Hmt Hmi.
  destruct (mm_free_spec_frame s l1 sz l2 fl Hwf)
    as (s1 & fl1 & Hrun1 & Hwf1 & (E1 & E2 & E3 & E4 & E5) & _).
  destruct (coalesce_blocks_totals l1 sz l2) as (_ & _ & L).
  assert (Hfuel1 : (length (coalesce_blocks l1 sz l2) < fuel)%nat).
  { unfold bl in Hfuel. rewrite length_app in Hfuel. cbn [length] in Hfuel.
    unfold block in *. lia. }
  pose proof (mm_malloc_spec s1 _ fl1 fuel size Hwf1 Hsz Hsmall Hfuel1) as H.
  cbv zeta in H. rewrite E1, E3 in H. specialize (H Hmt Hmi).
  (* the merged block is on the list and is large enough *)
  pose proof (ar_seg _ _ (wf_arena _ _ _ Hwf)) as Hs.
  apply seg_app in Hs. destruct Hs as [S1 S2].
  cbn [seg] in S2. destruct S2 as (_ & _ & _ & _ & S3).
  pose proof (merge_prev_nonneg _ _ _ S1) as M1.
  pose proof (merge_next_nonneg _ _ _ S3) as M2.
  pose proof (wf_arena _ _ _ Hwf1) as Ha1.
  assert (Hbig : exists x, In x fl1 /\ MAX (ALIGN size) MINIMUM <= blk_size s1 x).
  { exists (first_block s1 + total (fst (merge_prev l1))). split.
    - apply (wf_free _ _ _ Hwf1). unfold coalesce_blocks. apply free_addrs_mid.
    - unfold coalesce_blocks in Ha1.
      rewrite (blk_size_at _ _ _ _ _ Ha1 (arena_at _ _ _ _ _ Ha1)). lia. }
  destruct Hbig as (y & Hy & Hbig).
  destruct H as (p & s2 & bl2 & fl2 & Hrun2 & Hwf2 & Hlo & Hmax & _
                 & [(_ & _ & _ & Hnf & _)
                   |(k1 & c & k2 & Hp & Hc & Hbl & Hor)]).
  { specialize (Hnf _ Hy). lia. }
  destruct Hor as [(Hb0 & Hlog & Hbrk)|(_ & _ & Hnf & _)];
    [|specialize (Hnf _ Hy); lia].
  exists s1, p, s2, bl2, fl2. split; [exact Hrun1|]. split; [exact Hrun2|].
  split; [|split; [exact Hwf2|split; congruence]].
  pose proof (ar_lo _ _ Ha1) as L0.
  rewrite Hb0 in Ha1.
  pose proof (seg_total_nonneg _ _ _
                (proj1 (proj1 (seg_app _ _ _ _) (ar_seg _ _ Ha1)))) as T0.
  rewrite Hp. unfold NULL, first_block. lia.
Qed.

End ComposeResults.

Section FindFitResults.
Context {mach : Machine}.

(** X23.  [findFit(asize)] (lines 320-330) on a well-formed heap misses no
    block: it returns [NULL] exactly when every free block of the arena is
    smaller than [asize], and otherwise the payload address of a free
    block of the arena that has at least [asize] bytes; the heap is not
    changed. *)
Theorem findFit_finds_free_block s bl fl fuel asize :
  WF s bl fl -> (length bl < fuel)%nat ->
  exists r,
    findFit fuel asize s = Done r s /\
    (r = NULL <-> forall l1 c l2, bl = l1 ++ (c, false) :: l2 -> c < asize) /\
    (r <> NULL ->
     exists l1 c l2,
       bl = l1 ++ (c, false) :: l2 /\ r = first_block s + total l1 /\
       asize <= c).
Proof.
  pose proof W_pos as HWp.
  intros Hwf Hfuel.
  pose proof (WF_length _ _ _ Hwf) as Hl.
  pose proof (WF_walk _ _ _ Hwf) as Hw.
  pose proof (wf_arena _ _ _ Hwf) as Ha.
  assert (Hrun : findFit fuel asize s = Done (first_fit s asize fl) s).
  { unfold findFit, get_free_listp, bind.
    apply (findFit_loop_walk _ _ _ _ Hw). lia. }
  exists (first_fit s asize fl). split; [exact Hrun|].
  assert (Hsz : forall l1 c l2, bl = l1 ++ (c, false) :: l2 ->
            In (first_block s + total l1) fl /\
            blk_size s (first_block s + total l1) = c).
  { intros l1 c l2 E. split.
    - apply (wf_free _ _ _ Hwf). rewrite E. apply free_addrs_mid.
    - pose proof Ha as Ha'. rewrite E in Ha'.
      apply (blk_size_at _ _ _ _ _ Ha' (arena_at _ _ _ _ _ Ha')). }
  unfold first_fit.
  destruct (find (fun bp => asize <=? blk_size s bp) fl) as [bp|] eqn:Ef.
  - destruct (find_some _ _ Ef) as (Hbp & Hfit). cbv beta in Hfit.
    apply Z.leb_le in Hfit.
    apply (wf_free _ _ _ Hwf) in Hbp.
    destruct (free_addrs_split _ _ _ Hbp) as (l1 & c & l2 & E & Ebp).
    destruct (Hsz l1 c l2 E) as (_ & Hc). rewrite <- Ebp in Hc.
    assert (Hnn : bp <> NULL).
    { pose proof (ar_lo _ _ Ha) as L. pose proof (ar_seg _ _ Ha) as Hs.
      rewrite E in Hs. apply seg_app in Hs. destruct Hs as [S1 _].
      pose proof (seg_total_nonneg _ _ _ S1).
      unfold NULL, first_block in *. lia. }
    split; [split|].
    + intros X. contradiction.
    + intros Hall. specialize (Hall l1 c l2 E). lia.
    + intros _. exists l1, c, l2. split; [exact E|]. split; [exact Ebp|lia].
  - split; [split|].
    + intros _ l1 c l2 E. destruct (Hsz l1 c l2 E) as (Hin & Hc).
      pose proof (find_none _ _ Ef _ Hin) as X. cbv beta in X.
      apply Z.leb_gt in X. lia.
    + reflexivity.
    + intros X. contradiction.
Qed.

End FindFitResults.

Section ProviderResults.
Context {mach : Machine}.

(** X24.  [mm_malloc] and the provider.  For a request [0 < size] with [size + 4W <= 2^31 - 1], on a
    well-formed heap whose arena limit [mem_max_addr] is below [2^(8W)] and
    at most [2^31 - 1] bytes above the start of the arena (block sizes are
    kept in [int] tags):
    when some block of the free list has the adjusted size, the provider is
    not called and the break stays; when none has, the provider is asked
    exactly once, for [MAX(asize, CHUNKSIZE)] bytes rounded up to an even
    number of words, and the break moves up by that amount or, if the
    provider refuses, not at all.  The break never moves down. *)
Theorem malloc_provider_calls s bl fl fuel size :
  let asize := MAX (ALIGN size) MINIMUM in
  let E := extend_size (MAX asize CHUNKSIZE / WSIZE) in
  WF s bl fl -> 0 < size -> size + 4 * W <= Mach.int_max ->
  (length bl < fuel)%nat ->
  mem_max_addr s < ptr_mod ->
  mem_max_addr s - mem_heap_lo s <= Mach.int_max ->
  exists p s',
    mm_malloc fuel size s = Done p s' /\
    ((exists x, In x fl /\ asize <= blk_size s x) ->
     sbrk_log s' = sbrk_log s /\ mem_brk s' = mem_brk s) /\
    ((forall x, In x fl -> blk_size s x < asize) ->
     sbrk_log s' = sbrk_log s ++ [E] /\
     (mem_brk s' = mem_brk s + E \/ p = NULL /\ mem_brk s' = mem_brk s)) /\
    MAX asize CHUNKSIZE <= E <= MAX asize CHUNKSIZE + W /\
    mem_brk s <= mem_brk s'.
Proof.
  pose proof W_pos as HWp. pose proof ptr_mod_ge as Hpm.
  intros asize E Hwf Hsz Hsmall Hfuel Hmt Hmi.
  destruct (asize_ok size) as (A1 & A2). fold asize in A1, A2.
  destruct (asize_room size) as (_ & A4);
    [lia|unfold Mach.int_max in Hsmall; lia|]. fold asize in A4.
  set (ext := MAX asize CHUNKSIZE) in *.
  assert (Hext : asize <= ext /\ 4096 <= ext /\ ext mod 8 = 0 /\ ext < 2 ^ 31).
  { unfold ext, MAX, CHUNKSIZE. change (Z.shiftl 1 12) with 4096.
    unfold Mach.int_max in Hsmall.
    destruct (Z.gtb_spec asize 4096); repeat split; lia. }
  destruct Hext as (X0 & X1 & X2 & X3).
  assert (Hdiv : ext / WSIZE * W = ext).
  { unfold WSIZE. apply Z.mod_divide in X2; [|lia]. destruct X2 as [k Hk].
    destruct W_ok as [e|e]; rewrite e, Hk.
    - replace (k * 8) with (2 * k * 4) by ring. rewrite Z.div_mul by lia. ring.
    - rewrite Z.div_mul by lia. ring. }
  assert (Hw0 : 0 <= ext / WSIZE) by (unfold WSIZE; apply Z.div_pos; lia).
  assert (Hw1 : (ext / WSIZE + 1) * W < ptr_mod) by lia.
  destruct (extend_size_facts _ Hw0 Hw1) as (_ & _ & HE2 & HE3).
  fold E in HE2, HE3.
  assert (HE : ext <= E <= ext + W) by lia.
  pose proof (mm_malloc_spec s bl fl fuel size Hwf Hsz Hsmall Hfuel Hmt Hmi) as H.
  cbv zeta in H. fold asize in H. fold ext in H. fold E in H.
  destruct H as (p & s' & bl' & fl' & Hrun & Hwf' & Hlo & Hmax & Hk
                 & [(Hp & Hbl & Hbrk & Hnf & Href & Hlog)
                   |(l1 & c & l2 & Hp & Hc & Hbl & Hor)]).
  - exists p, s'. split; [exact Hrun|]. split; [|split; [|split; [exact HE|lia]]].
    + intros (x & Hx & Hfit). specialize (Hnf x Hx). lia.
    + intros _. split; [exact Hlog|]. right. split; assumption.
  - exists p, s'. split; [exact Hrun|].
    destruct Hor as [(Hb0 & Hlog & Hbrk)|(_ & _ & Hnf & Hroom & Hlog & Hbrk)].
    + split; [|split; [|split; [exact HE|lia]]].
      * intros _. split; assumption.
      * intros Hnf. exfalso.
        pose proof (wf_arena _ _ _ Hwf) as Ha. rewrite Hb0 in Ha.
        pose proof (blk_size_at _ _ _ _ _ Ha (arena_at _ _ _ _ _ Ha)) as Hs.
        assert (Hin : In (first_block s + total l1) fl).
        { apply (wf_free _ _ _ Hwf). rewrite Hb0. apply free_addrs_mid. }
        specialize (Hnf _ Hin). lia.
    + split; [|split; [|split; [exact HE|lia]]].
      * intros (x & Hx & Hfit). specialize (Hnf x Hx). lia.
      * intros _. split; [exact Hlog|]. left. exact Hbrk.
Qed.

End ProviderResults.

(** ** Concrete heaps *)

Ltac crunch :=
  vm_compute;
  repeat match goal with
         | |- _ /\ _ => split
         | |- True => exact I
         | |- _ = _ => reflexivity
         | |- _ -> False => let X := fresh in intro X; discriminate X
         end.

Lemma heap_init_arena : arena (mach := m64) heap_init [(48, false)].
Proof. constructor; crunch. Qed.

Lemma heap_init_WF : WF (mach := m64) heap_init [(48, false)] [4192].
Proof.
  constructor.
  - exact heap_init_arena.
  - split; crunch.
  - repeat constructor. intros [].
  - intros x. vm_compute. tauto.
Qed.


Lemma heap_pbn_flist : flist (mach := m64) heap_pbn [4448; 4192; 4704].
Proof. split; crunch. Qed.

Lemma heap_one_WF : WF (mach := m64) heap_one [(128, true); (4016, false)] [4320].
Proof.
  constructor.
  - constructor; crunch.
  - split; crunch.
  - repeat constructor. intros [].
  - intros x. vm_compute. tauto.
Qed.

Lemma heap_two_WF :
  WF (mach := m64) heap_two [(128, true); (128, true); (3888, false)] [4448].
Proof.
  constructor.
  - constructor; crunch.
  - split; crunch.
  - repeat constructor. intros [].
  - intros x. vm_compute. tauto.
Qed.

Lemma heap_full_WF : WF (mach := m64) heap_full [(48, false)] [4192].
Proof.
  constructor.
  - constructor; crunch.
  - split; crunch.
  - repeat constructor. intros [].
  - intros x. vm_compute. tauto.
Qed.

Lemma heap_pbn_nodes :
  nodes_ok (mach := m64) heap_pbn [4320; 4448; 4192; 4704].
Proof.
  split; [vm_compute; reflexivity|]. split; [vm_compute; intro X; discriminate X|].
  split; [vm_compute; reflexivity|].
  assert (E1 : list_end (mach := m64) heap_pbn = 4112) by (vm_compute; reflexivity).
  assert (E2 : mem_brk heap_pbn = 8336) by (vm_compute; reflexivity).
  rewrite E1, E2. change (W (Machine := m64)) with 8.
  split.
  - intros x Hx. cbn [In] in Hx. lia.
  - intros x y Hx Hy. cbn [In] in Hx, Hy. lia.
Qed.

Lemma heap_pbn_nodup : NoDup [4320; 4448; 4192; 4704].
Proof. repeat constructor; cbn [In]; lia. Qed.

(** C3 as stated fails: on the 64-bit machine [mm_init] succeeds having
    asked the provider for 96 and then for 48 bytes, not for [4 * 6W = 192]
    and 4096.  And failure is not returned whenever a provider call fails:
    on an arena of 50 bytes the first call is refused, [mm_init] compares
    the result with [NULL] while the provider's sentinel is [-1], goes on
    and faults at the first [PUT].  Nor is it returned only then: on the
    arena with the [int] at [lo + 10W] reading 8 both requests fit, and
    [mm_init] faults in [coalesce], which takes that word for the footer of
    a free block before the first one. *)
Lemma mm_init_requests :
  returned (script_init_log arena20) = Some (0, [96; 48]) /\
  [96; 48] <> [4 * (6 * W (Machine := m64)); 4096] /\
  mem_max_addr (fresh 4096 50)
  < mem_brk (fresh 4096 50) + 2 * MINIMUM (mach := m64) /\
  mm_init (mach := m64) (fresh 4096 50) = Fault /\
  mem_brk arena_dirty + 2 * MINIMUM (mach := m64) + init_chunk (mach := m64)
  <= mem_max_addr arena_dirty /\
  rd_int arena_dirty (4096 + 10 * 8) = 8 /\
  mm_init (mach := m64) arena_dirty = Fault.
Proof.
  split; [vm_compute; reflexivity|]. split; [discriminate|].
  split; [vm_compute; reflexivity|]. split; [vm_compute; reflexivity|].
  split; [vm_compute; intro X; discriminate X|].
  split; vm_compute; reflexivity.
Qed.

(** C9 as stated fails: right after [mm_init] the heap is well formed with
    48 free bytes; [mm_malloc(100)] has to extend the arena, and after
    [mm_free] of its result 4144 bytes are free. *)
Lemma round_trip_grows :
  WF (mach := m64) heap_init [(48, false)] [4192] /\
  returned (script_round_trip heap_init) = Some (48, 4144) /\
  48 <> 4144.
Proof.
  split; [exact heap_init_WF|]. split; [vm_compute; reflexivity|discriminate].
Qed.

(** [mm_init_spec] on the 20 MB arena. *)
Lemma mm_init_spec_witness :
  exists r s',
    mm_init (mach := m64) arena20 = Done r s' /\
    heap_listp s' = 4096 /\ sbrk_log s' = [96; 48] /\
    (r = 0 -> WF (mach := m64) s' [(48, false)] [4192]) /\
    rd_int s' 4096 = 0 /\ rd_int s' 4104 = 49 /\
    rd_int s' 4144 = 49 /\ rd_int s' 4152 = 1.
Proof.
  destruct (mm_init_spec (mach := m64) arena20)
    as (r & s' & H1 & H2 & H3 & _ & _ & _ & H4 & H5 & H6 & _ & H7 & H8 & _).
  - vm_compute; reflexivity.
  - reflexivity.
  - vm_compute; reflexivity.
  - vm_compute; intro X; discriminate X.
  - vm_compute; reflexivity.
  - exists r, s'. split; [exact H1|]. split; [exact H2|]. split; [exact H3|].
    split; [exact H4|]. split; [exact H5|]. split; [exact H6|].
    split; [exact H7|exact H8].
Defined.


(** [realloc_within_block]: the block at 4192 has 128 bytes. *)
Lemma realloc_within_block_witness :
  mm_realloc (mach := m64) 8 4192 50 heap_one = Done 4192 heap_one.
Proof.
  apply (realloc_within_block (mach := m64) heap_one 8 4192 50 128).
  - rewrite GET_SIZE_ok by (vm_compute; reflexivity).
    f_equal; vm_compute; reflexivity.
  - lia.
  - vm_compute; intro X; discriminate X.
Defined.

(** [realloc_negative_int] at [size = 2^31]. *)
Lemma realloc_negative_int_witness :
  Mach.to_int (2 ^ 31) < 0 /\
  mm_realloc (mach := m64) 8 4192 (2 ^ 31) heap_one = Done NULL heap_one.
Proof.
  split; [vm_compute; reflexivity|].
  apply (realloc_negative_int (mach := m64)). vm_compute; reflexivity.
Defined.

(** [malloc_free_round_trip]: one byte fits the 48-byte block of the heap
    after [mm_init]. *)
Lemma malloc_free_round_trip_witness :
  exists p s1 s2 bl2 fl2,
    mm_malloc (mach := m64) 3 1 heap_init = Done p s1 /\ p <> NULL /\
    sbrk_log s1 = sbrk_log heap_init /\
    mm_free (mach := m64) p s1 = Done tt s2 /\
    WF (mach := m64) s2 bl2 fl2 /\
    free_bytes (mach := m64) 3 heap_init = Done 48 heap_init /\
    free_bytes (mach := m64) 3 s2 = Done 48 s2.
Proof.
  apply (malloc_free_round_trip (mach := m64) heap_init [(48, false)] [4192] 3 1).
  - exact heap_init_WF.
  - lia.
  - cbn. lia.
  - exists 4192. split; [left; reflexivity|]. vm_compute. intro X; discriminate X.
Defined.


Lemma nodes_ok_tail (mach : Machine) s b l : nodes_ok s (b :: l) -> nodes_ok s l.
Proof.
  intros (H1 & H2 & H3 & H4 & H5). repeat split; auto.
  - apply H4. right. assumption.
  - apply H4. right. assumption.
  - intros x y Hx Hy. apply H5; right; assumption.
Qed.

Lemma heap_pbn_nodup3 : NoDup [4448; 4192; 4704].
Proof. repeat constructor; cbn [In]; lia. Qed.

(** [add_pushes_front]: the block at 4320 goes in front of the three
    blocks of the list. *)
Lemma add_pushes_front_witness :
  exists s',
    add (mach := m64) 4320 heap_pbn = Done tt s' /\
    flist (mach := m64) s' [4320; 4448; 4192; 4704] /\
    free_listp s' = 4320 /\ rd_ptr (mach := m64) s' 4320 = NULL /\
    same_env heap_pbn s'.
Proof.
  apply (add_pushes_front (mach := m64) heap_pbn [4448; 4192; 4704] 4320).
  - exact heap_pbn_flist.
  - exact heap_pbn_nodes.
  - exact heap_pbn_nodup.
Defined.

(** [delete_unlinks]: the block at 4192 leaves the middle of the list. *)
Lemma delete_unlinks_witness :
  exists s',
    delete (mach := m64) 4192 heap_pbn = Done tt s' /\
    flist (mach := m64) s' [4448; 4704] /\ same_env heap_pbn s'.
Proof.
  apply (delete_unlinks (mach := m64) heap_pbn [4448] 4192 [4704]).
  - exact heap_pbn_flist.
  - exact (nodes_ok_tail _ _ _ _ heap_pbn_nodes).
  - exact heap_pbn_nodup3.
Defined.

(** [add_then_delete] on the block at 4320. *)
Lemma add_then_delete_witness :
  exists s',
    (add (mach := m64) 4320 ;; delete (mach := m64) 4320) heap_pbn = Done tt s' /\
    flist (mach := m64) s' [4448; 4192; 4704] /\
    free_listp s' = free_listp heap_pbn /\ same_env heap_pbn s'.
Proof.
  apply (add_then_delete (mach := m64) heap_pbn [4448; 4192; 4704] 4320).
  - exact heap_pbn_flist.
  - exact heap_pbn_nodes.
  - exact heap_pbn_nodup.
Defined.





(** [malloc_null_iff] on the arena that [mm_init] used up: 100 bytes do
    not fit the 48-byte block and the provider has nothing left. *)
Lemma malloc_null_iff_witness :
  exists p s' bl' fl',
    mm_malloc (mach := m64) 3 100 heap_full = Done p s' /\
    WF (mach := m64) s' bl' fl' /\
    (p = NULL <->
     (forall x, In x [4192] -> blk_size (mach := m64) heap_full x < 128) /\
     mem_max_addr heap_full < mem_brk heap_full + 4096) /\
    (p = NULL -> bl' = [(48, false)] /\ mem_brk s' = mem_brk heap_full).
Proof.
  apply (malloc_null_iff (mach := m64) heap_full [(48, false)] [4192] 3 100).
  - exact heap_full_WF.
  - lia.
  - vm_compute; intro X; discriminate X.
  - cbn. lia.
  - vm_compute; reflexivity.
  - vm_compute; intro X; discriminate X.
Defined.

(** [malloc_block_is_fresh] on the heap with one allocated block. *)
Lemma malloc_block_is_fresh_witness :
  exists p s' bl' fl',
    mm_malloc (mach := m64) 3 100 heap_one = Done p s' /\
    WF (mach := m64) s' bl' fl' /\
    (p <> NULL ->
     first_block (mach := m64) heap_one <= p /\
     p + 100 + 2 * 8 <= mem_brk s' /\
     forall x, p <= x < p + 100 ->
       alloc_payload (mach := m64) (first_block (mach := m64) s') bl' x /\
       ~ alloc_payload (mach := m64) (first_block (mach := m64) heap_one)
           [(128, true); (4016, false)] x).
Proof.
  apply (malloc_block_is_fresh (mach := m64) heap_one
           [(128, true); (4016, false)] [4320] 3 100).
  - exact heap_one_WF.
  - lia.
  - vm_compute; intro X; discriminate X.
  - cbn. lia.
  - vm_compute; reflexivity.
  - vm_compute; intro X; discriminate X.
Defined.

(** [malloc_preserves_live_blocks]: a second allocation keeps the byte at
    4200, which is payload of the block at 4192. *)
Lemma malloc_preserves_live_blocks_witness :
  exists p s' bl' fl',
    mm_malloc (mach := m64) 3 100 heap_one = Done p s' /\
    WF (mach := m64) s' bl' fl' /\
    mem s' 4200 = mem heap_one 4200.
Proof.
  destruct (malloc_preserves_live_blocks (mach := m64) heap_one
              [(128, true); (4016, false)] [4320] 3 100)
    as (p & s' & bl' & fl' & H1 & H2 & H3).
  - exact heap_one_WF.
  - lia.
  - vm_compute; intro X; discriminate X.
  - cbn. lia.
  - vm_compute; reflexivity.
  - vm_compute; intro X; discriminate X.
  - exists p, s', bl', fl'. split; [exact H1|]. split; [exact H2|].
    apply (H3 4200). left. split; [reflexivity|].
    vm_compute; split; [intro X; discriminate X|reflexivity].
Defined.

(** [malloc_result_aligned] on the heap with one allocated block. *)
Lemma malloc_result_aligned_witness :
  exists p s',
    mm_malloc (mach := m64) 3 26 heap_one = Done p s' /\
    (p <> NULL -> (p - mem_heap_lo heap_one) mod 8 = 0).
Proof.
  apply (malloc_result_aligned (mach := m64) heap_one
           [(128, true); (4016, false)] [4320] 3 26).
  - exact heap_one_WF.
  - lia.
  - vm_compute; intro X; discriminate X.
  - cbn. lia.
  - vm_compute; reflexivity.
  - vm_compute; intro X; discriminate X.
Defined.

(** [malloc_no_adjacent] on the heap with one allocated block. *)
Lemma malloc_no_adjacent_witness :
  exists p s' bl' fl',
    mm_malloc (mach := m64) 3 100 heap_one = Done p s' /\
    WF (mach := m64) s' bl' fl' /\ adjacent_free bl' = false.
Proof.
  apply (malloc_no_adjacent (mach := m64) heap_one
           [(128, true); (4016, false)] [4320] 3 100).
  - exact heap_one_WF.
  - lia.
  - vm_compute; intro X; discriminate X.
  - cbn. lia.
  - vm_compute; reflexivity.
  - vm_compute; intro X; discriminate X.
  - reflexivity.
Defined.

(** [malloc_twice_disjoint] from the heap after [mm_init]. *)
Lemma malloc_twice_disjoint_witness :
  exists p1 s1 p2 s2,
    mm_malloc (mach := m64) 4 100 heap_init = Done p1 s1 /\
    mm_malloc (mach := m64) 4 40 s1 = Done p2 s2 /\
    (p1 <> NULL -> p2 <> NULL ->
     (p1 + 100 <= p2 \/ p2 + 40 <= p1) /\
     forall x, p1 <= x < p1 + 100 -> mem s2 x = mem s1 x).
Proof.
  apply (malloc_twice_disjoint (mach := m64) heap_init [(48, false)] [4192] 4 100 40).
  - exact heap_init_WF.
  - lia.
  - vm_compute; intro X; discriminate X.
  - lia.
  - vm_compute; intro X; discriminate X.
  - cbn. lia.
  - vm_compute; reflexivity.
  - vm_compute; intro X; discriminate X.
Defined.



(** [extendHeap_keeps_heap]: 512 words added to the heap after [mm_init];
    the new bytes are merged with the free block of 48 bytes. *)
Lemma extendHeap_keeps_heap_witness :
  exists s' fl',
    extendHeap (mach := m64) 512 heap_init = Done 4192 s' /\
    WF (mach := m64) s' [(4144, false)] fl' /\
    blk_at (mach := m64) s' 4192 4144 false /\
    sbrk_log s' = [96; 48; 4096].
Proof.
  destruct (extendHeap_keeps_heap (mach := m64) heap_init [(48, false)] [4192] 512)
    as (s' & fl' & H1 & H2 & H3 & _ & H4 & _).
  - exact heap_init_WF.
  - lia.
  - vm_compute; reflexivity.
  - vm_compute; intro X; discriminate X.
  - vm_compute; reflexivity.
  - vm_compute; intro X; discriminate X.
  - exists s', fl'. split; [exact H1|]. split; [exact H2|].
    split; [exact H3|exact H4].
Defined.

(** [extendHeap_refusal] on the arena that [mm_init] used up. *)
Lemma extendHeap_refusal_witness :
  exists s',
    extendHeap (mach := m64) 512 heap_full = Done NULL s' /\
    WF (mach := m64) s' [(48, false)] [4192] /\
    mem s' = mem heap_full /\ mem_brk s' = mem_brk heap_full /\
    sbrk_log s' = sbrk_log heap_full ++ [4096].
Proof.
  apply (extendHeap_refusal (mach := m64) heap_full [(48, false)] [4192] 512).
  - exact heap_full_WF.
  - vm_compute; reflexivity.
Defined.

(** [extend_size_rounds]: five words of 8 bytes become six. *)
Lemma extend_size_rounds_witness :
  extend_size (mach := m64) 5 = Z.max (6 * 8) ((5 + 5 mod 2) * 8) /\
  extend_size (mach := m64) 5 mod (2 * 8) = 0 /\
  5 * 8 <= extend_size (mach := m64) 5 <= Z.max (6 * 8) ((5 + 1) * 8).
Proof.
  apply (extend_size_rounds (mach := m64) 5).
  - lia.
  - vm_compute; reflexivity.
Defined.

(** [adjusted_size_room]: a request of 100 bytes with words of 8 bytes. *)
Lemma adjusted_size_room_witness :
  MAX (ALIGN (mach := m64) 100) (MINIMUM (mach := m64)) mod 8 = 0 /\
  6 * 8 <= MAX (ALIGN (mach := m64) 100) (MINIMUM (mach := m64)) /\
  100 + 2 * 8 <= MAX (ALIGN (mach := m64) 100) (MINIMUM (mach := m64)) /\
  MAX (ALIGN (mach := m64) 100) (MINIMUM (mach := m64))
  <= Z.max (6 * 8) (100 + 4 * 8 - 1).
Proof.
  apply (adjusted_size_room (mach := m64) 100).
  - lia.
  - vm_compute; intro X; discriminate X.
Defined.

(** [checkblock_free_list] on the only free block of the heap after
    [mm_init], which is the head of the list. *)
Lemma checkblock_free_list_witness :
  checkblock (mach := m64) 4192 heap_init
  = Done [prev_out_of_bounds NULL] heap_init.
Proof.
  apply (checkblock_free_list (mach := m64) heap_init [(48, false)] [4192] 4192).
  - exact heap_init_WF.
  - vm_compute; reflexivity.
  - left; reflexivity.
Defined.


(** [free_then_malloc_reuses]: the block at 4192 is freed and the next
    request of 100 bytes is served without the provider. *)
Lemma free_then_malloc_reuses_witness :
  exists s1 p s2 bl2 fl2,
    mm_free (mach := m64) 4192 heap_two = Done tt s1 /\
    mm_malloc (mach := m64) 4 100 s1 = Done p s2 /\ p <> NULL /\
    WF (mach := m64) s2 bl2 fl2 /\
    sbrk_log s2 = sbrk_log heap_two /\ mem_brk s2 = mem_brk heap_two.
Proof.
  apply (free_then_malloc_reuses (mach := m64) heap_two [] 128
           [(128, true); (3888, false)] [4448] 4 100).
  - exact heap_two_WF.
  - lia.
  - vm_compute; intro X; discriminate X.
  - vm_compute; intro X; discriminate X.
  - cbn. lia.
  - vm_compute; reflexivity.
  - vm_compute; intro X; discriminate X.
Defined.

(** [findFit_finds_free_block] on the heap with one allocated block: the
    free block of 4016 bytes at 4320 is found. *)
Lemma findFit_finds_free_block_witness :
  exists r,
    findFit (mach := m64) 3 128 heap_one = Done r heap_one /\
    (r = NULL <->
     forall l1 c l2, [(128, true); (4016, false)] = l1 ++ (c, false) :: l2 ->
                     c < 128) /\
    (r <> NULL ->
     exists l1 c l2,
       [(128, true); (4016, false)] = l1 ++ (c, false) :: l2 /\
       r = first_block (mach := m64) heap_one + total l1 /\ 128 <= c).
Proof.
  apply (findFit_finds_free_block (mach := m64) heap_one
           [(128, true); (4016, false)] [4320] 3 128).
  - exact heap_one_WF.
  - cbn. lia.
Defined.

(** [malloc_provider_calls] on the heap after [mm_init], whose only free
    block has 48 bytes: a request of 100 bytes makes the provider hand out
    4096 bytes. *)
Lemma malloc_provider_calls_witness :
  exists p s',
    mm_malloc (mach := m64) 3 100 heap_init = Done p s' /\
    sbrk_log s' = sbrk_log heap_init ++ [4096] /\
    (mem_brk s' = mem_brk heap_init + 4096 \/
     p = NULL /\ mem_brk s' = mem_brk heap_init).
Proof.
  destruct (malloc_provider_calls (mach := m64) heap_init [(48, false)] [4192] 3 100)
    as (p & s' & H1 & _ & H2 & _).
  - exact heap_init_WF.
  - lia.
  - vm_compute; intro X; discriminate X.
  - cbn. lia.
  - vm_compute; reflexivity.
  - vm_compute; intro X; discriminate X.
  - exists p, s'. split; [exact H1|]. apply H2.
    intros x [<-|[]]. vm_compute. reflexivity.
Defined.

(** ** Scenarios *)

(** C1.  On the 64-bit machine, with the arena at the 16-aligned address
    4096, the second allocation of [mm_init(); mm_malloc(26); mm_malloc(1)]
    returns 4248, and [4248 mod 16 = 8]: the payload address is not aligned
    to a double word. *)
Lemma script_align_run :
  returned (script_align arena20) = Some 4248 /\ 4248 mod (2 * 8) = 8.
Proof. split; vm_compute; reflexivity. Qed.

(** C2.  On an arena of 144 bytes, which [mm_init] uses up, [mm_malloc(1)]
    returns 4192 and a further [mm_malloc(116)] returns [NULL];
    [mm_realloc] of that block to 100 bytes, which needs a new block of 116
    bytes, does not return [NULL]: it hands the null pointer to [place] and
    faults. *)
Lemma script_realloc_exhausted_run :
  returned ((mm_init (mach := m64) ;; mm_malloc (mach := m64) 8 1) (fresh 4096 144)) = Some 4192 /\
  returned ((mm_init (mach := m64) ;; mm_malloc (mach := m64) 8 1 ;;
             mm_malloc (mach := m64) 8 116) (fresh 4096 144)) = Some 0 /\
  script_realloc_exhausted (fresh 4096 144) = Fault.
Proof. repeat split; vm_compute; reflexivity. Qed.

(** C4.  A tag is a 4-byte [int], not a word of [W] bytes.  On the 64-bit
    machine, after [a = mm_malloc(100)], a client store into the payload of
    [a], [mm_free(a)] and [b = mm_malloc(24)], the header of the free block
    after [b] reads 4096 as an [int], while the 8-byte word at that address
    is [2^64 - 2^32 + 4096]: its upper four bytes still hold the client's
    data.  And [mm_malloc(2^32)], which succeeds when the provider is large
    enough, returns a block whose header reads the size 24. *)
Lemma script_tag_word_run :
  returned (script_tag_word arena20)
  = Some (4192, 4096, 2 ^ 64 - 2 ^ 32 + 4096) /\
  returned (script_huge (fresh 4096 (2 ^ 34))) = Some (4192, 24).
Proof. split; vm_compute; reflexivity. Qed.

(** C6.  After [mm_init(); a = mm_malloc(150); b = mm_malloc(40);
    a = mm_realloc(a, 200); b = mm_realloc(b, 100)] the block [b] at 4192
    has its allocated bit clear and size 176, and its arena neighbour at
    4368 has its allocated bit clear as well, with size 64: two
    address-adjacent free blocks. *)
Lemma script_adjacent_run :
  returned (script_adjacent arena20) = Some (4192, (0, 176), (4368, 0, 64)).
Proof. vm_compute; reflexivity. Qed.
